(** * Endless runner: player motion, obstacle pool and collision detection

    A shallow embedding of the game core: [Player] (jump arc, lateral
    moves, tilt recovery), [ObstacleManager] (pooled obstacle records,
    spawn timer, speed ramp) and [CollisionDetector] (axis-aligned box
    test).  JavaScript numbers are IEEE 754 binary64 values, so they are
    modelled by Rocq's primitive floats, whose operations round exactly
    as the JavaScript ones do. *)

From Stdlib Require Import Floats ZArith List Bool Lia.
From stdpp Require Import base option list.

Set Warnings "-inexact-float".

(** ** JavaScript numbers and [Math] *)

Abbreviation number := float.

(** [a > b] and [a >= b] on numbers; both are false when an operand is NaN. *)
Definition gtb (a b : number) : bool := PrimFloat.ltb b a.
Definition geb (a b : number) : bool := PrimFloat.leb b a.

(** [Math.min] and [Math.max] of two numbers: NaN is contagious and
    [-0] is smaller than [+0]. *)
Definition Math_min (a b : number) : number :=
  if is_nan a || is_nan b then nan
  else if PrimFloat.ltb a b then a
  else if PrimFloat.ltb b a then b
  else if get_sign a then a else b.

Definition Math_max (a b : number) : number :=
  if is_nan a || is_nan b then nan
  else if PrimFloat.ltb a b then b
  else if PrimFloat.ltb b a then a
  else if get_sign a then b else a.

Definition Math_abs (a : number) : number := PrimFloat.abs a.

(** An integer as a number (exact below 2^53). *)
Definition Z2float (q : Z) : number :=
  SF2Prim (binary_normalize prec emax q 0%Z false).

(** [Math.floor]: numbers with a non-negative binary exponent, zeros,
    infinities and NaN are their own floor; otherwise the mantissa is
    shifted right, which rounds towards minus infinity. *)
Definition Math_floor (v : number) : number :=
  match Prim2SF v with
  | S754_finite s m e =>
      if (0 <=? e)%Z then v
      else Z2float (Z.shiftl (if s then Z.neg m else Z.pos m) e)
  | _ => v
  end.

Definition Math_PI : number := 3.141592653589793%float.

(** The index denoted by a number used as an array subscript: only a
    non-negative integer value names an element. *)
Definition array_index (v : number) : option nat :=
  match Prim2SF v with
  | S754_zero _ => Some 0
  | S754_finite false m e =>
      if (0 <=? e)%Z then Some (Z.to_nat (Z.shiftl (Z.pos m) e))
      else if (Z.land (Z.pos m) (Z.ones (- e)) =? 0)%Z
           then Some (Z.to_nat (Z.shiftl (Z.pos m) e))
           else None
  | _ => None
  end.

(** ** The part of three.js the game relies on *)

Module THREE.

Record Vector3 := V3 { x : number; y : number; z : number }.

Record Box3 := B3 { min : Vector3; max : Vector3 }.

Definition addVectors (a b : Vector3) : Vector3 :=
  V3 (x a + x b) (y a + y b) (z a + z b).

Definition subVectors (a b : Vector3) : Vector3 :=
  V3 (x a - x b) (y a - y b) (z a - z b).

Definition multiplyScalar (a : Vector3) (s : number) : Vector3 :=
  V3 (x a * s) (y a * s) (z a * s).

(** [Box3.isEmpty], [getSize] and [getCenter] as three.js has them: a
    box whose [max] lies below its [min] on some axis is empty, and an
    empty box has size and centre 0. *)
Definition isEmpty (b : Box3) : bool :=
  PrimFloat.ltb (x (max b)) (x (min b))
  || PrimFloat.ltb (y (max b)) (y (min b))
  || PrimFloat.ltb (z (max b)) (z (min b)).

Definition getSize (b : Box3) : Vector3 :=
  if isEmpty b then V3 0 0 0 else subVectors (max b) (min b).

Definition getCenter (b : Box3) : Vector3 :=
  if isEmpty b then V3 0 0 0
  else multiplyScalar (addVectors (min b) (max b)) 0.5.

(** Modelled from the spec: [Box3.intersectsBox] belongs to three.js,
    which is not among the sources.  The specification describes it as
    the axis-aligned box intersection, "overlap on all three axes
    simultaneously -- no separating-axis gap on any axis": the boxes
    miss each other exactly when, on some axis, one box ends before the
    other begins. *)
Definition intersectsBox (this box : Box3) : bool :=
  if PrimFloat.ltb (x (max box)) (x (min this)) || gtb (x (min box)) (x (max this))
     || PrimFloat.ltb (y (max box)) (y (min this)) || gtb (y (min box)) (y (max this))
     || PrimFloat.ltb (z (max box)) (z (min this)) || gtb (z (min box)) (z (max this))
  then false else true.

(** The box around a centre, with the extents of [size] scaled by
    [scale]: the expression both [updateCollider] methods build,
    [center.x - size.x * scale.x / 2] and so on. *)
Definition scaledBox (center size scale : Vector3) : Box3 :=
  B3 (V3 (x center - x size * x scale / 2)
         (y center - y size * y scale / 2)
         (z center - z size * z scale / 2))
     (V3 (x center + x size * x scale / 2)
         (y center + y size * y scale / 2)
         (z center + z size * z scale / 2)).

End THREE.

(** ** Player *)

Module Player.

(** The pose of the player's mesh group: its position, its tilt
    [rotation.z], and the [rotation.x] of the four limbs that
    [animateRunning] swings. *)
Record Mesh := mkMesh {
  position : THREE.Vector3;
  rotation_z : number;
  leftLeg_rotation_x : number;
  rightLeg_rotation_x : number;
  leftArm_rotation_x : number;
  rightArm_rotation_x : number
}.

(** The fields of a [Player] that change after construction.  [mesh]
    and [collider] are [null] before [createPlayer] has run, and
    [jumpVelocity] is [undefined] until the first jump. *)
Record t := mk {
  mesh : option Mesh;
  collider : option THREE.Box3;
  isJumping : bool;
  isFalling : bool;
  jumpVelocity : option number;
  legRotationDirection : number;
  currentLegRotation : number
}.

(** Fields assigned once by the constructor. *)
Definition runningSpeed : number := 0.2.
Definition jumpForce : number := 0.15.
Definition gravity : number := 0.005.
Definition jumpHeight : number := 2.
Definition lateralSpeed : number := 0.3.
Definition maxLateralPosition : number := 3.
Definition home : THREE.Vector3 := THREE.V3 0 0 5.
Definition legRotationSpeed : number := 0.1.
Definition maxLegRotation : number := (Math_PI / 4)%float.

Definition with_mesh (p : t) (m : Mesh) : t :=
  mk (Some m) (collider p) (isJumping p) (isFalling p) (jumpVelocity p)
     (legRotationDirection p) (currentLegRotation p).

Definition with_collider (p : t) (c : THREE.Box3) : t :=
  mk (mesh p) (Some c) (isJumping p) (isFalling p) (jumpVelocity p)
     (legRotationDirection p) (currentLegRotation p).

Definition with_flags (p : t) (jumping falling : bool) : t :=
  mk (mesh p) (collider p) jumping falling (jumpVelocity p)
     (legRotationDirection p) (currentLegRotation p).

Definition with_jumpVelocity (p : t) (v : number) : t :=
  mk (mesh p) (collider p) (isJumping p) (isFalling p) (Some v)
     (legRotationDirection p) (currentLegRotation p).

Definition with_legs (p : t) (direction current : number) : t :=
  mk (mesh p) (collider p) (isJumping p) (isFalling p) (jumpVelocity p)
     direction current.

Definition set_position (m : Mesh) (v : THREE.Vector3) : Mesh :=
  mkMesh v (rotation_z m) (leftLeg_rotation_x m) (rightLeg_rotation_x m)
         (leftArm_rotation_x m) (rightArm_rotation_x m).

Definition set_position_x (m : Mesh) (v : number) : Mesh :=
  set_position m (THREE.V3 v (THREE.y (position m)) (THREE.z (position m))).

Definition set_position_y (m : Mesh) (v : number) : Mesh :=
  set_position m (THREE.V3 (THREE.x (position m)) v (THREE.z (position m))).

Definition set_rotation_z (m : Mesh) (r : number) : Mesh :=
  mkMesh (position m) r (leftLeg_rotation_x m) (rightLeg_rotation_x m)
         (leftArm_rotation_x m) (rightArm_rotation_x m).

Definition set_limbs (m : Mesh) (ll rl la ra : number) : Mesh :=
  mkMesh (position m) (rotation_z m) ll rl la ra.

(** The value of [this.jumpVelocity] in arithmetic: [undefined]
    converts to NaN. *)
Definition toNumber (v : option number) : number :=
  match v with Some n => n | None => nan end.

Section WithBounds.

(** [new THREE.Box3().setFromObject(this.mesh)]: the world-space box
    around the player's mesh group, computed by three.js from the
    pose. *)
Variable setFromObject : Mesh -> THREE.Box3.

(** The collider of a pose: the mesh box shrunk to 0.8 of its size. *)
Definition colliderOf (m : Mesh) : THREE.Box3 :=
  let box := setFromObject m in
  THREE.scaledBox (THREE.getCenter box) (THREE.getSize box)
                  (THREE.V3 0.8 0.8 0.8).

(** A method that dereferences [this.mesh] throws on [null]; a
    throw is [None]. *)
Definition updateCollider (p : t) : option t :=
  m ← mesh p; Some (with_collider p (colliderOf m)).

Definition jump (p : t) : t :=
  if negb (isJumping p) && negb (isFalling p)
  then with_jumpVelocity (with_flags p true (isFalling p)) jumpForce
  else p.

Definition returnToCenter (p : t) : option t :=
  m ← mesh p;
  Some (with_mesh p
    (if gtb (rotation_z m) 0.01 then set_rotation_z m (rotation_z m - 0.01)
     else if PrimFloat.ltb (rotation_z m) (-0.01)
          then set_rotation_z m (rotation_z m + 0.01)
          else set_rotation_z m 0)).

Definition animateRunning (p : t) : option t :=
  let current := (currentLegRotation p + legRotationSpeed * legRotationDirection p)%float in
  let direction :=
    if geb (Math_abs current) maxLegRotation
    then (legRotationDirection p * -1)%float
    else legRotationDirection p in
  m ← mesh p;
  Some (with_mesh (with_legs p direction current)
          (set_limbs m current (- current) (- current * 0.5) (current * 0.5))).

(** The jumping and falling branch of [update]. *)
Definition airborne (p : t) : option t :=
  let v := (toNumber (jumpVelocity p) - gravity)%float in
  let p1 := with_jumpVelocity p v in
  m ← mesh p1;
  let m1 := set_position_y m (THREE.y (position m) + v) in
  let p2 := with_mesh p1 m1 in
  let p3 := if isJumping p2 && PrimFloat.leb v 0
            then with_flags p2 false true else p2 in
  Some (if isFalling p3 && PrimFloat.leb (THREE.y (position m1)) (THREE.y home)
        then with_flags (with_mesh p3 (set_position_y m1 (THREE.y home)))
                        (isJumping p3) false
        else p3).

Definition update (p : t) : option t :=
  p1 ← (if isJumping p || isFalling p then airborne p else animateRunning p);
  p2 ← returnToCenter p1;
  updateCollider p2.

Definition moveLeft (p : t) : option t :=
  m ← mesh p;
  if gtb (THREE.x (position m)) (- maxLateralPosition)
  then
    let m1 := set_position_x m (THREE.x (position m) - lateralSpeed) in
    let m2 := set_rotation_z m1 (Math_min (rotation_z m1 + 0.05) 0.2) in
    updateCollider (with_mesh p m2)
  else Some p.

Definition moveRight (p : t) : option t :=
  m ← mesh p;
  if PrimFloat.ltb (THREE.x (position m)) maxLateralPosition
  then
    let m1 := set_position_x m (THREE.x (position m) + lateralSpeed) in
    let m2 := set_rotation_z m1 (Math_max (rotation_z m1 - 0.05) (-0.2)) in
    updateCollider (with_mesh p m2)
  else Some p.

Definition reset (p : t) : option t :=
  let p1 := with_flags p false false in
  m ← mesh p1;
  updateCollider (with_mesh p1 (set_rotation_z (set_position m home) 0)).

(** [createPlayer]: the mesh group is placed at [home], every
    rotation is zero, and the collider is computed. *)
Definition createPlayer (p : t) : option t :=
  updateCollider (with_mesh p (mkMesh home 0 0 0 0 0)).

(** The constructor's assignments, before [createPlayer]. *)
Definition blank : t := mk None None false false None 1 0.

(** [new Player(scene, textures)]. *)
Definition new : t :=
  with_collider (with_mesh blank (mkMesh home 0 0 0 0 0))
                (colliderOf (mkMesh home 0 0 0 0 0)).

End WithBounds.

End Player.


(** ** Obstacles *)

Module ObstacleManager.

Inductive ObstacleType := rock | log | tree | puddle | barrier.

Definition obstacleTypes : list ObstacleType := [rock; log; tree; puddle; barrier].

(** An obstacle's mesh: the geometry it was built with, where it
    stands, and whether it is shown. *)
Record Mesh := mkMesh {
  shape : ObstacleType;
  position : THREE.Vector3;
  visible : bool
}.

(** An obstacle record.  [id] is the identity of the JavaScript object:
    the number of records created before it.  [type] is [undefined]
    ([None]) when the type was read past the end of [obstacleTypes]. *)
Record Obstacle := mkObstacle {
  id : nat;
  type : option ObstacleType;
  mesh : Mesh;
  collider : option THREE.Box3;
  active : bool;
  colliderScale : THREE.Vector3
}.

(** The manager.  [created] counts the records built by
    [createObstacle] so far and [draws] the calls of [Math.random]. *)
Record t := mk {
  activeObstacles : list Obstacle;
  obstaclePool : list Obstacle;
  nextSpawnTime : number;
  timeSinceLastSpawn : number;
  speed : number;
  created : nat;
  draws : nat
}.

(** Fields assigned once by the constructor. *)
Definition spawnDistance : number := 80.
Definition minSpawnInterval : number := 1.5.
Definition maxSpawnInterval : number := 3.
Definition initialSpeed : number := 0.2.
Definition speedIncreaseRate : number := 0.00001.

Definition with_lists (om : t) (act pool : list Obstacle) : t :=
  mk act pool (nextSpawnTime om) (timeSinceLastSpawn om) (speed om)
     (created om) (draws om).

Definition with_nextSpawnTime (om : t) (v : number) : t :=
  mk (activeObstacles om) (obstaclePool om) v (timeSinceLastSpawn om)
     (speed om) (created om) (draws om).

Definition with_timeSinceLastSpawn (om : t) (v : number) : t :=
  mk (activeObstacles om) (obstaclePool om) (nextSpawnTime om) v
     (speed om) (created om) (draws om).

Definition with_speed (om : t) (v : number) : t :=
  mk (activeObstacles om) (obstaclePool om) (nextSpawnTime om)
     (timeSinceLastSpawn om) v (created om) (draws om).

Definition set_mesh (o : Obstacle) (m : Mesh) : Obstacle :=
  mkObstacle (id o) (type o) m (collider o) (active o) (colliderScale o).

Definition set_collider (o : Obstacle) (c : THREE.Box3) : Obstacle :=
  mkObstacle (id o) (type o) (mesh o) (Some c) (active o) (colliderScale o).

Definition set_active (o : Obstacle) (a : bool) : Obstacle :=
  mkObstacle (id o) (type o) (mesh o) (collider o) a (colliderScale o).

Definition set_visible (m : Mesh) (v : bool) : Mesh :=
  mkMesh (shape m) (position m) v.

Definition set_position_x (m : Mesh) (v : number) : Mesh :=
  mkMesh (shape m) (THREE.V3 v (THREE.y (position m)) (THREE.z (position m)))
         (visible m).

Definition set_position_z (m : Mesh) (v : number) : Mesh :=
  mkMesh (shape m) (THREE.V3 (THREE.x (position m)) (THREE.y (position m)) v)
         (visible m).

(** The five mesh builders: only the rock and the puddle are lifted
    off the ground as a whole; the groups stand at the origin. *)
Definition createRock : Mesh := mkMesh rock (THREE.V3 0 0.5 0) true.
Definition createLog : Mesh := mkMesh log (THREE.V3 0 0 0) true.
Definition createTree : Mesh := mkMesh tree (THREE.V3 0 0 0) true.
Definition createPuddle : Mesh := mkMesh puddle (THREE.V3 0 0.05 0) true.
Definition createBarrier : Mesh := mkMesh barrier (THREE.V3 0 0 0) true.

(** [Array.prototype.pop]: the last element and the rest. *)
Definition pop {A} (l : list A) : option (A * list A) :=
  o ← last l; Some (o, removelast l).

(** The obstacle is hidden and marked inactive, as both [update] and
    [reset] do before returning it to the pool. *)
Definition retire (o : Obstacle) : Obstacle :=
  set_active (set_mesh o (set_visible (mesh o) false)) false.

Section WithEnvironment.

(** The values [Math.random()] returns, in the order of the calls. *)
Variable random : nat -> number.

(** [new THREE.Box3().setFromObject(obstacle.mesh)]. *)
Variable setFromObject : Mesh -> THREE.Box3.

Definition Math_random (om : t) : number * t :=
  (random (draws om),
   mk (activeObstacles om) (obstaclePool om) (nextSpawnTime om)
      (timeSinceLastSpawn om) (speed om) (created om) (S (draws om))).

Definition getRandomObstacleType (om : t) : option ObstacleType * t :=
  let '(r, om1) := Math_random om in
  let index := Math_floor (r * 5) in
  (i ← array_index index; obstacleTypes !! i, om1).

Definition getRandomSpawnInterval (om : t) : number * t :=
  let '(r, om1) := Math_random om in
  ((r * (maxSpawnInterval - minSpawnInterval) + minSpawnInterval)%float, om1).

Definition createObstacle (ty : option ObstacleType) (om : t) : Obstacle * t :=
  let built :=
    match ty with
    | Some rock => (createRock, THREE.V3 0.9 0.9 0.9)
    | Some log => (createLog, THREE.V3 0.9 0.9 1.2)
    | Some tree => (createTree, THREE.V3 0.7 0.9 0.7)
    | Some puddle => (createPuddle, THREE.V3 1.2 0.5 1.2)
    | Some barrier => (createBarrier, THREE.V3 1.1 0.9 0.8)
    | None => (createRock, THREE.V3 1 1 1)
    end in
  (mkObstacle (created om) ty (set_visible (fst built) false) None false (snd built),
   mk (activeObstacles om) (obstaclePool om) (nextSpawnTime om)
      (timeSinceLastSpawn om) (speed om) (S (created om)) (draws om)).

Fixpoint preloadObstacles (count : nat) (om : t) : t :=
  match count with
  | 0 => om
  | S n =>
      let '(ty, om1) := getRandomObstacleType om in
      let '(obstacle, om2) := createObstacle ty om1 in
      preloadObstacles n
        (with_lists om2 (activeObstacles om2) (obstaclePool om2 ++ [obstacle]))
  end.

Definition updateObstacleCollider (o : Obstacle) : Obstacle :=
  let box := setFromObject (mesh o) in
  set_collider o
    (THREE.scaledBox (THREE.getCenter box) (THREE.getSize box) (colliderScale o)).

Definition spawnObstacle (om : t) : t :=
  let '(obstacle, om1) :=
    match pop (obstaclePool om) with
    | Some (o, rest) => (o, with_lists om (activeObstacles om) rest)
    | None =>
        let '(ty, om') := getRandomObstacleType om in
        createObstacle ty om'
    end in
  let o1 := set_mesh obstacle (set_position_z (mesh obstacle) (- spawnDistance)) in
  let '(r, om2) := Math_random om1 in
  let lane := (Math_floor (r * 3) - 1)%float in
  let o2 := set_mesh o1 (set_position_x (mesh o1) (lane * 2)) in
  let o3 := set_active (set_mesh o2 (set_visible (mesh o2) true)) true in
  let o4 := updateObstacleCollider o3 in
  with_lists om2 (activeObstacles om2 ++ [o4]) (obstaclePool om2).

(** The loop over the active obstacles, from the last index down to 0.
    [k] is the loop variable plus one.  An index past the end would
    read [undefined] and throw. *)
Fixpoint update_loop (k : nat) (om : t) : option t :=
  match k with
  | 0 => Some om
  | S i =>
      obstacle ← activeObstacles om !! i;
      let o1 := set_mesh obstacle
                  (set_position_z (mesh obstacle)
                     (THREE.z (position (mesh obstacle)) + speed om)) in
      let o2 := updateObstacleCollider o1 in
      update_loop i
        (if gtb (THREE.z (position (mesh o2))) 10
         then with_lists om (delete i (activeObstacles om))
                            (obstaclePool om ++ [retire o2])
         else with_lists om (<[i := o2]> (activeObstacles om)) (obstaclePool om))
  end.

Definition update (deltaTime score : number) (om : t) : option t :=
  let om1 := with_speed om (initialSpeed + score * speedIncreaseRate) in
  let om2 := with_timeSinceLastSpawn om1 (timeSinceLastSpawn om1 + deltaTime) in
  let om3 :=
    if geb (timeSinceLastSpawn om2) (nextSpawnTime om2)
    then
      let om' := with_timeSinceLastSpawn (spawnObstacle om2) 0 in
      let '(r, om'') := getRandomSpawnInterval om' in
      with_nextSpawnTime om'' r
    else om2 in
  update_loop (length (activeObstacles om3)) om3.

Definition reset (om : t) : t :=
  let om1 := with_lists om [] (obstaclePool om ++ (retire <$> activeObstacles om)) in
  let om2 := with_timeSinceLastSpawn (with_speed om1 initialSpeed) 0 in
  let '(r, om3) := getRandomSpawnInterval om2 in
  with_nextSpawnTime om3 r.

(** [new ObstacleManager(scene, textures)]. *)
Definition new : t :=
  let '(r, om) := getRandomSpawnInterval (mk [] [] 0 0 0 0 0) in
  let om1 := with_timeSinceLastSpawn (with_nextSpawnTime om r) 0 in
  let om2 := with_speed om1 0.2 in
  preloadObstacles 10 om2.

End WithEnvironment.

End ObstacleManager.

(** ** Collision detection *)

Module CollisionDetector.

(** The detector holds references to the game's player and obstacle
    manager; a call may change what they refer to, so both are part of
    the state it runs on. *)
Record t := mk {
  player : Player.t;
  obstacles : ObstacleManager.t
}.

Definition collisionThreshold : number := 0.8.

Section WithBounds.

Variable setFromObject : Player.Mesh -> THREE.Box3.

(** Reading [this.player.collider.clone()] throws when the player has
    no collider. *)
Definition checkObstacleCollision (d : t) (obstacle : ObstacleManager.Obstacle)
  : option bool :=
  match ObstacleManager.collider obstacle with
  | None => Some false
  | Some obstacleBox =>
      playerBox ← Player.collider (player d);
      Some (THREE.intersectsBox playerBox obstacleBox)
  end.

(** The [for ... of] loop with its early [return true]. *)
Fixpoint scan (d : t) (l : list ObstacleManager.Obstacle) : option bool :=
  match l with
  | [] => Some false
  | obstacle :: rest =>
      hit ← checkObstacleCollision d obstacle;
      if hit : bool then Some true else scan d rest
  end.

Definition checkCollisions (d : t) : option (bool * t) :=
  match Player.mesh (player d), Player.collider (player d) with
  | Some _, Some _ =>
      p ← Player.updateCollider setFromObject (player d);
      let d1 := mk p (obstacles d) in
      hit ← scan d1 (ObstacleManager.activeObstacles (obstacles d1));
      Some (hit, d1)
  | _, _ => Some (false, d)
  end.

End WithBounds.

End CollisionDetector.


(** ** Vocabulary of the properties *)

(** The three phases of the player's vertical motion, read off the two
    flags. *)
Inductive Phase := Grounded | Ascending | Descending.

Definition phase (p : Player.t) : Phase :=
  if Player.isJumping p then Ascending
  else if Player.isFalling p then Descending
  else Grounded.

(** The player's height above its resting position. *)
Definition verticalOffset (m : Player.Mesh) : number :=
  (THREE.y (Player.position m) - THREE.y Player.home)%float.

Definition lateralOffset (m : Player.Mesh) : number :=
  THREE.x (Player.position m).

(** The stored collider is the one the current pose gives. *)
Definition fresh (setFromObject : Player.Mesh -> THREE.Box3) (p : Player.t) : Prop :=
  Player.collider p = Player.colliderOf setFromObject <$> Player.mesh p.

(** Two boxes overlap on an axis when neither ends before the other
    begins; they overlap when they do so on all three axes. *)
Definition axis_overlap (lo1 hi1 lo2 hi2 : number) : Prop :=
  PrimFloat.ltb hi2 lo1 = false /\ gtb lo2 hi1 = false.

Definition boxes_overlap (a b : THREE.Box3) : Prop :=
  axis_overlap (THREE.x (THREE.min a)) (THREE.x (THREE.max a))
               (THREE.x (THREE.min b)) (THREE.x (THREE.max b))
  /\ axis_overlap (THREE.y (THREE.min a)) (THREE.y (THREE.max a))
                  (THREE.y (THREE.min b)) (THREE.y (THREE.max b))
  /\ axis_overlap (THREE.z (THREE.min a)) (THREE.z (THREE.max a))
                  (THREE.z (THREE.min b)) (THREE.z (THREE.max b)).

(** *** Sample environments

    The box three.js computes for the player standing upright with its
    limbs at rest: 1.8 wide, 2.8 tall and 0.8 deep around the mesh
    position. *)
Definition upright_bounds (m : Player.Mesh) : THREE.Box3 :=
  let c := Player.position m in
  THREE.B3 (THREE.V3 (THREE.x c - 0.9) (THREE.y c) (THREE.z c - 0.4))
           (THREE.V3 (THREE.x c + 0.9) (THREE.y c + 2.8) (THREE.z c + 0.4)).

(** A sequence of random values that alternates between 0.25 and 0.75. *)
Definition sample_random (n : nat) : number :=
  if Nat.even n then 0.25%float else 0.75%float.

(** A detector whose player carries a collider that no longer matches
    its pose. *)
Definition stale_detector : CollisionDetector.t :=
  CollisionDetector.mk
    (Player.with_collider (Player.new upright_bounds)
       (THREE.B3 (THREE.V3 0 0 0) (THREE.V3 1 1 1)))
    (ObstacleManager.new sample_random).

(** *** Calls on the obstacle manager *)

Inductive ManagerCall :=
  | call_update (deltaTime score : number)
  | call_reset.

Definition run_call (random : nat -> number)
    (setFromObject : ObstacleManager.Mesh -> THREE.Box3)
    (c : ManagerCall) (om : ObstacleManager.t) : option ObstacleManager.t :=
  match c with
  | call_update deltaTime score =>
      ObstacleManager.update random setFromObject deltaTime score om
  | call_reset => Some (ObstacleManager.reset random om)
  end.

Fixpoint run_calls (random : nat -> number)
    (setFromObject : ObstacleManager.Mesh -> THREE.Box3)
    (cs : list ManagerCall) (om : ObstacleManager.t) : option ObstacleManager.t :=
  match cs with
  | [] => Some om
  | c :: rest =>
      om' ← run_call random setFromObject c om;
      run_calls random setFromObject rest om'
  end.

(** The identities of the records held in a list. *)
Definition ids (l : list ObstacleManager.Obstacle) : list nat :=
  ObstacleManager.id <$> l.

(** Pool and active list together hold every record created so far,
    each once. *)
Definition conserved (om : ObstacleManager.t) : Prop :=
  ids (ObstacleManager.obstaclePool om ++ ObstacleManager.activeObstacles om)
  ≡ₚ seq 0 (ObstacleManager.created om).

(** The spawn interval that a random value gives. *)
Definition spawnInterval (r : number) : number :=
  (r * (ObstacleManager.maxSpawnInterval - ObstacleManager.minSpawnInterval)
   + ObstacleManager.minSpawnInterval)%float.

(** The speed [update] assigns for a score. *)
Definition speedAt (score : number) : number :=
  (ObstacleManager.initialSpeed + score * ObstacleManager.speedIncreaseRate)%float.

(** *** Repeated calls on the player *)

(** [n] calls of a method in a row; a throw ends the run. *)
Fixpoint repeat_call (f : Player.t -> option Player.t) (n : nat) (p : Player.t)
  : option Player.t :=
  match n with
  | 0 => Some p
  | S k => q ← f p; repeat_call f k q
  end.

(** [Math.ceil], by the identity [ceil x = - floor (- x)]. *)
Definition Math_ceil (v : number) : number := (- Math_floor (- v))%float.

(** The part of the player state that the jump arc depends on: the two
    flags, the vertical velocity and the height of the mesh. *)
Record Vertical := mkVertical {
  v_jumping : bool;
  v_falling : bool;
  v_velocity : option number;
  v_y : number
}.

Definition vertical (p : Player.t) (m : Player.Mesh) : Vertical :=
  mkVertical (Player.isJumping p) (Player.isFalling p) (Player.jumpVelocity p)
             (THREE.y (Player.position m)).

(** What one [update] does to the vertical state. *)
Definition vertical_step (s : Vertical) : Vertical :=
  if v_jumping s || v_falling s then
    let v := (Player.toNumber (v_velocity s) - Player.gravity)%float in
    let y := (v_y s + v)%float in
    let '(j, f) := if v_jumping s && PrimFloat.leb v 0 then (false, true)
                   else (v_jumping s, v_falling s) in
    if f && PrimFloat.leb y (THREE.y Player.home)
    then mkVertical j false (Some v) (THREE.y Player.home)
    else mkVertical j f (Some v) y
  else s.

Definition vertical_phase (s : Vertical) : Phase :=
  if v_jumping s then Ascending else if v_falling s then Descending else Grounded.

Definition Phase_eqb (a b : Phase) : bool :=
  match a, b with
  | Grounded, Grounded | Ascending, Ascending | Descending, Descending => true
  | _, _ => false
  end.

(** The phase the jump arc is in after [n] updates. *)
Definition arc_phase (n : nat) : Phase :=
  if n <? 30 then Ascending else if n <? 59 then Descending else Grounded.

(** The vertical state right after [jump()] from rest. *)
Definition lift_off : Vertical := mkVertical true false (Some Player.jumpForce) 0.

Definition arc_check (n : nat) : bool :=
  let s := Nat.iter n vertical_step lift_off in
  Phase_eqb (vertical_phase s) (arc_phase n)
  && PrimFloat.leb 0 (v_y s - THREE.y Player.home).

(** ** The order of binary64 numbers *)

(** A bound above every finite number counted in units of 2^-1074. *)
Definition order_top : Z := (2 ^ 2200)%Z.

(** The position of a number on the line of multiples of 2^-1074, with
    the infinities placed beyond every finite number.  Both zeros stand
    at 0. *)
Definition ord (f : spec_float) : Z :=
  match f with
  | S754_zero _ => 0%Z
  | S754_nan => 0%Z
  | S754_infinity s => if s then (- order_top)%Z else order_top
  | S754_finite s m e =>
      if s then (- (Z.pos m * 2 ^ (e + 1074)))%Z else (Z.pos m * 2 ^ (e + 1074))%Z
  end.

Definition is_nan_SF (f : spec_float) : bool :=
  match f with S754_nan => true | _ => false end.

(** Neither NaN nor infinite. *)
Definition finite_SF (f : spec_float) : bool :=
  match f with S754_zero _ | S754_finite _ _ _ => true | _ => false end.

(** [N / 2^k] rounded to the nearest integer, ties to even. *)
Definition rne (N k : Z) : Z :=
  let q := (N / 2 ^ k)%Z in
  let r := (N mod 2 ^ k)%Z in
  if (2 * r <? 2 ^ k)%Z then q
  else if (2 * r =? 2 ^ k)%Z then (if Z.even q then q else q + 1)%Z
  else (q + 1)%Z.

(** The exponent the format gives to a number whose leading bit has
    weight [2^(d-1)]. *)
Definition fexp64 (d : Z) : Z := Z.max (d - 53) (-1074).

(** The result of rounding, given the rounded mantissa [q] at
    exponent [E]. *)
Definition pack (s : bool) (q E : Z) : spec_float :=
  if (q =? 0)%Z then S754_zero s
  else if (q <? 2 ^ 53)%Z
       then (if (E <=? 971)%Z then S754_finite s (Z.to_pos q) E else S754_infinity s)
       else (if (E + 1 <=? 971)%Z then S754_finite s (Z.to_pos (2 ^ 52)) (E + 1)
             else S754_infinity s).

(** Positions at or beyond [2^2098] (the value [2^1024]) overflow. *)
Definition clamp (R : Z) : Z := if (R <? 2 ^ 2098)%Z then R else order_top.

(** Rounding on a grid of step [2^B]: a positive multiple [N] of the
    step is cut after 53 bits, or at the bit of weight [2^-1074], which
    stands [c = -1074 - B] places above the step.  [round_grid] is the
    rounded value in units of 2^-1074. *)
Definition cut (c N : Z) : Z := Z.max (Z.log2 N + 1 - 53) c.

Definition round_grid (c N : Z) : Z :=
  (rne N (cut c N) * 2 ^ (cut c N - c))%Z.

(** The same for a signed multiple. *)
Definition round_signed (c S : Z) : Z :=
  (Z.sgn S * clamp (round_grid c (Z.abs S)))%Z.

(** The position of a number, and whether it is finite. *)
Definition pos (v : number) : Z := ord (Prim2SF v).

Definition fin (v : number) : bool := finite_SF (Prim2SF v).

Definition not_nan (v : number) : bool := negb (is_nan_SF (Prim2SF v)).

(** A positive number with a full 53-bit mantissa. *)
Definition normal_positive (v : number) : bool :=
  match Prim2SF v with
  | S754_finite false m _ => (2 ^ 52 <=? Z.pos m)%Z
  | _ => false
  end.

(** *** Calls on the player, and its tilt *)

Inductive PlayerCall :=
  | call_jump
  | call_player_update
  | call_moveLeft
  | call_moveRight
  | call_player_reset
  | call_updateCollider.

Definition run_player_call (setFromObject : Player.Mesh -> THREE.Box3)
    (c : PlayerCall) (p : Player.t) : option Player.t :=
  match c with
  | call_jump => Some (Player.jump p)
  | call_player_update => Player.update setFromObject p
  | call_moveLeft => Player.moveLeft setFromObject p
  | call_moveRight => Player.moveRight setFromObject p
  | call_player_reset => Player.reset setFromObject p
  | call_updateCollider => Player.updateCollider setFromObject p
  end.

Fixpoint run_player_calls (setFromObject : Player.Mesh -> THREE.Box3)
    (cs : list PlayerCall) (p : Player.t) : option Player.t :=
  match cs with
  | [] => Some p
  | c :: rest =>
      q ← run_player_call setFromObject c p;
      run_player_calls setFromObject rest q
  end.

(** The tilt angle lies in the closed interval from -0.2 to 0.2. *)
Definition tilt_ok (r : number) : Prop :=
  PrimFloat.leb (-0.2) r = true /\ PrimFloat.leb r 0.2 = true.

(** What [returnToCenter] makes of a tilt angle. *)
Definition decay (r : number) : number :=
  if gtb r 0.01 then (r - 0.01)%float
  else if PrimFloat.ltb r (-0.01) then (r + 0.01)%float
  else 0%float.

(** [v] lies between 0 and [r], whichever side of 0 that is. *)
Definition towards_zero (r v : number) : Prop :=
  (PrimFloat.leb 0 r = true ->
   PrimFloat.leb 0 v = true /\ PrimFloat.leb v r = true)
  /\ (PrimFloat.leb r 0 = true ->
      PrimFloat.leb r v = true /\ PrimFloat.leb v 0 = true).

(** *** The poses a player can reach *)

(** What [moveLeft] and [moveRight] make of the lateral position. *)
Definition step_left (x : number) : number :=
  if gtb x (- Player.maxLateralPosition) then (x - Player.lateralSpeed)%float else x.

Definition step_right (x : number) : number :=
  if PrimFloat.ltb x Player.maxLateralPosition then (x + Player.lateralSpeed)%float else x.

(** Membership in a list of numbers, by identity of the values (so
    [-0] and [+0] are told apart). *)
Definition mem (x : number) (l : list number) : bool :=
  existsb (Leibniz.eqb x) l.

(** The lateral positions reached from [todo] by steps to the left and
    to the right, added to [seen]. *)
Fixpoint explore (fuel : nat) (todo seen : list number) : list number :=
  match fuel with
  | 0 => seen
  | S k =>
      match todo with
      | [] => seen
      | x :: rest =>
          if mem x seen then explore k rest seen
          else explore k (step_left x :: step_right x :: rest) (x :: seen)
      end
  end.

(** The lateral positions reached from the centre. *)
Definition lateral_values : list number :=
  Eval vm_compute in explore 400 [THREE.x Player.home] [].

Definition lateral_closed : bool :=
  forallb (fun x => mem (step_left x) lateral_values
                    && mem (step_right x) lateral_values) lateral_values.

(** The largest distance from the centre among them. *)
Definition lateral_reach : number := 3.2999999999999994.

Definition lateral_bounded : bool :=
  forallb (fun x => PrimFloat.leb (- lateral_reach) x
                    && PrimFloat.leb x lateral_reach) lateral_values.

(** The running animation: the swing direction, the swing angle and
    the [rotation.x] of the four limbs. *)
Record Gait := mkGait {
  g_direction : number;
  g_current : number;
  g_leftLeg : number;
  g_rightLeg : number;
  g_leftArm : number;
  g_rightArm : number
}.

Definition gait (p : Player.t) (m : Player.Mesh) : Gait :=
  mkGait (Player.legRotationDirection p) (Player.currentLegRotation p)
         (Player.leftLeg_rotation_x m) (Player.rightLeg_rotation_x m)
         (Player.leftArm_rotation_x m) (Player.rightArm_rotation_x m).

(** What one [animateRunning] does to the gait. *)
Definition gait_step (g : Gait) : Gait :=
  let current := (g_current g + Player.legRotationSpeed * g_direction g)%float in
  let direction :=
    if geb (Math_abs current) Player.maxLegRotation
    then (g_direction g * -1)%float
    else g_direction g in
  mkGait direction current current (- current) (- current * 0.5) (current * 0.5).

(** The gait of a new player. *)
Definition gait_start : Gait := mkGait 1 0 0 0 0 0.

(** The largest swing angle the animation reaches. *)
Definition swing_reach : number := 0.7999999999999999.

Definition Gait_eqb (a b : Gait) : bool :=
  Leibniz.eqb (g_direction a) (g_direction b)
  && Leibniz.eqb (g_current a) (g_current b)
  && Leibniz.eqb (g_leftLeg a) (g_leftLeg b)
  && Leibniz.eqb (g_rightLeg a) (g_rightLeg b)
  && Leibniz.eqb (g_leftArm a) (g_leftArm b)
  && Leibniz.eqb (g_rightArm a) (g_rightArm b).

(** The swing stays within [swing_reach], the direction is 1 or -1,
    the right leg mirrors the left one and the arms swing against the
    legs with half the angle. *)
Definition gait_check (g : Gait) : bool :=
  PrimFloat.leb (Math_abs (g_current g)) swing_reach
  && (Leibniz.eqb (g_direction g) 1 || Leibniz.eqb (g_direction g) (-1))
  && Leibniz.eqb (g_leftLeg g) (g_current g)
  && PrimFloat.eqb (g_rightLeg g) (- g_leftLeg g)
  && PrimFloat.eqb (g_leftArm g) (g_rightLeg g * 0.5)
  && PrimFloat.eqb (g_rightArm g) (g_leftLeg g * 0.5).

(** The highest point of the jump arc. *)
Definition jump_peak : number := 2.174999999999998.

(** In the air the flags exclude each other and one of them is set,
    the velocity is a number between [-jumpForce] and [jumpForce], and
    the height lies between the ground and [jump_peak]. *)
Definition airborne_check (s : Vertical) : bool :=
  xorb (v_jumping s) (v_falling s)
  && match v_velocity s with
     | Some v => PrimFloat.leb (- Player.jumpForce) v && PrimFloat.leb v Player.jumpForce
     | None => false
     end
  && PrimFloat.leb 0 (v_y s - THREE.y Player.home)
  && PrimFloat.leb (v_y s - THREE.y Player.home) jump_peak.

(** The vertical state is at rest on the ground, or on the jump arc. *)
Definition vertical_ok (s : Vertical) : Prop :=
  (v_jumping s = false /\ v_falling s = false /\ v_y s = THREE.y Player.home)
  \/ exists n, n < 59 /\ s = Nat.iter n vertical_step lift_off.

(** The state of a player that the constructor and the methods
    maintain. *)
Definition reachable_pose (setFromObject : Player.Mesh -> THREE.Box3)
    (p : Player.t) (m : Player.Mesh) : Prop :=
  Player.mesh p = Some m
  /\ fresh setFromObject p
  /\ In (lateralOffset m) lateral_values
  /\ THREE.z (Player.position m) = THREE.z Player.home
  /\ vertical_ok (vertical p m)
  /\ exists n, gait p m = Nat.iter n gait_step gait_start.

(** The number of [update] calls in a sequence, and whether a
    sequence is free of [reset] calls. *)
Definition is_update (c : PlayerCall) : bool :=
  match c with call_player_update => true | _ => false end.

Definition updates (cs : list PlayerCall) : nat := length (List.filter is_update cs).

Definition is_reset (c : PlayerCall) : bool :=
  match c with call_player_reset => true | _ => false end.

(** *** What the manager does to one obstacle *)

(** The step of the loop in [update]: the obstacle moves towards the
    player by [speed] and its collider is recomputed. *)
Definition advance (setFromObject : ObstacleManager.Mesh -> THREE.Box3)
    (speed : number) (o : ObstacleManager.Obstacle) : ObstacleManager.Obstacle :=
  ObstacleManager.updateObstacleCollider setFromObject
    (ObstacleManager.set_mesh o
       (ObstacleManager.set_position_z (ObstacleManager.mesh o)
          (THREE.z (ObstacleManager.position (ObstacleManager.mesh o)) + speed))).

(** The test that sends an obstacle back to the pool. *)
Definition passed (o : ObstacleManager.Obstacle) : bool :=
  gtb (THREE.z (ObstacleManager.position (ObstacleManager.mesh o))) 10.

Definition kept (o : ObstacleManager.Obstacle) : bool := negb (passed o).

(** What [spawnObstacle] does to the record it takes, [r] being the
    random value that chooses the lane. *)
Definition place (setFromObject : ObstacleManager.Mesh -> THREE.Box3)
    (r : number) (o : ObstacleManager.Obstacle) : ObstacleManager.Obstacle :=
  let o1 := ObstacleManager.set_mesh o
              (ObstacleManager.set_position_z (ObstacleManager.mesh o)
                 (- ObstacleManager.spawnDistance)) in
  let lane := (Math_floor (r * 3) - 1)%float in
  let o2 := ObstacleManager.set_mesh o1
              (ObstacleManager.set_position_x (ObstacleManager.mesh o1) (lane * 2)) in
  let o3 := ObstacleManager.set_active
              (ObstacleManager.set_mesh o2
                 (ObstacleManager.set_visible (ObstacleManager.mesh o2) true)) true in
  ObstacleManager.updateObstacleCollider setFromObject o3.

(** The collider that an obstacle's mesh and scale give. *)
Definition obstacleColliderOf (setFromObject : ObstacleManager.Mesh -> THREE.Box3)
    (o : ObstacleManager.Obstacle) : THREE.Box3 :=
  let box := setFromObject (ObstacleManager.mesh o) in
  THREE.scaledBox (THREE.getCenter box) (THREE.getSize box)
                  (ObstacleManager.colliderScale o).

(** An obstacle on the track: flagged active, shown, carrying the
    collider of its mesh, and not beyond the point where [update]
    retires it. *)
Definition on_track (setFromObject : ObstacleManager.Mesh -> THREE.Box3)
    (o : ObstacleManager.Obstacle) : Prop :=
  ObstacleManager.active o = true
  /\ ObstacleManager.visible (ObstacleManager.mesh o) = true
  /\ ObstacleManager.collider o = Some (obstacleColliderOf setFromObject o)
  /\ passed o = false.

(** An obstacle at rest in the pool: flagged inactive and hidden. *)
Definition at_rest (o : ObstacleManager.Obstacle) : Prop :=
  ObstacleManager.active o = false
  /\ ObstacleManager.visible (ObstacleManager.mesh o) = false.

(** The collider scale that [createObstacle] gives each type. *)
Definition scaleOf (ty : ObstacleManager.ObstacleType) : THREE.Vector3 :=
  match ty with
  | ObstacleManager.rock => THREE.V3 0.9 0.9 0.9
  | ObstacleManager.log => THREE.V3 0.9 0.9 1.2
  | ObstacleManager.tree => THREE.V3 0.7 0.9 0.7
  | ObstacleManager.puddle => THREE.V3 1.2 0.5 1.2
  | ObstacleManager.barrier => THREE.V3 1.1 0.9 0.8
  end.

(** The record has one of the five types, and the mesh and the
    collider scale of that type. *)
Definition well_typed (o : ObstacleManager.Obstacle) : Prop :=
  exists ty, ObstacleManager.type o = Some ty
             /\ ObstacleManager.shape (ObstacleManager.mesh o) = ty
             /\ ObstacleManager.colliderScale o = scaleOf ty.

(** The mesh stands in one of the three lanes. *)
Definition in_lane (o : ObstacleManager.Obstacle) : Prop :=
  let x := THREE.x (ObstacleManager.position (ObstacleManager.mesh o)) in
  x = (-2)%float \/ x = 0%float \/ x = 2%float.

(** [Math.random()] returns a number from 0 up to, but not including, 1. *)
Definition unit_interval (random : nat -> number) : Prop :=
  forall n, PrimFloat.leb 0 (random n) = true /\ PrimFloat.ltb (random n) 1 = true.

(** The state in which [update] enters its loop. *)
Definition before_loop (random : nat -> number)
    (setFromObject : ObstacleManager.Mesh -> THREE.Box3)
    (deltaTime score : number) (om : ObstacleManager.t) : ObstacleManager.t :=
  let om1 := ObstacleManager.with_speed om
               (ObstacleManager.initialSpeed + score * ObstacleManager.speedIncreaseRate) in
  let om2 := ObstacleManager.with_timeSinceLastSpawn om1
               (ObstacleManager.timeSinceLastSpawn om1 + deltaTime) in
  if geb (ObstacleManager.timeSinceLastSpawn om2) (ObstacleManager.nextSpawnTime om2)
  then
    let om' := ObstacleManager.with_timeSinceLastSpawn
                 (ObstacleManager.spawnObstacle random setFromObject om2) 0 in
    ObstacleManager.with_nextSpawnTime
      (snd (ObstacleManager.getRandomSpawnInterval random om'))
      (fst (ObstacleManager.getRandomSpawnInterval random om'))
  else om2.


(** A sample environment: the box three.js would compute for an
    obstacle that is a unit cube around its mesh position. *)
Definition cube_bounds (m : ObstacleManager.Mesh) : THREE.Box3 :=
  let c := ObstacleManager.position m in
  THREE.B3 (THREE.V3 (THREE.x c - 0.5) (THREE.y c - 0.5) (THREE.z c - 0.5))
           (THREE.V3 (THREE.x c + 0.5) (THREE.y c + 0.5) (THREE.z c + 0.5)).

(** The largest number below 1. *)
Definition below_one : number := 0.9999999999999999.

(** A sample obstacle: an active rock at the given place, with the
    collider that [cube_bounds] gives it. *)
Definition sample_obstacle (id : nat) (x z : number) : ObstacleManager.Obstacle :=
  ObstacleManager.updateObstacleCollider cube_bounds
    (ObstacleManager.mkObstacle id (Some ObstacleManager.rock)
       (ObstacleManager.mkMesh ObstacleManager.rock (THREE.V3 x 0.5 z) true)
       None true (THREE.V3 0.9 0.9 0.9)).

(** A manager with the given active obstacles and an empty pool. *)
Definition sample_manager (act : list ObstacleManager.Obstacle) : ObstacleManager.t :=
  ObstacleManager.mk act [] 2 0 0.2 (length act) 0.

(** ** Score *)

From Stdlib Require String.

Module ScoreManager.

Import Stdlib.Strings.String.

(** The two counters, and the text content of the three page elements
    the manager writes to ([current-score], [high-score] and
    [final-score]), which are taken to exist. *)
Record t := mk {
  score : number;
  highScore : number;
  scoreElement : string;
  highScoreElement : string;
  finalScoreElement : string
}.

Definition with_score (sm : t) (v : number) : t :=
  mk v (highScore sm) (scoreElement sm) (highScoreElement sm) (finalScoreElement sm).

Definition with_highScore (sm : t) (v : number) : t :=
  mk (score sm) v (scoreElement sm) (highScoreElement sm) (finalScoreElement sm).

(** The fixed parts of the texts. *)
Definition score_label : string := "Score: ".
Definition high_score_label : string := "High Score: ".

Section WithBrowser.

(** The global [parseInt], and the conversion of a number to a string
    that both [toString()] and a template literal apply. *)
Variable parseInt : string -> number.
Variable toString : number -> string.

(** [storage] is the entry [endlessRunnerHighScore] of [localStorage]:
    [None] when [getItem] returns [null].  The empty string is falsy. *)
Definition loadHighScore (storage : option string) : number :=
  match storage with
  | Some (String _ _ as savedHighScore) => parseInt savedHighScore
  | _ => 0
  end.

Definition saveHighScore (sm : t) : option string :=
  Some (toString (highScore sm)).

Definition updateUI (sm : t) : t :=
  mk (score sm) (highScore sm)
     (score_label ++ toString (Math_floor (score sm)))
     (high_score_label ++ toString (Math_floor (highScore sm)))
     (finalScoreElement sm).

Definition updateFinalScore (sm : t) : t :=
  mk (score sm) (highScore sm) (scoreElement sm) (highScoreElement sm)
     (score_label ++ toString (Math_floor (score sm))).

(** The manager and the storage entry after [addScore(amount)]. *)
Definition addScore (amount : number) (sm : t) (storage : option string)
  : t * option string :=
  let sm1 := with_score sm (score sm + amount) in
  if gtb (score sm1) (highScore sm1)
  then
    let sm2 := with_highScore sm1 (score sm1) in
    (updateUI sm2, saveHighScore sm2)
  else (updateUI sm1, storage).

Definition reset (sm : t) : t := updateUI (with_score sm 0).

(** [new ScoreManager()]; [final] is the text the page shows in
    [final-score] at that time. *)
Definition new (storage : option string) (final : string) : t :=
  updateUI (mk 0 (loadHighScore storage) EmptyString EmptyString final).

End WithBrowser.

End ScoreManager.

(** ** The game *)

(** The [code] of the key events the game reacts to. *)
Module KeyCode.

Import Stdlib.Strings.String.

Definition Space : string := "Space".
Definition Enter : string := "Enter".

End KeyCode.

Module Game.

Inductive State := start | playing | gameOver.

Definition State_eqb (a b : State) : bool :=
  match a, b with
  | start, start | playing, playing | gameOver, gameOver => true
  | _, _ => false
  end.

Section WithBrowser.

(** The scenery ([Environment]) only decorates the scene; its state
    and its [update(speed)] are left abstract. *)
Variable Environment : Type.
Variable environment_update : number -> Environment -> Environment.

Variable parseInt : String.string -> number.
Variable toString : number -> String.string.
Variable random : nat -> number.
Variable playerBounds : Player.Mesh -> THREE.Box3.
Variable obstacleBounds : ObstacleManager.Mesh -> THREE.Box3.

(** The values [performance.now()] returns and the ids
    [requestAnimationFrame] returns, in the order of the calls. *)
Variable now : nat -> number.
Variable requestId : nat -> nat.

(** The game with the part of the page and of the browser it acts on:
    whether the two overlays carry the class [hidden], the camera
    aspect and the renderer size, the storage entry of the high score,
    the ids given to [cancelAnimationFrame], and the numbers of frames
    requested, of clock readings and of scene renderings so far.  The
    collision detector holds the same player and obstacle manager as
    the game, so it has no state of its own. *)
Record t := mk {
  state : State;
  animationFrameId : option nat;
  lastTime : number;
  startScreen_hidden : bool;
  gameOverScreen_hidden : bool;
  scoreManager : ScoreManager.t;
  player : Player.t;
  obstacles : ObstacleManager.t;
  environment : Environment;
  aspect : number;
  rendererSize : number * number;
  localStorage : option String.string;
  cancelled : list nat;
  requested : nat;
  readings : nat;
  rendered : nat
}.

Definition endGame (g : t) : t :=
  mk gameOver (animationFrameId g) (lastTime g)
     (startScreen_hidden g) false
     (ScoreManager.updateFinalScore toString (scoreManager g))
     (player g) (obstacles g) (environment g) (aspect g) (rendererSize g)
     (localStorage g)
     (match animationFrameId g with
      | Some id => cancelled g ++ [id]
      | None => cancelled g
      end)
     (requested g) (readings g) (rendered g).

Definition gameLoop (g : t) : option t :=
  let currentTime := now (readings g) in
  let deltaTime := ((currentTime - lastTime g) / 1000)%float in
  match state g with
  | playing =>
      let '(sm, storage) :=
        ScoreManager.addScore toString deltaTime (scoreManager g) (localStorage g) in
      p ← Player.update playerBounds (player g);
      om ← ObstacleManager.update random obstacleBounds deltaTime
             (ScoreManager.score sm) (obstacles g);
      let env := environment_update (ObstacleManager.speed om) (environment g) in
      '(hit, d) ← CollisionDetector.checkCollisions playerBounds
                    (CollisionDetector.mk p om);
      let g1 := mk playing (animationFrameId g) currentTime
                   (startScreen_hidden g) (gameOverScreen_hidden g)
                   sm (CollisionDetector.player d) (CollisionDetector.obstacles d)
                   env (aspect g) (rendererSize g) storage (cancelled g)
                   (requested g) (S (readings g)) (rendered g) in
      let g2 := if hit : bool then endGame g1 else g1 in
      Some (mk (state g2) (Some (requestId (requested g2))) (lastTime g2)
               (startScreen_hidden g2) (gameOverScreen_hidden g2)
               (scoreManager g2) (player g2) (obstacles g2) (environment g2)
               (aspect g2) (rendererSize g2) (localStorage g2) (cancelled g2)
               (S (requested g2)) (readings g2) (S (rendered g2)))
  | _ =>
      Some (mk (state g) (animationFrameId g) currentTime
               (startScreen_hidden g) (gameOverScreen_hidden g)
               (scoreManager g) (player g) (obstacles g) (environment g)
               (aspect g) (rendererSize g) (localStorage g) (cancelled g)
               (requested g) (S (readings g)) (rendered g))
  end.

Definition startGame (g : t) : option t :=
  match state g with
  | playing => Some g
  | _ =>
      p ← Player.reset playerBounds (player g);
      gameLoop
        (mk playing (animationFrameId g) (now (readings g)) true true
            (ScoreManager.reset toString (scoreManager g))
            p (ObstacleManager.reset random (obstacles g)) (environment g)
            (aspect g) (rendererSize g) (localStorage g) (cancelled g)
            (requested g) (S (readings g)) (rendered g))
  end.

Definition restartGame (g : t) : option t := startGame g.

(** The game after a key has gone down, and whether the handler
    called [preventDefault]. *)
Definition handleKeyDown (code : String.string) (g : t) : option (t * bool) :=
  if String.eqb code KeyCode.Space
  then
    g' ← match state g with
         | playing =>
             Some (mk (state g) (animationFrameId g) (lastTime g)
                      (startScreen_hidden g) (gameOverScreen_hidden g)
                      (scoreManager g) (Player.jump (player g)) (obstacles g)
                      (environment g) (aspect g) (rendererSize g)
                      (localStorage g) (cancelled g) (requested g)
                      (readings g) (rendered g))
         | start => startGame g
         | gameOver => restartGame g
         end;
    Some (g', true)
  else Some (g, false).

(** [innerWidth] and [innerHeight] are what the window reports when
    the handler runs. *)
Definition handleResize (innerWidth innerHeight : number) (g : t) : t :=
  mk (state g) (animationFrameId g) (lastTime g)
     (startScreen_hidden g) (gameOverScreen_hidden g)
     (scoreManager g) (player g) (obstacles g) (environment g)
     (innerWidth / innerHeight)%float (innerWidth, innerHeight)
     (localStorage g) (cancelled g) (requested g) (readings g) (rendered g).

(** [new Game()] on a page whose overlays have the given classes,
    whose [final-score] shows [final], in a window of the given size,
    with the scenery as its constructor leaves it. *)
Definition new (startHidden gameOverHidden : bool) (final : String.string)
    (storage : option String.string) (innerWidth innerHeight : number)
    (scenery : Environment) : t :=
  mk start None 0 startHidden gameOverHidden
     (ScoreManager.new parseInt toString storage final)
     (Player.new playerBounds) (ObstacleManager.new random) scenery
     (innerWidth / innerHeight)%float (innerWidth, innerHeight)
     storage [] 0 0 1.

End WithBrowser.

Arguments mk {Environment}.
Arguments state {Environment}.
Arguments animationFrameId {Environment}.
Arguments lastTime {Environment}.
Arguments startScreen_hidden {Environment}.
Arguments gameOverScreen_hidden {Environment}.
Arguments scoreManager {Environment}.
Arguments player {Environment}.
Arguments obstacles {Environment}.
Arguments environment {Environment}.
Arguments aspect {Environment}.
Arguments rendererSize {Environment}.
Arguments localStorage {Environment}.
Arguments cancelled {Environment}.
Arguments requested {Environment}.
Arguments readings {Environment}.
Arguments rendered {Environment}.
Arguments endGame {Environment}.
Arguments gameLoop {Environment}.
Arguments startGame {Environment}.
Arguments restartGame {Environment}.
Arguments handleKeyDown {Environment}.
Arguments handleResize {Environment}.
Arguments new {Environment}.

End Game.

(** *** What happens to a game *)

(** The events the constructor registers handlers for: clicks on the
    two buttons, a key going down, and a window resize; and the
    browser running a requested animation frame, whose callback is
    [gameLoop]. *)
Inductive GameEvent :=
  | click_start
  | click_restart
  | keydown (code : String.string)
  | animation_frame
  | window_resize (innerWidth innerHeight : number).

(** Calls on a score manager; the state is the manager together with
    the storage entry. *)
Inductive ScoreCall :=
  | score_add (amount : number)
  | score_reset
  | score_final.

Definition run_score_call (toString : number -> String.string) (c : ScoreCall)
    (s : ScoreManager.t * option String.string) : ScoreManager.t * option String.string :=
  match c with
  | score_add amount => ScoreManager.addScore toString amount (fst s) (snd s)
  | score_reset => (ScoreManager.reset toString (fst s), snd s)
  | score_final => (ScoreManager.updateFinalScore toString (fst s), snd s)
  end.

Definition run_score_calls (toString : number -> String.string) (cs : list ScoreCall)
    (s : ScoreManager.t * option String.string) : ScoreManager.t * option String.string :=
  fold_left (fun s c => run_score_call toString c s) cs s.

(** The texts the score elements are to show. *)
Definition score_text (toString : number -> String.string) (v : number)
  : String.string :=
  String.append ScoreManager.score_label (toString (Math_floor v)).

Definition high_score_text (toString : number -> String.string) (v : number)
  : String.string :=
  String.append ScoreManager.high_score_label (toString (Math_floor v)).

Section GameEvents.

Variable Environment : Type.
Variable environment_update : number -> Environment -> Environment.
Variable parseInt : String.string -> number.
Variable toString : number -> String.string.
Variable random : nat -> number.
Variable playerBounds : Player.Mesh -> THREE.Box3.
Variable obstacleBounds : ObstacleManager.Mesh -> THREE.Box3.
Variable now : nat -> number.
Variable requestId : nat -> nat.

(** The handler the page runs on an event. *)
Definition run_event (e : GameEvent) (g : Game.t Environment)
  : option (Game.t Environment) :=
  match e with
  | click_start =>
      Game.startGame environment_update toString random playerBounds obstacleBounds
        now requestId g
  | click_restart =>
      Game.restartGame environment_update toString random playerBounds obstacleBounds
        now requestId g
  | keydown code =>
      fst <$> Game.handleKeyDown environment_update toString random playerBounds
                obstacleBounds now requestId code g
  | animation_frame =>
      Game.gameLoop environment_update toString random playerBounds obstacleBounds
        now requestId g
  | window_resize innerWidth innerHeight =>
      Some (Game.handleResize innerWidth innerHeight g)
  end.

Fixpoint run_events (es : list GameEvent) (g : Game.t Environment)
  : option (Game.t Environment) :=
  match es with
  | [] => Some g
  | e :: rest => g' ← run_event e g; run_events rest g'
  end.

End GameEvents.

(** *** A sample browser *)

Module SampleBrowser.

Import Stdlib.Strings.String.

(** A conversion that tells only NaN from the other numbers, and a
    parser that reads the one text [7]. *)
Definition toString (v : number) : string := if is_nan v then "NaN" else "0".

Definition parseInt (s : string) : number := if String.eqb s "7" then 7%float else nan.

(** A stored value that is not a number. *)
Definition corrupted : string := "abc".

End SampleBrowser.

(** The player stands in the middle of the track, upright. *)
Definition centred (m : Player.Mesh) : Prop :=
  lateralOffset m = 0%float
  /\ Player.rotation_z m = 0%float
  /\ THREE.z (Player.position m) = THREE.z Player.home.

(** The overlays and the final score fit the state of the game:
    before the first start nothing has been requested or scored, and
    the overlays are as the page had them; while playing both
    overlays are hidden and [animationFrameId] is the id of the frame
    requested last; after the end
    the game-over overlay is shown, with the score the game ended
    with. *)
Definition screens_fit {Environment : Type} (toString : number -> String.string)
    (requestId : nat -> nat) (startHidden gameOverHidden : bool)
    (g : Game.t Environment) : Prop :=
  match Game.state g with
  | Game.start =>
      Game.startScreen_hidden g = startHidden
      /\ Game.gameOverScreen_hidden g = gameOverHidden
      /\ Game.animationFrameId g = None
      /\ Game.requested g = 0
      /\ ScoreManager.score (Game.scoreManager g) = 0%float
  | Game.playing =>
      Game.startScreen_hidden g = true
      /\ Game.gameOverScreen_hidden g = true
      /\ 0 < Game.requested g
      /\ Game.animationFrameId g = Some (requestId (Nat.pred (Game.requested g)))
  | Game.gameOver =>
      Game.startScreen_hidden g = true
      /\ Game.gameOverScreen_hidden g = false
      /\ ScoreManager.finalScoreElement (Game.scoreManager g)
         = score_text toString (ScoreManager.score (Game.scoreManager g))
  end.

(** *** A sample game *)

(** A clock that advances 16 ms between readings. *)
Definition sample_clock (n : nat) : number := (Z2float (Z.of_nat n) * 16)%float.

(** A game in play, without scenery: a new player, a new obstacle
    manager and a fresh score. *)
Definition sample_game : Game.t unit :=
  Game.mk Game.playing None 0 true true
    (ScoreManager.new SampleBrowser.parseInt SampleBrowser.toString None
       String.EmptyString)
    (Player.new upright_bounds) (ObstacleManager.new sample_random) tt
    1 (1%float, 1%float) None [] 0 0 1.

(** Events that neither start the game nor make the player jump:
    animation frames, window resizes and keys other than Space. *)
Definition is_passive (e : GameEvent) : bool :=
  match e with
  | animation_frame | window_resize _ _ => true
  | keydown code => negb (String.eqb code KeyCode.Space)
  | click_start | click_restart => false
  end.

(** Two games that differ at most in the clock ([lastTime] and the
    number of readings) and in the size of the window. *)
Definition same_world {Environment : Type} (g g' : Game.t Environment) : Prop :=
  Game.state g' = Game.state g
  /\ Game.animationFrameId g' = Game.animationFrameId g
  /\ Game.startScreen_hidden g' = Game.startScreen_hidden g
  /\ Game.gameOverScreen_hidden g' = Game.gameOverScreen_hidden g
  /\ Game.scoreManager g' = Game.scoreManager g
  /\ Game.player g' = Game.player g
  /\ Game.obstacles g' = Game.obstacles g
  /\ Game.environment g' = Game.environment g
  /\ Game.localStorage g' = Game.localStorage g
  /\ Game.cancelled g' = Game.cancelled g
  /\ Game.requested g' = Game.requested g
  /\ Game.rendered g' = Game.rendered g.

(** A game that has ended, with one obstacle on the track. *)
Definition sample_game_over : Game.t unit :=
  Game.mk Game.gameOver (Some 7) 160 true false
    (ScoreManager.new SampleBrowser.parseInt SampleBrowser.toString None
       String.EmptyString)
    (Player.new upright_bounds) (sample_manager [sample_obstacle 0 0 5]) tt
    1 (1%float, 1%float) None [] 8 10 9.

(** ** Binary64 order and rounding *)

Section Binary64Order.

Local Open Scope Z_scope.

Lemma digits2_bounds (m : positive) :
  2 ^ (Z.pos (digits2_pos m) - 1) <= Z.pos m < 2 ^ Z.pos (digits2_pos m).
Proof.
  induction m as [m IH|m IH|]; cbn [digits2_pos].
  - rewrite Pos2Z.inj_succ.
    replace (Z.succ (Z.pos (digits2_pos m)) - 1) with (Z.succ (Z.pos (digits2_pos m) - 1)) by lia.
    rewrite !Z.pow_succ_r by lia. lia.
  - rewrite Pos2Z.inj_succ.
    replace (Z.succ (Z.pos (digits2_pos m)) - 1) with (Z.succ (Z.pos (digits2_pos m) - 1)) by lia.
    rewrite !Z.pow_succ_r by lia. lia.
  - cbn. lia.
Qed.

Lemma canonical_bounds (m : positive) (e : Z) :
  canonical_mantissa prec emax m e = true ->
  -1074 <= e /\ Z.pos m < 2 ^ 53 /\ (-1074 < e -> 2 ^ 52 <= Z.pos m).
Proof.
  unfold canonical_mantissa, fexp, SpecFloat.emin, prec, emax.
  intros H. apply Z.eqb_eq in H.
  pose proof (digits2_bounds m) as [Hlo Hhi].
  set (d := Z.pos (digits2_pos m)) in *.
  assert (0 < d) by (subst d; lia).
  split; [lia|]. split.
  - assert (d <= 53) by lia.
    eapply Z.lt_le_trans; [exact Hhi|]. apply Z.pow_le_mono_r; lia.
  - intros He. assert (d = 53) as Hd by lia. rewrite Hd in Hlo. exact Hlo.
Qed.

Lemma valid_finite (s : bool) (m : positive) (e : Z) :
  valid_binary (S754_finite s m e) = true ->
  -1074 <= e <= 971 /\ Z.pos m < 2 ^ 53 /\ (-1074 < e -> 2 ^ 52 <= Z.pos m).
Proof.
  cbn. unfold bounded. intros H. apply andb_prop in H as [Hc Hb].
  apply canonical_bounds in Hc. apply Z.leb_le in Hb.
  unfold emax, prec in Hb. lia.
Qed.

(** The position of a valid finite number is below [order_top]. *)
Lemma finite_below_top (m : positive) (e : Z) :
  -1074 <= e <= 971 -> Z.pos m < 2 ^ 53 ->
  0 < Z.pos m * 2 ^ (e + 1074) < order_top.
Proof.
  intros He Hm. split.
  - apply Z.mul_pos_pos; [lia|]. apply Z.pow_pos_nonneg; lia.
  - unfold order_top.
    assert (2 ^ (e + 1074) <= 2 ^ 2045) by (apply Z.pow_le_mono_r; lia).
    assert (0 < 2 ^ (e + 1074)) by (apply Z.pow_pos_nonneg; lia).
    replace (2 ^ 2200) with (2 ^ 155 * 2 ^ 2045) by (rewrite <- Z.pow_add_r; [reflexivity|lia..]).
    assert (2 ^ 53 < 2 ^ 155) by (apply Z.pow_lt_mono_r; lia).
    nia.
Qed.

Lemma scale_lt (a b c A P : Z) :
  a < 2 * c -> c <= b -> 1 <= A -> 0 < P -> 0 < c -> a * P < b * (A * 2 * P).
Proof.
  intros H1 H2 H3 H4 H5.
  assert (a * P < 2 * c * P) by (apply Z.mul_lt_mono_pos_r; lia).
  assert (2 * c * P <= 2 * b * P) by (apply Z.mul_le_mono_nonneg_r; lia).
  assert (0 <= 2 * b * P) by nia.
  assert (1 * (2 * b * P) <= A * (2 * b * P)) by (apply Z.mul_le_mono_nonneg_r; lia).
  lia.
Qed.

(** Two canonical mantissas compare as their exponents do when these
    differ. *)
Lemma canonical_exponent_order (m1 m2 : positive) (e1 e2 : Z) :
  -1074 <= e1 -> Z.pos m1 < 2 ^ 53 ->
  (-1074 < e2 -> 2 ^ 52 <= Z.pos m2) ->
  e1 < e2 ->
  Z.pos m1 * 2 ^ (e1 + 1074) < Z.pos m2 * 2 ^ (e2 + 1074).
Proof.
  intros He1 Hm1 Hm2 He.
  assert (2 ^ 52 <= Z.pos m2) as Hm2' by (apply Hm2; lia).
  assert (0 < 2 ^ (e1 + 1074)) by (apply Z.pow_pos_nonneg; lia).
  replace (e2 + 1074) with ((e2 - e1 - 1) + 1 + (e1 + 1074)) by lia.
  rewrite (Z.pow_add_r 2 (e2 - e1 - 1 + 1)), (Z.pow_add_r 2 (e2 - e1 - 1) 1) by lia.
  assert (2 ^ 0 <= 2 ^ (e2 - e1 - 1)) by (apply Z.pow_le_mono_r; lia).
  change (2 ^ 0) with 1 in *.
  change (2 ^ 1) with 2. change (2 ^ 53) with (2 * 2 ^ 52) in Hm1.
  apply scale_lt with (c := 2 ^ 52); auto. reflexivity.
Qed.

Lemma compare_scaled (a b P : Z) : 0 < P -> (a * P ?= b * P) = (a ?= b).
Proof.
  intros HP. destruct (Z.compare_spec a b) as [->|H|H].
  - apply Z.compare_refl.
  - apply Z.compare_lt_iff. now apply Z.mul_lt_mono_pos_r.
  - apply Z.compare_gt_iff. now apply Z.mul_lt_mono_pos_r.
Qed.

Lemma compare_opp (a b : Z) : (- a ?= - b) = CompOpp (a ?= b).
Proof. rewrite Z.compare_opp. apply Z.compare_antisym. Qed.

(** On valid numbers other than NaN, the comparison of the format is
    the comparison of positions. *)
Lemma SFcompare_ord (X Y : spec_float) :
  valid_binary X = true -> valid_binary Y = true ->
  is_nan_SF X = false -> is_nan_SF Y = false ->
  SFcompare X Y = Some (ord X ?= ord Y).
Proof.
  intros HX HY NX NY.
  assert (0 < order_top) as HT by reflexivity.
  destruct X as [sx|sx| |sx mx ex]; try discriminate;
  destruct Y as [sy|sy| |sy my ey]; try discriminate.
  all: try apply valid_finite in HX as (HeX & HmX & HnX).
  all: try apply valid_finite in HY as (HeY & HmY & HnY).
  all: try pose proof (finite_below_top mx ex HeX HmX) as HvX.
  all: try pose proof (finite_below_top my ey HeY HmY) as HvY.
  all: cbn [SFcompare ord].
  1-8: try destruct sx; try destruct sy; f_equal; symmetry;
    first [ apply Z.compare_refl
          | apply Z.compare_lt_iff; lia
          | apply Z.compare_gt_iff; lia ].
  - assert ((Z.pos mx * 2 ^ (ex + 1074) ?= Z.pos my * 2 ^ (ey + 1074))
            = match ex ?= ey with
              | Lt => Lt
              | Gt => Gt
              | Eq => Pos.compare_cont Eq mx my
              end) as Hc.
    { destruct (Z.compare_spec ex ey) as [->|H|H].
      - rewrite compare_scaled by (apply Z.pow_pos_nonneg; lia). reflexivity.
      - apply Z.compare_lt_iff. apply canonical_exponent_order; auto; lia.
      - apply Z.compare_gt_iff. apply canonical_exponent_order; auto; lia. }
    destruct sx, sy; f_equal; symmetry.
    + rewrite compare_opp, Hc. now destruct (ex ?= ey).
    + apply Z.compare_lt_iff. lia.
    + apply Z.compare_gt_iff. lia.
    + exact Hc.
Qed.

Lemma SFleb_ord (X Y : spec_float) :
  valid_binary X = true -> valid_binary Y = true ->
  is_nan_SF X = false -> is_nan_SF Y = false ->
  SFleb X Y = (ord X <=? ord Y).
Proof.
  intros HX HY NX NY. unfold SFleb. rewrite (SFcompare_ord X Y) by assumption.
  unfold Z.leb. now destruct (ord X ?= ord Y).
Qed.

Lemma SFltb_ord (X Y : spec_float) :
  valid_binary X = true -> valid_binary Y = true ->
  is_nan_SF X = false -> is_nan_SF Y = false ->
  SFltb X Y = (ord X <? ord Y).
Proof.
  intros HX HY NX NY. unfold SFltb. rewrite (SFcompare_ord X Y) by assumption.
  unfold Z.ltb. now destruct (ord X ?= ord Y).
Qed.

(** A comparison that holds rules NaN out. *)
Lemma SFleb_not_nan (X Y : spec_float) :
  SFleb X Y = true -> is_nan_SF X = false /\ is_nan_SF Y = false.
Proof.
  unfold SFleb. destruct X, Y; cbn; try discriminate; auto.
Qed.

Lemma SFltb_not_nan (X Y : spec_float) :
  SFltb X Y = true -> is_nan_SF X = false /\ is_nan_SF Y = false.
Proof.
  unfold SFltb. destruct X, Y; cbn; try discriminate; auto.
Qed.

(** *** Shifting a mantissa to the right *)

Lemma iter_pos_nat {A} (f : A -> A) (p : positive) (x : A) :
  SpecFloat.iter_pos f p x = Nat.iter (Pos.to_nat p) f x.
Proof.
  revert x. induction p as [p IH|p IH|]; intros x; cbn [SpecFloat.iter_pos].
  - rewrite !IH. rewrite Pos2Nat.inj_xI.
    replace (S (2 * Pos.to_nat p))%nat with (Pos.to_nat p + (Pos.to_nat p + 1))%nat by lia.
    rewrite !Nat.iter_add. cbn. reflexivity.
  - rewrite !IH. rewrite Pos2Nat.inj_xO.
    replace (2 * Pos.to_nat p)%nat with (Pos.to_nat p + Pos.to_nat p)%nat by lia.
    now rewrite Nat.iter_add.
  - reflexivity.
Qed.

Lemma shr_1_spec (m : Z) (r s : bool) :
  0 <= m ->
  shr_1 (Build_shr_record m r s) = Build_shr_record (m / 2) (Z.odd m) (r || s).
Proof.
  intros Hm. rewrite <- Z.div2_div.
  destruct m as [|[p|p|]|p]; cbn; try reflexivity. lia.
Qed.

Lemma mod_pow2_succ (m : Z) (n : Z) :
  0 <= n ->
  m mod 2 ^ (n + 1) = m mod 2 ^ n + 2 ^ n * ((m / 2 ^ n) mod 2).
Proof.
  intros Hn. rewrite Z.pow_add_r by lia. change (2 ^ 1) with 2.
  apply Z.rem_mul_r; [|lia].
  apply Z.pow_nonzero; lia.
Qed.

(** After [n + 1] shifts the record holds the quotient by [2^(n+1)],
    the bit just below it, and whether anything lies further below. *)
Lemma shr_iter_spec (m : Z) (n : nat) :
  0 <= m ->
  Nat.iter (S n) shr_1 (Build_shr_record m false false)
  = Build_shr_record (m / 2 ^ (Z.of_nat n + 1))
                     (Z.odd (m / 2 ^ Z.of_nat n))
                     (negb (m mod 2 ^ Z.of_nat n =? 0)).
Proof.
  intros Hm. induction n as [|n IH].
  - cbn [Nat.iter nat_rect]. rewrite shr_1_spec by assumption.
    cbn [Z.of_nat Z.add]. change (2 ^ 0) with 1. change (2 ^ 1) with 2.
    rewrite Z.div_1_r, Z.mod_1_r. reflexivity.
  - rewrite Nat.iter_succ, IH.
    assert (0 < 2 ^ (Z.of_nat n + 1)) by (apply Z.pow_pos_nonneg; lia).
    assert (0 < 2 ^ Z.of_nat n) by (apply Z.pow_pos_nonneg; lia).
    rewrite shr_1_spec by (apply Z.div_pos; lia).
    rewrite Nat2Z.inj_succ. unfold Z.succ.
    f_equal.
    + rewrite Z.div_div by lia.
      rewrite (Z.pow_add_r 2 (Z.of_nat n + 1) 1) by lia. reflexivity.
    + rewrite (mod_pow2_succ m (Z.of_nat n)) by lia.
      pose proof (Z.mod_pos_bound m (2 ^ Z.of_nat n) ltac:(lia)) as Hlow.
      rewrite (Zmod_odd (m / 2 ^ Z.of_nat n)).
      destruct (Z.odd (m / 2 ^ Z.of_nat n)); cbn [orb].
      * symmetry. apply negb_true_iff. apply Z.eqb_neq. lia.
      * now rewrite Z.mul_0_r, Z.add_0_r.
Qed.

(** Shifting by [k > 0] places and rounding to nearest even is [rne]. *)
Lemma shr_round_spec (m : Z) (p : positive) :
  0 <= m ->
  let mrs := SpecFloat.iter_pos shr_1 p (Build_shr_record m false false) in
  round_nearest_even (shr_m mrs) (loc_of_shr_record mrs) = rne m (Z.pos p).
Proof.
  intros Hm mrs. subst mrs. rewrite iter_pos_nat.
  destruct (Pos2Nat.is_succ p) as [n Hn]. rewrite Hn.
  rewrite shr_iter_spec by assumption.
  assert (Z.pos p = Z.of_nat n + 1) as Hp by lia.
  rewrite Hp. unfold rne. cbn [shr_m loc_of_shr_record].
  assert (0 < 2 ^ Z.of_nat n) as Hh by (apply Z.pow_pos_nonneg; lia).
  rewrite (mod_pow2_succ m (Z.of_nat n)) by lia.
  rewrite (Z.pow_add_r 2 (Z.of_nat n) 1) by lia. change (2 ^ 1) with 2.
  pose proof (Z.mod_pos_bound m (2 ^ Z.of_nat n) Hh) as Hlow.
  rewrite (Zmod_odd (m / 2 ^ Z.of_nat n)).
  set (q := m / (2 ^ Z.of_nat n * 2)).
  set (h := 2 ^ Z.of_nat n) in *.
  set (low := m mod h) in *.
  destruct (Z.odd (m / h)).
  - destruct (Z.eqb_spec low 0) as [E|E]; cbn [negb round_nearest_even].
    + destruct (Z.ltb_spec (2 * (low + h * 1)) (h * 2)); [lia|].
      destruct (Z.eqb_spec (2 * (low + h * 1)) (h * 2)); [|lia]. reflexivity.
    + destruct (Z.ltb_spec (2 * (low + h * 1)) (h * 2)); [lia|].
      destruct (Z.eqb_spec (2 * (low + h * 1)) (h * 2)); [lia|]. reflexivity.
  - destruct (Z.ltb_spec (2 * (low + h * 0)) (h * 2)); [|lia].
    destruct (low =? 0); reflexivity.
Qed.

(** *** Rounding a mantissa *)

Lemma fexp64_eq (d : Z) : fexp prec emax d = fexp64 d.
Proof. reflexivity. Qed.

Lemma rne_0 (N : Z) : rne N 0 = N.
Proof.
  unfold rne. change (2 ^ 0) with 1. rewrite Z.div_1_r, Z.mod_1_r. reflexivity.
Qed.

Lemma digits2_unique (p : positive) (d : Z) :
  2 ^ (d - 1) <= Z.pos p < 2 ^ d -> Z.pos (digits2_pos p) = d.
Proof.
  intros [Hlo Hhi]. pose proof (digits2_bounds p) as [Hlo' Hhi'].
  set (d' := Z.pos (digits2_pos p)) in *.
  assert (0 < d') by (subst d'; lia).
  destruct (Z.lt_trichotomy d' d) as [H1|[H1|H1]]; [|assumption|].
  - assert (2 ^ d' <= 2 ^ (d - 1)) by (apply Z.pow_le_mono_r; lia). lia.
  - destruct (Z.le_gt_cases 0 d) as [Hd|Hd].
    + assert (2 ^ d <= 2 ^ (d' - 1)) by (apply Z.pow_le_mono_r; lia). lia.
    + rewrite (Z.pow_neg_r 2 d) in Hhi by lia. lia.
Qed.

Lemma digits2_le (p : positive) (d : Z) :
  0 <= d -> Z.pos p < 2 ^ d -> Z.pos (digits2_pos p) <= d.
Proof.
  intros Hd Hhi. pose proof (digits2_bounds p) as [Hlo' _].
  set (d' := Z.pos (digits2_pos p)) in *.
  destruct (Z.le_gt_cases d' d) as [H|H]; [assumption|].
  assert (2 ^ d <= 2 ^ (d' - 1)) by (apply Z.pow_le_mono_r; lia). lia.
Qed.

Lemma shr_fexp_first (m : positive) (e : Z) :
  let E := fexp64 (Z.pos (digits2_pos m) + e) in
  e <= E ->
  exists mrs,
    shr_fexp prec emax (Z.pos m) e loc_Exact = (mrs, E)
    /\ round_nearest_even (shr_m mrs) (loc_of_shr_record mrs)
       = rne (Z.pos m) (E - e).
Proof.
  intros E HE. unfold shr_fexp. cbn [Zdigits2 shr_record_of_loc].
  rewrite fexp64_eq. fold E. unfold shr.
  destruct (E - e) as [|p|p] eqn:Ek; [| |lia].
  - eexists. split; [f_equal; lia|]. cbn [shr_m loc_of_shr_record round_nearest_even].
    now rewrite rne_0.
  - eexists. split; [f_equal; lia|].
    now apply (shr_round_spec (Z.pos m) p).
Qed.

Lemma shr_fexp_second (q E : Z) :
  0 <= q <= 2 ^ 53 -> -1074 <= E ->
  shr_fexp prec emax q E loc_Exact
  = if q <? 2 ^ 53 then (Build_shr_record q false false, E)
    else (Build_shr_record (2 ^ 52) false false, E + 1).
Proof.
  intros Hq HE. unfold shr_fexp. cbn [shr_record_of_loc]. rewrite fexp64_eq.
  destruct (Z.ltb_spec q (2 ^ 53)) as [Hlt|Hge].
  - assert (fexp64 (Zdigits2 q + E) - E <= 0) as Hs.
    { unfold fexp64. destruct q as [|p|p]; cbn [Zdigits2]; [lia| |lia].
      pose proof (digits2_le p 53 ltac:(lia) Hlt). lia. }
    unfold shr. destruct (fexp64 (Zdigits2 q + E) - E); [reflexivity|lia|reflexivity].
  - assert (q = 2 ^ 53) as -> by lia.
    assert (fexp64 (Zdigits2 (2 ^ 53) + E) - E = 1) as ->.
    { change (Zdigits2 (2 ^ 53)) with 54. unfold fexp64. lia. }
    reflexivity.
Qed.

(** The rounding of a positive mantissa that carries no more precision
    than the format allows ([e] is at most the format's exponent). *)
Lemma binary_round_aux_spec (s : bool) (m : positive) (e : Z) :
  let E := fexp64 (Z.pos (digits2_pos m) + e) in
  let q := rne (Z.pos m) (E - e) in
  e <= E -> 0 <= q <= 2 ^ 53 ->
  binary_round_aux prec emax s (Z.pos m) e loc_Exact = pack s q E.
Proof.
  intros E q HE Hq. unfold binary_round_aux.
  destruct (shr_fexp_first m e HE) as (mrs & -> & Hr). fold E in Hr. fold q in Hr.
  rewrite Hr. fold E.
  assert (-1074 <= E) by (subst E; unfold fexp64; lia).
  rewrite (shr_fexp_second q E Hq) by assumption.
  unfold pack.
  destruct (Z.ltb_spec q (2 ^ 53)); cbn [shr_m].
  - destruct (Z.eqb_spec q 0) as [->|Hne]; [reflexivity|].
    destruct q as [|p|p]; [lia| |lia]. reflexivity.
  - destruct (Z.eqb_spec q 0) as [->|Hne]; [lia|]. reflexivity.
Qed.

Lemma rne_bounds (N k : Z) :
  0 <= k -> N / 2 ^ k <= rne N k <= N / 2 ^ k + 1.
Proof.
  intros Hk. unfold rne.
  destruct (2 * (N mod 2 ^ k) <? 2 ^ k); [lia|].
  destruct (2 * (N mod 2 ^ k) =? 2 ^ k); [|lia].
  destruct (Z.even (N / 2 ^ k)); lia.
Qed.

(** Rounding at a fixed place is monotone. *)
Lemma rne_mono (N1 N2 k : Z) :
  0 <= k -> N1 <= N2 -> rne N1 k <= rne N2 k.
Proof.
  intros Hk HN.
  assert (0 < 2 ^ k) as HP by (apply Z.pow_pos_nonneg; lia).
  pose proof (Z.div_le_mono N1 N2 (2 ^ k) HP HN) as Hq.
  destruct (Z.eq_dec (N1 / 2 ^ k) (N2 / 2 ^ k)) as [E|E].
  - pose proof (Z.div_mod N1 (2 ^ k) ltac:(lia)) as H1.
    pose proof (Z.div_mod N2 (2 ^ k) ltac:(lia)) as H2.
    assert (N1 mod 2 ^ k <= N2 mod 2 ^ k) as Hr by (rewrite E in H1; nia).
    unfold rne. rewrite E.
    destruct (Z.ltb_spec (2 * (N1 mod 2 ^ k)) (2 ^ k));
    destruct (Z.ltb_spec (2 * (N2 mod 2 ^ k)) (2 ^ k)); try lia.
    + destruct (2 * (N2 mod 2 ^ k) =? 2 ^ k); [|lia].
      destruct (Z.even (N2 / 2 ^ k)); lia.
    + destruct (Z.eqb_spec (2 * (N1 mod 2 ^ k)) (2 ^ k));
      destruct (Z.eqb_spec (2 * (N2 mod 2 ^ k)) (2 ^ k)); try lia.
      destruct (Z.even (N2 / 2 ^ k)); lia.
  - pose proof (rne_bounds N1 k Hk). pose proof (rne_bounds N2 k Hk). lia.
Qed.

Lemma rne_scale (m k j : Z) :
  0 <= k -> 0 <= j -> rne (m * 2 ^ j) (k + j) = rne m k.
Proof.
  intros Hk Hj. unfold rne.
  assert (0 < 2 ^ j) as HP by (apply Z.pow_pos_nonneg; lia).
  assert (0 < 2 ^ k) as HK by (apply Z.pow_pos_nonneg; lia).
  rewrite Z.pow_add_r by lia.
  rewrite Z.div_mul_cancel_r by lia.
  rewrite Z.mul_mod_distr_r by lia.
  replace (2 * (m mod 2 ^ k * 2 ^ j)) with (2 * (m mod 2 ^ k) * 2 ^ j) by ring.
  destruct (Z.ltb_spec (2 * (m mod 2 ^ k)) (2 ^ k));
  destruct (Z.ltb_spec (2 * (m mod 2 ^ k) * 2 ^ j) (2 ^ k * 2 ^ j));
    try reflexivity; try (exfalso; nia).
  destruct (Z.eqb_spec (2 * (m mod 2 ^ k)) (2 ^ k));
  destruct (Z.eqb_spec (2 * (m mod 2 ^ k) * 2 ^ j) (2 ^ k * 2 ^ j));
    try reflexivity; exfalso; nia.
Qed.

(** What is known of a mantissa rounded to the format. *)
Lemma rounded_mantissa_bounds (m : positive) (e : Z) :
  let E := fexp64 (Z.pos (digits2_pos m) + e) in
  let q := rne (Z.pos m) (E - e) in
  e <= E ->
  0 <= q <= 2 ^ 53 /\ (-1074 < E -> 2 ^ 52 <= q).
Proof.
  intros E q HE.
  pose proof (digits2_bounds m) as [Hlo Hhi].
  set (d := Z.pos (digits2_pos m)) in *.
  assert (0 < d) by (subst d; lia).
  set (k := E - e) in *.
  assert (0 <= k) by lia.
  assert (d - 53 <= k) by (subst k E; unfold fexp64; lia).
  assert (0 < 2 ^ k) as HP by (apply Z.pow_pos_nonneg; lia).
  pose proof (rne_bounds (Z.pos m) k ltac:(lia)) as Hb. fold q in Hb.
  assert (0 <= Z.pos m / 2 ^ k) by (apply Z.div_pos; lia).
  split.
  - split; [lia|].
    assert (Z.pos m / 2 ^ k < 2 ^ 53); [|lia].
    apply Z.div_lt_upper_bound; [lia|].
    rewrite <- Z.pow_add_r by lia.
    eapply Z.lt_le_trans; [exact Hhi|]. apply Z.pow_le_mono_r; lia.
  - intros HE'. assert (k = d - 53) as Hk by (subst k E; unfold fexp64 in *; lia).
    assert (2 ^ 52 <= Z.pos m / 2 ^ k); [|lia].
    apply Z.div_le_lower_bound; [lia|].
    rewrite <- Z.pow_add_r by lia.
    replace (k + 52) with (d - 1) by lia. exact Hlo.
Qed.

Lemma pack_valid (s : bool) (q E : Z) :
  0 <= q <= 2 ^ 53 -> -1074 <= E -> (-1074 < E -> 2 ^ 52 <= q) ->
  valid_binary (pack s q E) = true /\ is_nan_SF (pack s q E) = false.
Proof.
  intros Hq HE Hn. unfold pack.
  destruct (Z.eqb_spec q 0) as [->|Hq0]; [split; reflexivity|].
  destruct (Z.ltb_spec q (2 ^ 53)) as [Hlt|Hge].
  - destruct (Z.leb_spec E 971) as [Hle|Hgt]; [|split; reflexivity].
    split; [|reflexivity]. cbn [valid_binary]. unfold bounded.
    apply andb_true_intro. split; [|apply Z.leb_le; unfold emax, prec; lia].
    unfold canonical_mantissa. rewrite fexp64_eq. apply Z.eqb_eq.
    destruct q as [|p|p]; [lia| |lia]. cbn [Z.to_pos].
    destruct (Z.eq_dec E (-1074)) as [->|HE'].
    + pose proof (digits2_le p 53 ltac:(lia) Hlt). unfold fexp64. lia.
    + rewrite (digits2_unique p 53) by (change (53 - 1) with 52; lia).
      unfold fexp64. lia.
  - destruct (Z.leb_spec (E + 1) 971) as [Hle|Hgt]; [|split; reflexivity].
    split; [|reflexivity]. cbn [valid_binary]. unfold bounded.
    apply andb_true_intro. split; [|apply Z.leb_le; unfold emax, prec; lia].
    unfold canonical_mantissa. rewrite fexp64_eq. apply Z.eqb_eq.
    change (Z.pos (digits2_pos (Z.to_pos (2 ^ 52)))) with 53.
    unfold fexp64. lia.
Qed.

Lemma pow2_2098_split (E : Z) :
  -1074 <= E -> 2 ^ 2098 = 2 ^ (971 - E) * 2 ^ 53 * 2 ^ (E + 1074) \/ 971 < E.
Proof.
  intros HE. destruct (Z.le_gt_cases E 971) as [H|H]; [left|now right].
  rewrite <- !Z.pow_add_r by lia. f_equal. lia.
Qed.

Lemma pack_ord (s : bool) (q E : Z) :
  0 <= q <= 2 ^ 53 -> -1074 <= E -> (-1074 < E -> 2 ^ 52 <= q) ->
  ord (pack s q E)
  = if s then - clamp (q * 2 ^ (E + 1074)) else clamp (q * 2 ^ (E + 1074)).
Proof.
  intros Hq HE Hn.
  assert (0 < 2 ^ (E + 1074)) as HP by (apply Z.pow_pos_nonneg; lia).
  assert (forall R, ord (pack s q E) = (if s then - R else R) ->
                    R = clamp (q * 2 ^ (E + 1074)) ->
                    ord (pack s q E)
                    = if s then - clamp (q * 2 ^ (E + 1074))
                      else clamp (q * 2 ^ (E + 1074))) as Hgo
      by (intros R -> ->; reflexivity).
  unfold pack in *.
  destruct (Z.eqb_spec q 0) as [->|Hq0].
  { apply (Hgo 0); [now destruct s|]. reflexivity. }
  destruct (Z.ltb_spec q (2 ^ 53)) as [Hlt|Hge].
  - destruct (Z.leb_spec E 971) as [Hle|Hgt].
    + apply (Hgo (q * 2 ^ (E + 1074))).
      * cbn [ord]. rewrite Z2Pos.id by lia. reflexivity.
      * unfold clamp.
        destruct (Z.ltb_spec (q * 2 ^ (E + 1074)) (2 ^ 2098)) as [|Hbad]; [reflexivity|].
        exfalso. destruct (pow2_2098_split E HE) as [Hs|]; [|lia].
        rewrite Hs in Hbad.
        assert (2 ^ 0 <= 2 ^ (971 - E)) by (apply Z.pow_le_mono_r; lia).
        change (2 ^ 0) with 1 in *. nia.
    + apply (Hgo order_top); [now destruct s|].
      unfold clamp.
      destruct (Z.ltb_spec (q * 2 ^ (E + 1074)) (2 ^ 2098)) as [Hbad|]; [|reflexivity].
      exfalso.
      assert (2 ^ 2046 <= 2 ^ (E + 1074)) by (apply Z.pow_le_mono_r; lia).
      assert (2 ^ 52 <= q) by (apply Hn; lia).
      replace (2 ^ 2098) with (2 ^ 52 * 2 ^ 2046) in Hbad
        by (rewrite <- Z.pow_add_r; [reflexivity|lia..]).
      assert (0 < 2 ^ 52) by reflexivity. nia.
  - assert (q = 2 ^ 53) as -> by lia.
    destruct (Z.leb_spec (E + 1) 971) as [Hle|Hgt].
    + apply (Hgo (2 ^ 53 * 2 ^ (E + 1074))).
      * cbn [ord]. rewrite Z2Pos.id by reflexivity.
        replace (E + 1 + 1074) with (1 + (E + 1074)) by lia.
        rewrite (Z.pow_add_r 2 1) by lia. change (2 ^ 53) with (2 ^ 52 * 2 ^ 1).
        now rewrite Z.mul_assoc.
      * unfold clamp.
        destruct (Z.ltb_spec (2 ^ 53 * 2 ^ (E + 1074)) (2 ^ 2098)) as [|Hbad]; [reflexivity|].
        exfalso. rewrite <- Z.pow_add_r in Hbad by lia.
        assert (2 ^ (53 + (E + 1074)) < 2 ^ 2098) by (apply Z.pow_lt_mono_r; lia). lia.
    + apply (Hgo order_top); [now destruct s|].
      unfold clamp.
      destruct (Z.ltb_spec (2 ^ 53 * 2 ^ (E + 1074)) (2 ^ 2098)) as [Hbad|]; [|reflexivity].
      exfalso. rewrite <- Z.pow_add_r in Hbad by lia.
      assert (2 ^ 2098 <= 2 ^ (53 + (E + 1074))) by (apply Z.pow_le_mono_r; lia). lia.
Qed.

(** *** Rounding is monotone *)

Lemma cut_mono (c N1 N2 : Z) : 0 < N1 <= N2 -> cut c N1 <= cut c N2.
Proof.
  intros H. unfold cut. pose proof (Z.log2_le_mono N1 N2 ltac:(lia)). lia.
Qed.

Lemma round_grid_nonneg (c N : Z) : 0 <= c -> 0 <= N -> 0 <= round_grid c N.
Proof.
  intros Hc HN. unfold round_grid.
  assert (0 <= cut c N) by (unfold cut; lia).
  assert (0 < 2 ^ cut c N) by (apply Z.pow_pos_nonneg; lia).
  pose proof (rne_bounds N (cut c N) ltac:(lia)).
  assert (0 <= N / 2 ^ cut c N) by (apply Z.div_pos; lia).
  apply Z.mul_nonneg_nonneg; [lia|]. apply Z.pow_nonneg. lia.
Qed.

Lemma round_grid_mono (c N1 N2 : Z) :
  0 <= c -> 0 < N1 <= N2 -> round_grid c N1 <= round_grid c N2.
Proof.
  intros Hc HN. pose proof (cut_mono c N1 N2 HN) as HK.
  unfold round_grid.
  set (K1 := cut c N1) in *. set (K2 := cut c N2) in *.
  assert (c <= K1) by (subst K1; unfold cut; lia).
  assert (c <= K2) by (subst K2; unfold cut; lia).
  destruct (Z.eq_dec K1 K2) as [E|E].
  - rewrite <- E. apply Z.mul_le_mono_nonneg_r; [apply Z.pow_nonneg; lia|].
    apply rne_mono; lia.
  - assert (K1 < K2) as Hlt by lia.
    pose proof (Z.log2_spec N1 ltac:(lia)) as [_ H1].
    pose proof (Z.log2_spec N2 ltac:(lia)) as [H2 _].
    pose proof (Z.log2_nonneg N1). pose proof (Z.log2_nonneg N2).
    assert (K2 = Z.log2 N2 + 1 - 53) as HK2 by (subst K2; unfold cut in *; lia).
    assert (Z.log2 N1 + 1 - 53 <= K1) as HK1 by (subst K1; unfold cut; lia).
    assert (0 < 2 ^ K1) by (apply Z.pow_pos_nonneg; lia).
    assert (0 < 2 ^ K2) by (apply Z.pow_pos_nonneg; lia).
    (* the smaller number rounds to at most 2^53 at its place *)
    assert (rne N1 K1 <= 2 ^ 53) as Hup.
    { pose proof (rne_bounds N1 K1 ltac:(lia)).
      assert (N1 / 2 ^ K1 < 2 ^ 53); [|lia].
      apply Z.div_lt_upper_bound; [lia|].
      rewrite <- Z.pow_add_r by lia.
      eapply Z.lt_le_trans; [exact H1|]. apply Z.pow_le_mono_r; lia. }
    (* the larger one to at least 2^52 at its place *)
    assert (2 ^ 52 <= rne N2 K2) as Hdown.
    { pose proof (rne_bounds N2 K2 ltac:(lia)).
      assert (2 ^ 52 <= N2 / 2 ^ K2); [|lia].
      apply Z.div_le_lower_bound; [lia|].
      rewrite <- Z.pow_add_r by lia.
      replace (K2 + 52) with (Z.log2 N2) by lia. exact H2. }
    assert (0 <= rne N1 K1).
    { pose proof (rne_bounds N1 K1 ltac:(lia)).
      assert (0 <= N1 / 2 ^ K1) by (apply Z.div_pos; lia). lia. }
    apply Z.le_trans with (2 ^ 53 * 2 ^ (K1 - c)).
    { apply Z.mul_le_mono_nonneg_r; [apply Z.pow_nonneg; lia|assumption]. }
    apply Z.le_trans with (2 ^ 52 * 2 ^ (K2 - c)).
    { rewrite <- !Z.pow_add_r by lia. apply Z.pow_le_mono_r; lia. }
    apply Z.mul_le_mono_nonneg_r; [apply Z.pow_nonneg; lia|assumption].
Qed.

Lemma round_grid_0 (c : Z) : 0 <= c -> round_grid c 0 = 0.
Proof.
  intros Hc. unfold round_grid, cut. cbn [Z.log2].
  replace (Z.max (0 + 1 - 53) c) with c by lia.
  unfold rne. rewrite Z.div_0_l, Z.mod_0_l by (apply Z.pow_nonzero; lia).
  assert (0 < 2 ^ c) by (apply Z.pow_pos_nonneg; lia).
  destruct (Z.ltb_spec (2 * 0) (2 ^ c)); [reflexivity|lia].
Qed.

Lemma round_grid_mono0 (c N1 N2 : Z) :
  0 <= c -> 0 <= N1 <= N2 -> round_grid c N1 <= round_grid c N2.
Proof.
  intros Hc HN. destruct (Z.eq_dec N1 0) as [->|H1].
  - rewrite round_grid_0 by assumption. apply round_grid_nonneg; lia.
  - apply round_grid_mono; lia.
Qed.

Lemma clamp_nonneg (R : Z) : 0 <= R -> 0 <= clamp R.
Proof. intros H. unfold clamp. destruct (R <? 2 ^ 2098); [assumption|]. now unfold order_top. Qed.

Lemma clamp_mono (R1 R2 : Z) : R1 <= R2 -> clamp R1 <= clamp R2.
Proof.
  intros H. unfold clamp.
  assert (2 ^ 2098 < order_top) by reflexivity.
  destruct (Z.ltb_spec R1 (2 ^ 2098)); destruct (Z.ltb_spec R2 (2 ^ 2098)); lia.
Qed.

Lemma round_signed_mono (c S1 S2 : Z) :
  0 <= c -> S1 <= S2 -> round_signed c S1 <= round_signed c S2.
Proof.
  intros Hc HS. unfold round_signed.
  pose proof (clamp_nonneg _ (round_grid_nonneg c (Z.abs S1) Hc (Z.abs_nonneg _))).
  pose proof (clamp_nonneg _ (round_grid_nonneg c (Z.abs S2) Hc (Z.abs_nonneg _))).
  destruct (Z.sgn_spec S1) as [[H1 ->]|[[H1 ->]|[H1 ->]]];
  destruct (Z.sgn_spec S2) as [[H2 ->]|[[H2 ->]|[H2 ->]]]; try lia.
  - assert (clamp (round_grid c (Z.abs S1)) <= clamp (round_grid c (Z.abs S2))); [|lia].
    apply clamp_mono, round_grid_mono0; lia.
  - assert (clamp (round_grid c (Z.abs S2)) <= clamp (round_grid c (Z.abs S1))); [|lia].
    apply clamp_mono, round_grid_mono0; lia.
Qed.

(** *** The rounding functions of the format, on the grid *)

Lemma digits2_log2 (m : positive) : Z.pos (digits2_pos m) = Z.log2 (Z.pos m) + 1.
Proof.
  pose proof (digits2_bounds m) as [Hlo Hhi].
  assert (Z.log2 (Z.pos m) = Z.pos (digits2_pos m) - 1); [|lia].
  apply Z.log2_unique; [lia|].
  replace (Z.succ (Z.pos (digits2_pos m) - 1)) with (Z.pos (digits2_pos m)) by lia.
  split; assumption.
Qed.

Lemma signed (s : bool) (a b : Z) :
  a = b -> (if s then - a else a) = (if s then - b else b).
Proof. now intros ->. Qed.

Lemma binary_round_aux_ord (s : bool) (m : positive) (e B : Z) :
  B <= e -> B <= -1074 -> e <= fexp64 (Z.pos (digits2_pos m) + e) ->
  let F := binary_round_aux prec emax s (Z.pos m) e loc_Exact in
  let R := clamp (round_grid (-1074 - B) (Z.pos m * 2 ^ (e - B))) in
  valid_binary F = true /\ is_nan_SF F = false
  /\ ord F = if s then - R else R.
Proof.
  intros HB HB' HE F R.
  pose proof (rounded_mantissa_bounds m e HE) as [Hq Hn].
  set (E := fexp64 (Z.pos (digits2_pos m) + e)) in *.
  set (q := rne (Z.pos m) (E - e)) in *.
  assert (-1074 <= E) as HE' by (subst E; unfold fexp64; lia).
  assert (F = pack s q E) as -> by (apply binary_round_aux_spec; assumption).
  destruct (pack_valid s q E Hq HE' Hn) as [Hv Hnan].
  split; [assumption|]. split; [assumption|].
  rewrite (pack_ord s q E Hq HE' Hn). apply signed. subst R. f_equal.
  unfold round_grid.
  assert (cut (-1074 - B) (Z.pos m * 2 ^ (e - B)) = E - B) as ->.
  { unfold cut. rewrite Z.log2_mul_pow2 by lia.
    pose proof (digits2_log2 m). subst E. unfold fexp64. lia. }
  replace (E - B) with ((E - e) + (e - B)) at 1 by lia.
  rewrite rne_scale by lia. fold q. f_equal. f_equal. lia.
Qed.

Lemma pos_iter_xO (m d : positive) : Z.pos (Pos.iter xO m d) = Z.pos m * 2 ^ Z.pos d.
Proof.
  induction d as [|d IH] using Pos.peano_ind.
  - cbn [Pos.iter]. change (2 ^ 1) with 2. lia.
  - rewrite Pos.iter_succ. rewrite Pos2Z.inj_xO, IH.
    rewrite Pos2Z.inj_succ, Z.pow_succ_r by lia. ring.
Qed.

Lemma shl_align_le (m : positive) (e e' : Z) :
  e' <= e ->
  exists m', shl_align m e e' = (m', e') /\ Z.pos m' = Z.pos m * 2 ^ (e - e').
Proof.
  intros H. unfold shl_align. destruct (e' - e) as [|d|d] eqn:Ed; [|lia|].
  - exists m. assert (e' = e) as -> by lia. split; [reflexivity|].
    rewrite Z.sub_diag. change (2 ^ 0) with 1. lia.
  - eexists. split; [reflexivity|]. rewrite pos_iter_xO. f_equal. f_equal. lia.
Qed.

Lemma shl_align_ge (m : positive) (e e' : Z) : e <= e' -> shl_align m e e' = (m, e).
Proof.
  intros H. unfold shl_align. destruct (e' - e) as [|d|d] eqn:Ed; [reflexivity..|lia].
Qed.

Lemma digits2_shift (m m' : positive) (j : Z) :
  0 <= j -> Z.pos m' = Z.pos m * 2 ^ j ->
  Z.pos (digits2_pos m') = Z.pos (digits2_pos m) + j.
Proof.
  intros Hj Hm. rewrite !digits2_log2, Hm.
  rewrite Z.log2_mul_pow2 by lia. lia.
Qed.

Lemma binary_round_ord (s : bool) (m : positive) (e B : Z) :
  B <= e -> B <= -1074 ->
  let F := binary_round prec emax s m e in
  let R := clamp (round_grid (-1074 - B) (Z.pos m * 2 ^ (e - B))) in
  valid_binary F = true /\ is_nan_SF F = false
  /\ ord F = if s then - R else R.
Proof.
  intros HB HB' F R. subst F. unfold binary_round. rewrite fexp64_eq.
  set (E := fexp64 (Z.pos (digits2_pos m) + e)).
  assert (-1074 <= E) as HE' by (subst E; unfold fexp64; lia).
  destruct (Z.le_gt_cases e E) as [Hle|Hgt].
  - rewrite (shl_align_ge m e E Hle).
    apply (binary_round_aux_ord s m e B); assumption.
  - destruct (shl_align_le m e E ltac:(lia)) as (m' & -> & Hm').
    pose proof (digits2_shift m m' (e - E) ltac:(lia) Hm') as Hd.
    assert (E <= fexp64 (Z.pos (digits2_pos m') + E)) as Hpre.
    { rewrite Hd. replace (Z.pos (digits2_pos m) + (e - E) + E)
        with (Z.pos (digits2_pos m) + e) by lia. fold E. lia. }
    pose proof (binary_round_aux_ord s m' E B ltac:(lia) HB' Hpre) as H.
    cbv zeta in H.
    replace (Z.pos m' * 2 ^ (E - B)) with (Z.pos m * 2 ^ (e - B)) in H; [exact H|].
    rewrite Hm'. rewrite <- Z.mul_assoc, <- Z.pow_add_r by lia.
    f_equal. f_equal. lia.
Qed.

Lemma binary_normalize_ord (M e B : Z) (sz : bool) :
  B <= e -> B <= -1074 ->
  let F := binary_normalize prec emax M e sz in
  valid_binary F = true /\ is_nan_SF F = false
  /\ ord F = round_signed (-1074 - B) (M * 2 ^ (e - B)).
Proof.
  intros HB HB' F. subst F. unfold binary_normalize, round_signed.
  assert (0 < 2 ^ (e - B)) as HP by (apply Z.pow_pos_nonneg; lia).
  destruct M as [|m|m].
  - cbn. auto.
  - destruct (binary_round_ord false m e B HB HB') as (Hv & Hn & Ho).
    split; [assumption|]. split; [assumption|]. rewrite Ho.
    rewrite Z.sgn_pos, Z.abs_eq by lia. lia.
  - destruct (binary_round_ord true m e B HB HB') as (Hv & Hn & Ho).
    split; [assumption|]. split; [assumption|]. rewrite Ho.
    assert (Z.neg m * 2 ^ (e - B) < 0) by lia.
    rewrite Z.sgn_neg, Z.abs_neq by lia.
    replace (- (Z.neg m * 2 ^ (e - B))) with (Z.pos m * 2 ^ (e - B)) by lia. lia.
Qed.

(** *** Addition, subtraction and multiplication on positions *)

Lemma clamp_large (R : Z) : 2 ^ 2098 <= R -> clamp R = order_top.
Proof. intros H. unfold clamp. destruct (Z.ltb_spec R (2 ^ 2098)); [lia|reflexivity]. Qed.

Lemma clamp_small (R : Z) : R < 2 ^ 2098 -> clamp R = R.
Proof. intros H. unfold clamp. destruct (Z.ltb_spec R (2 ^ 2098)); [reflexivity|lia]. Qed.

Lemma round_grid_large (N : Z) : 2 ^ 2098 <= N -> 2 ^ 2098 <= round_grid 0 N.
Proof.
  intros H. assert (round_grid 0 (2 ^ 2098) = 2 ^ 2098) as <- by (vm_compute; reflexivity).
  apply round_grid_mono; [lia|]. split; [reflexivity|assumption].
Qed.

(** A valid finite number is its own rounding. *)
Lemma round_signed_ord (s : bool) (m : positive) (e : Z) :
  valid_binary (S754_finite s m e) = true ->
  round_signed 0 (ord (S754_finite s m e)) = ord (S754_finite s m e).
Proof.
  intros Hv. pose proof Hv as Hc. cbn in Hc. unfold bounded in Hc.
  apply andb_prop in Hc as [Hc _]. unfold canonical_mantissa in Hc.
  rewrite fexp64_eq in Hc. apply Z.eqb_eq in Hc.
  apply valid_finite in Hv as (He & Hm & _).
  pose proof (finite_below_top m e He Hm) as [Hpos _].
  set (v := Z.pos m * 2 ^ (e + 1074)) in *.
  assert (round_grid 0 v = v) as Hr.
  { unfold round_grid.
    assert (cut 0 v = e + 1074) as ->.
    { unfold cut. subst v. rewrite Z.log2_mul_pow2 by lia.
      pose proof (digits2_log2 m). unfold fexp64 in Hc. lia. }
    subst v. replace (e + 1074) with (0 + (e + 1074)) at 2 by lia.
    rewrite rne_scale, rne_0 by lia. f_equal. f_equal. lia. }
  assert (v < 2 ^ 2098) as Hlt.
  { subst v. assert (2 ^ (e + 1074) <= 2 ^ 2045) by (apply Z.pow_le_mono_r; lia).
    assert (0 < 2 ^ (e + 1074)) by (apply Z.pow_pos_nonneg; lia).
    replace (2 ^ 2098) with (2 ^ 53 * 2 ^ 2045) by (rewrite <- Z.pow_add_r; [reflexivity|lia..]).
    nia. }
  unfold round_signed. cbn [ord]. fold v. destruct s.
  - rewrite Z.sgn_neg, Z.abs_neq by lia.
    replace (- - v) with v by lia. rewrite Hr, (clamp_small v Hlt). lia.
  - rewrite Z.sgn_pos, Z.abs_eq by lia. rewrite Hr, (clamp_small v Hlt). lia.
Qed.

Lemma ord_finite_bound (X : spec_float) :
  valid_binary X = true -> finite_SF X = true -> - 2 ^ 2098 < ord X < 2 ^ 2098.
Proof.
  intros Hv Hf. destruct X as [s|s| |s m e]; try discriminate.
  - cbn. split; reflexivity.
  - apply valid_finite in Hv as (He & Hm & _).
    pose proof (finite_below_top m e He Hm) as [Hpos _].
    assert (Z.pos m * 2 ^ (e + 1074) < 2 ^ 2098).
    { assert (2 ^ (e + 1074) <= 2 ^ 2045) by (apply Z.pow_le_mono_r; lia).
      assert (0 < 2 ^ (e + 1074)) by (apply Z.pow_pos_nonneg; lia).
      replace (2 ^ 2098) with (2 ^ 53 * 2 ^ 2045) by (rewrite <- Z.pow_add_r; [reflexivity|lia..]).
      nia. }
    cbn [ord]. destruct s; lia.
Qed.

Lemma round_signed_far (S : Z) :
  2 ^ 2098 <= Z.abs S -> round_signed 0 S = Z.sgn S * order_top.
Proof.
  intros H. unfold round_signed. rewrite clamp_large; [reflexivity|].
  now apply round_grid_large.
Qed.

Lemma cond_Zopp_ord (s : bool) (m : positive) (e ez : Z) :
  -1074 <= ez <= e ->
  cond_Zopp s (Z.pos (fst (shl_align m e ez))) * 2 ^ (ez + 1074)
  = ord (S754_finite s m e).
Proof.
  intros H. destruct (shl_align_le m e ez ltac:(lia)) as (m' & -> & Hm').
  cbn [fst ord]. rewrite Hm'.
  assert (Z.pos m * 2 ^ (e - ez) * 2 ^ (ez + 1074) = Z.pos m * 2 ^ (e + 1074)) as Hs.
  { rewrite <- Z.mul_assoc, <- Z.pow_add_r by lia. f_equal. f_equal. lia. }
  destruct s; cbn [cond_Zopp]; lia.
Qed.

(** The sum of a finite number and any number other than NaN is the
    rounding of the sum of the positions. *)
Lemma SFadd_ord (X Y : spec_float) :
  valid_binary X = true -> valid_binary Y = true ->
  finite_SF X = true -> is_nan_SF Y = false ->
  let F := SFadd prec emax X Y in
  let G := SFadd prec emax Y X in
  (valid_binary F = true /\ is_nan_SF F = false
   /\ ord F = round_signed 0 (ord X + ord Y))
  /\ (valid_binary G = true /\ is_nan_SF G = false
      /\ ord G = round_signed 0 (ord X + ord Y)).
Proof.
  intros HX HY FX NY F G.
  assert (0 < order_top) as HT by reflexivity.
  assert (2 ^ 2098 + 2 ^ 2098 <= order_top) as HT' by (vm_compute; discriminate).
  pose proof (ord_finite_bound X HX FX) as HbX.
  destruct Y as [sy|sy| |sy my ey]; [| |discriminate|].
  - (* Y is a zero *)
    destruct X as [sx|sx| |sx mx ex]; try discriminate.
    + subst F G. destruct sx, sy; cbn; auto.
    + subst F G. cbn [SFadd]. rewrite Z.add_0_r. rewrite round_signed_ord by assumption.
      auto.
  - (* Y is an infinity *)
    assert (round_signed 0 (ord X + ord (S754_infinity sy)) = ord (S754_infinity sy)) as Hr.
    { cbn [ord]. destruct sy.
      - rewrite round_signed_far by lia. rewrite Z.sgn_neg by lia. lia.
      - rewrite round_signed_far by lia. rewrite Z.sgn_pos by lia. lia. }
    rewrite Hr.
    destruct X as [sx|sx| |sx mx ex]; try discriminate; subst F G; cbn [SFadd]; auto.
  - (* Y is finite and not zero *)
    destruct X as [sx|sx| |sx mx ex]; try discriminate.
    + subst F G. cbn [SFadd ord]. rewrite Z.add_0_l.
      change (round_signed 0 (if sy then - (Z.pos my * 2 ^ (ey + 1074))
                              else Z.pos my * 2 ^ (ey + 1074)))
        with (round_signed 0 (ord (S754_finite sy my ey))).
      rewrite round_signed_ord by assumption. auto.
    + pose proof (valid_finite _ _ _ HX) as (HeX & _).
      pose proof (valid_finite _ _ _ HY) as (HeY & _).
      subst F G. cbn [SFadd]. cbv zeta.
      split.
      * pose proof (binary_normalize_ord
          (cond_Zopp sx (Z.pos (fst (shl_align mx ex (Z.min ex ey))))
           + cond_Zopp sy (Z.pos (fst (shl_align my ey (Z.min ex ey)))))
          (Z.min ex ey) (-1074) false ltac:(lia) ltac:(lia)) as (Hv & Hn & Ho).
        split; [assumption|]. split; [assumption|]. rewrite Ho.
        change (-1074 - -1074) with 0. f_equal.
        replace (Z.min ex ey - -1074) with (Z.min ex ey + 1074) by lia.
        rewrite Z.mul_add_distr_r.
        rewrite !cond_Zopp_ord by lia. reflexivity.
      * pose proof (binary_normalize_ord
          (cond_Zopp sy (Z.pos (fst (shl_align my ey (Z.min ey ex))))
           + cond_Zopp sx (Z.pos (fst (shl_align mx ex (Z.min ey ex)))))
          (Z.min ey ex) (-1074) false ltac:(lia) ltac:(lia)) as (Hv & Hn & Ho).
        split; [assumption|]. split; [assumption|]. rewrite Ho.
        change (-1074 - -1074) with 0. f_equal.
        replace (Z.min ey ex - -1074) with (Z.min ey ex + 1074) by lia.
        rewrite Z.mul_add_distr_r.
        rewrite !cond_Zopp_ord by lia. lia.
Qed.

Lemma SFopp_facts (Y : spec_float) :
  valid_binary (SFopp Y) = valid_binary Y
  /\ is_nan_SF (SFopp Y) = is_nan_SF Y
  /\ finite_SF (SFopp Y) = finite_SF Y
  /\ ord (SFopp Y) = - ord Y.
Proof.
  destruct Y as [s|s| |s m e]; cbn; repeat split; destruct s; cbn; lia.
Qed.

Lemma SFsub_add_opp (X Y : spec_float) :
  finite_SF X = true -> is_nan_SF Y = false ->
  SFsub prec emax X Y = SFadd prec emax X (SFopp Y).
Proof.
  intros FX NY.
  destruct X as [sx|sx| |sx mx ex]; try discriminate;
  destruct Y as [sy|sy| |sy my ey]; try discriminate; cbn [SFsub SFadd SFopp].
  - now destruct sx, sy.
  - reflexivity.
  - reflexivity.
  - reflexivity.
  - reflexivity.
  - cbv zeta. f_equal. destruct sy; cbn [cond_Zopp negb]; lia.
Qed.

Lemma SFsub_ord (X Y : spec_float) :
  valid_binary X = true -> valid_binary Y = true ->
  finite_SF X = true -> is_nan_SF Y = false ->
  let F := SFsub prec emax X Y in
  valid_binary F = true /\ is_nan_SF F = false
  /\ ord F = round_signed 0 (ord X - ord Y).
Proof.
  intros HX HY FX NY F. subst F. rewrite SFsub_add_opp by assumption.
  destruct (SFopp_facts Y) as (Hv & Hn & _ & Ho).
  destruct (SFadd_ord X (SFopp Y) HX ltac:(congruence) FX ltac:(congruence))
    as [(H1 & H2 & H3) _].
  split; [assumption|]. split; [assumption|]. rewrite H3, Ho. f_equal; lia.
Qed.

(** The product by a positive normal number. *)
Lemma SFmul_ord (X : spec_float) (mc : positive) (ec : Z) :
  valid_binary X = true -> valid_binary (S754_finite false mc ec) = true ->
  finite_SF X = true -> 0 <= ord X -> 2 ^ 52 <= Z.pos mc ->
  let F := SFmul prec emax X (S754_finite false mc ec) in
  let c := - Z.min ec 0 in
  valid_binary F = true /\ is_nan_SF F = false
  /\ ord F = clamp (round_grid c (ord X * (Z.pos mc * 2 ^ (ec + c)))).
Proof.
  intros HX HC FX PX Hmc F c. subst F.
  assert (0 <= c) as Hc by (subst c; lia).
  assert (0 <= ec + c) as Hec by (subst c; lia).
  destruct X as [sx|sx| |sx mx ex]; try discriminate.
  - cbn [SFmul ord]. rewrite Z.mul_0_l, round_grid_0 by assumption.
    cbn. auto.
  - pose proof (valid_finite _ _ _ HX) as (HeX & HmX & _).
    pose proof (valid_finite _ _ _ HC) as (HeC & _).
    pose proof (finite_below_top mx ex HeX HmX) as [Hpos _].
    destruct sx; [cbn [ord] in PX; lia|].
    cbn [SFmul xorb ord].
    change (Z.pos (mx * mc)) with (Z.pos mx * Z.pos mc).
    assert (ex + ec <= fexp64 (Z.pos (digits2_pos (mx * mc)) + (ex + ec))) as Hpre.
    { pose proof (digits2_bounds (mx * mc)) as [_ Hhi].
      rewrite Pos2Z.inj_mul in Hhi.
      assert (2 ^ 52 < 2 ^ Z.pos (digits2_pos (mx * mc))) as Hd by nia.
      apply Z.pow_lt_mono_r_iff in Hd; [|lia..].
      unfold fexp64. lia. }
    destruct (binary_round_aux_ord false (mx * mc) (ex + ec) (-1074 - c)
                ltac:(subst c; lia) ltac:(lia) Hpre) as (Hv & Hn & Ho).
    rewrite Pos2Z.inj_mul in *.
    split; [assumption|]. split; [assumption|]. rewrite Ho.
    replace (-1074 - (-1074 - c)) with c by lia. f_equal. f_equal.
    replace (ex + ec - (-1074 - c)) with ((ex + 1074) + (ec + c)) by lia.
    rewrite Z.pow_add_r by lia. ring.
Qed.

(** *** The same facts on numbers *)

Lemma is_nan_Prim2SF (v : number) : is_nan_SF (Prim2SF v) = is_nan v.
Proof.
  unfold Prim2SF. destruct (is_nan v); [reflexivity|].
  destruct (is_zero v); [reflexivity|].
  destruct (is_infinity v); [reflexivity|].
  destruct (Z.frexp v) as [r e].
  destruct (shr_fexp _ _ _ _ _) as [mrs e'].
  now destruct (shr_m mrs).
Qed.

Lemma fin_not_nan (v : number) : fin v = true -> is_nan_SF (Prim2SF v) = false.
Proof. unfold fin. now destruct (Prim2SF v). Qed.

Lemma leb_pos (a b : number) :
  PrimFloat.leb a b = true ->
  is_nan_SF (Prim2SF a) = false /\ is_nan_SF (Prim2SF b) = false /\ pos a <= pos b.
Proof.
  rewrite leb_spec. intros H. destruct (SFleb_not_nan _ _ H) as [Na Nb].
  split; [assumption|]. split; [assumption|].
  rewrite SFleb_ord in H by (auto using Prim2SF_valid). now apply Z.leb_le.
Qed.

Lemma pos_leb (a b : number) :
  is_nan_SF (Prim2SF a) = false -> is_nan_SF (Prim2SF b) = false ->
  pos a <= pos b -> PrimFloat.leb a b = true.
Proof.
  intros Na Nb H. rewrite leb_spec, SFleb_ord by (auto using Prim2SF_valid).
  now apply Z.leb_le.
Qed.

Lemma ltb_pos (a b : number) :
  PrimFloat.ltb a b = true ->
  is_nan_SF (Prim2SF a) = false /\ is_nan_SF (Prim2SF b) = false /\ pos a < pos b.
Proof.
  rewrite ltb_spec. intros H. destruct (SFltb_not_nan _ _ H) as [Na Nb].
  split; [assumption|]. split; [assumption|].
  rewrite SFltb_ord in H by (auto using Prim2SF_valid). now apply Z.ltb_lt.
Qed.

Lemma ltb_false_pos (a b : number) :
  is_nan_SF (Prim2SF a) = false -> is_nan_SF (Prim2SF b) = false ->
  PrimFloat.ltb a b = false -> pos b <= pos a.
Proof.
  intros Na Nb. rewrite ltb_spec, SFltb_ord by (auto using Prim2SF_valid).
  intros H. apply Z.ltb_ge in H. exact H.
Qed.

Lemma leb_trans (a b c : number) :
  PrimFloat.leb a b = true -> PrimFloat.leb b c = true -> PrimFloat.leb a c = true.
Proof.
  intros H1 H2. apply leb_pos in H1 as (Na & _ & H1). apply leb_pos in H2 as (_ & Nc & H2).
  apply pos_leb; [assumption..|lia].
Qed.

(** A number between two finite numbers is finite. *)
Lemma fin_between (lo hi v : number) :
  fin lo = true -> fin hi = true ->
  PrimFloat.leb lo v = true -> PrimFloat.leb v hi = true -> fin v = true.
Proof.
  intros Flo Fhi H1 H2.
  apply leb_pos in H1 as (_ & Nv & H1). apply leb_pos in H2 as (_ & _ & H2).
  pose proof (ord_finite_bound _ (Prim2SF_valid lo) Flo) as Blo.
  pose proof (ord_finite_bound _ (Prim2SF_valid hi) Fhi) as Bhi.
  unfold fin, pos in *. assert (2 ^ 2098 < order_top) by reflexivity.
  destruct (Prim2SF v) as [s|s| |s m e]; try reflexivity; try discriminate.
  cbn [ord] in *. destruct s; lia.
Qed.

Lemma pos_add (a b : number) :
  fin a = true -> is_nan_SF (Prim2SF b) = false ->
  is_nan_SF (Prim2SF (a + b)) = false
  /\ pos (a + b) = round_signed 0 (pos a + pos b)
  /\ is_nan_SF (Prim2SF (b + a)) = false
  /\ pos (b + a) = round_signed 0 (pos a + pos b).
Proof.
  intros Fa Nb. unfold pos. rewrite !add_spec.
  destruct (SFadd_ord (Prim2SF a) (Prim2SF b) (Prim2SF_valid a) (Prim2SF_valid b) Fa Nb)
    as [(_ & H1 & H2) (_ & H3 & H4)].
  auto.
Qed.

Lemma pos_sub (a b : number) :
  fin a = true -> is_nan_SF (Prim2SF b) = false ->
  is_nan_SF (Prim2SF (a - b)) = false
  /\ pos (a - b) = round_signed 0 (pos a - pos b).
Proof.
  intros Fa Nb. unfold pos. rewrite !sub_spec.
  destruct (SFsub_ord (Prim2SF a) (Prim2SF b) (Prim2SF_valid a) (Prim2SF_valid b) Fa Nb)
    as (_ & H1 & H2).
  auto.
Qed.

Lemma pos_round (a : number) : fin a = true -> round_signed 0 (pos a) = pos a.
Proof.
  intros Fa. unfold fin, pos in *. pose proof (Prim2SF_valid a) as Hv.
  destruct (Prim2SF a) as [s|s| |s m e]; try discriminate.
  - reflexivity.
  - now apply round_signed_ord.
Qed.

(** Addition and subtraction are monotone. *)
Lemma add_le_mono (a1 a2 b1 b2 : number) :
  fin a1 = true -> fin a2 = true ->
  PrimFloat.leb a1 a2 = true -> PrimFloat.leb b1 b2 = true ->
  PrimFloat.leb (a1 + b1) (a2 + b2) = true
  /\ PrimFloat.leb (b1 + a1) (b2 + a2) = true.
Proof.
  intros F1 F2 Ha Hb.
  apply leb_pos in Ha as (_ & _ & Ha). apply leb_pos in Hb as (N1 & N2 & Hb).
  destruct (pos_add a1 b1 F1 N1) as (M1 & P1 & M1' & P1').
  destruct (pos_add a2 b2 F2 N2) as (M2 & P2 & M2' & P2').
  split; (apply pos_leb; [assumption..|]).
  - rewrite P1, P2. apply round_signed_mono; lia.
  - rewrite P1', P2'. apply round_signed_mono; lia.
Qed.

Lemma sub_le_mono (a1 a2 b1 b2 : number) :
  fin a1 = true -> fin a2 = true ->
  PrimFloat.leb a1 a2 = true -> PrimFloat.leb b2 b1 = true ->
  PrimFloat.leb (a1 - b1) (a2 - b2) = true.
Proof.
  intros F1 F2 Ha Hb.
  apply leb_pos in Ha as (_ & _ & Ha). apply leb_pos in Hb as (N2 & N1 & Hb).
  destruct (pos_sub a1 b1 F1 N1) as (M1 & P1).
  destruct (pos_sub a2 b2 F2 N2) as (M2 & P2).
  apply pos_leb; [assumption..|].
  rewrite P1, P2. apply round_signed_mono; lia.
Qed.

(** Taking a non-negative number away does not increase a number, and
    adding one does not decrease it. *)
Lemma sub_le_self (a c : number) :
  fin a = true -> PrimFloat.leb 0 c = true -> PrimFloat.leb (a - c) a = true.
Proof.
  intros Fa Hc. apply leb_pos in Hc as (_ & Nc & Hc). change (pos 0) with 0 in Hc.
  destruct (pos_sub a c Fa Nc) as (M & P).
  apply pos_leb; [assumption|now apply fin_not_nan|].
  rewrite P. apply Z.le_trans with (round_signed 0 (pos a)).
  - apply round_signed_mono; lia.
  - rewrite pos_round by assumption. lia.
Qed.

Lemma add_ge_self (a c : number) :
  fin a = true -> PrimFloat.leb 0 c = true -> PrimFloat.leb a (a + c) = true.
Proof.
  intros Fa Hc. apply leb_pos in Hc as (_ & Nc & Hc). change (pos 0) with 0 in Hc.
  destruct (pos_add a c Fa Nc) as (M & P & _).
  apply pos_leb; [now apply fin_not_nan|assumption|].
  rewrite P. apply Z.le_trans with (round_signed 0 (pos a)).
  - rewrite pos_round by assumption. lia.
  - apply round_signed_mono; lia.
Qed.

Lemma ord_le_top (X : spec_float) :
  valid_binary X = true -> - order_top <= ord X <= order_top.
Proof.
  intros Hv. assert (2 ^ 2098 < order_top) by reflexivity.
  destruct X as [s|s| |s m e]; cbn [ord]; try lia.
  - destruct s; lia.
  - pose proof (ord_finite_bound (S754_finite s m e) Hv eq_refl) as H1.
    cbn [ord] in H1. lia.
Qed.

(** Multiplication by a positive normal number is monotone on the
    non-negative numbers. *)
Lemma mul_le_mono_pos (a1 a2 c : number) :
  normal_positive c = true ->
  PrimFloat.leb 0 a1 = true -> PrimFloat.leb a1 a2 = true ->
  PrimFloat.leb 0 (a1 * c) = true
  /\ PrimFloat.leb (a1 * c) (a2 * c) = true.
Proof.
  intros Hc H0 H12.
  apply leb_pos in H0 as (_ & N1 & H0). change (pos 0) with 0 in H0.
  apply leb_pos in H12 as (_ & N2 & H12).
  unfold normal_positive in Hc. pose proof (Prim2SF_valid c) as Vc.
  destruct (Prim2SF c) as [| | |sc mc ec] eqn:Ec; try discriminate.
  destruct sc; [discriminate|]. apply Z.leb_le in Hc.
  assert (forall a, is_nan_SF (Prim2SF a) = false -> 0 <= pos a ->
            is_nan_SF (Prim2SF (a * c)) = false
            /\ 0 <= pos (a * c)
            /\ (fin a = true ->
                pos (a * c) = clamp (round_grid (- Z.min ec 0)
                                (pos a * (Z.pos mc * 2 ^ (ec + - Z.min ec 0))))))
    as Hmul.
  { intros a Na Pa. unfold pos, fin in *. rewrite mul_spec, Ec.
    pose proof (Prim2SF_valid a) as Va.
    destruct (Prim2SF a) as [s|s| |s m e] eqn:Ea; try discriminate.
    - destruct (SFmul_ord (S754_zero s) mc ec Va Vc eq_refl ltac:(cbn; lia) Hc)
        as (_ & Hn & Ho).
      split; [assumption|]. split; [|intros _; exact Ho].
      unfold SF64mul. rewrite Ho. apply clamp_nonneg, round_grid_nonneg; cbn; lia.
    - destruct s; [cbn in Pa; unfold order_top in Pa; lia|].
      cbn. split; [reflexivity|]. split; [now unfold order_top|discriminate].
    - destruct (SFmul_ord (S754_finite s m e) mc ec Va Vc eq_refl Pa Hc)
        as (_ & Hn & Ho).
      split; [assumption|]. split; [|intros _; exact Ho].
      unfold SF64mul. rewrite Ho.
      assert (0 <= ec + - Z.min ec 0) by lia.
      apply clamp_nonneg, round_grid_nonneg; [lia|].
      apply Z.mul_nonneg_nonneg; [assumption|].
      apply Z.mul_nonneg_nonneg; [lia|]. apply Z.pow_nonneg; lia. }
  destruct (Hmul a1 N1 H0) as (M1 & Q1 & R1).
  destruct (Hmul a2 N2 ltac:(lia)) as (M2 & Q2 & R2).
  split.
  { apply pos_leb; [reflexivity|assumption|exact Q1]. }
  apply pos_leb; [assumption..|].
  destruct (fin a2) eqn:F2.
  - assert (fin a1 = true) as F1.
    { pose proof (ord_finite_bound _ (Prim2SF_valid a2) F2) as B2.
      unfold fin, pos in *. assert (2 ^ 2098 < order_top) by reflexivity.
      destruct (Prim2SF a1) as [s|s| |s m e]; try reflexivity; try discriminate.
      cbn [ord] in *. destruct s; lia. }
    rewrite (R1 F1), (R2 eq_refl).
    assert (0 <= ec + - Z.min ec 0) by lia.
    apply clamp_mono, round_grid_mono0; [lia|]. split.
    + apply Z.mul_nonneg_nonneg; [assumption|].
      apply Z.mul_nonneg_nonneg; [lia|]. apply Z.pow_nonneg; lia.
    + apply Z.mul_le_mono_nonneg_r; [|assumption].
      apply Z.mul_nonneg_nonneg; [lia|]. apply Z.pow_nonneg; lia.
  - (* the larger factor is infinite, and so is its product *)
    assert (pos (a2 * c) = order_top) as ->.
    { unfold pos, fin in *. rewrite mul_spec, Ec.
      destruct (Prim2SF a2) as [s|s| |s m e]; try discriminate.
      destruct s; [cbn in H12, H0; unfold order_top in *; lia|]. reflexivity. }
    apply ord_le_top, Prim2SF_valid.
Qed.

(** *** [Math.min] and [Math.max] pick one of their arguments *)

Lemma Math_min_cases (a b : number) :
  is_nan_SF (Prim2SF a) = false -> is_nan_SF (Prim2SF b) = false ->
  (Math_min a b = a /\ PrimFloat.leb a b = true)
  \/ (Math_min a b = b /\ PrimFloat.leb b a = true).
Proof.
  intros Na Nb. unfold Math_min.
  rewrite <- !is_nan_Prim2SF, Na, Nb. cbn [orb].
  destruct (PrimFloat.ltb a b) eqn:E1.
  { left. split; [reflexivity|]. apply ltb_pos in E1 as (_ & _ & H).
    apply pos_leb; [assumption..|lia]. }
  destruct (PrimFloat.ltb b a) eqn:E2.
  { right. split; [reflexivity|]. apply ltb_pos in E2 as (_ & _ & H).
    apply pos_leb; [assumption..|lia]. }
  apply ltb_false_pos in E1; [|assumption..].
  apply ltb_false_pos in E2; [|assumption..].
  destruct (get_sign a); [left|right]; (split; [reflexivity|]);
    apply pos_leb; assumption || lia.
Qed.

Lemma Math_max_cases (a b : number) :
  is_nan_SF (Prim2SF a) = false -> is_nan_SF (Prim2SF b) = false ->
  (Math_max a b = a /\ PrimFloat.leb b a = true)
  \/ (Math_max a b = b /\ PrimFloat.leb a b = true).
Proof.
  intros Na Nb. unfold Math_max.
  rewrite <- !is_nan_Prim2SF, Na, Nb. cbn [orb].
  destruct (PrimFloat.ltb a b) eqn:E1.
  { right. split; [reflexivity|]. apply ltb_pos in E1 as (_ & _ & H).
    apply pos_leb; [assumption..|lia]. }
  destruct (PrimFloat.ltb b a) eqn:E2.
  { left. split; [reflexivity|]. apply ltb_pos in E2 as (_ & _ & H).
    apply pos_leb; [assumption..|lia]. }
  apply ltb_false_pos in E1; [|assumption..].
  apply ltb_false_pos in E2; [|assumption..].
  destruct (get_sign a); [right|left]; (split; [reflexivity|]);
    apply pos_leb; assumption || lia.
Qed.

End Binary64Order.


(** ** Basic facts *)

Lemma float_neq (a b : number) : Prim2SF a <> Prim2SF b -> a <> b.
Proof. intros H E. apply H. now rewrite E. Qed.

Section PlayerFacts.

Variable setFromObject : Player.Mesh -> THREE.Box3.

Lemma updateCollider_mesh (p : Player.t) (m : Player.Mesh) :
  Player.mesh p = Some m ->
  Player.updateCollider setFromObject p
  = Some (Player.with_collider p (Player.colliderOf setFromObject m)).
Proof. intros H. unfold Player.updateCollider. now rewrite H. Qed.

Lemma updateCollider_fresh (p q : Player.t) :
  Player.updateCollider setFromObject p = Some q -> fresh setFromObject q.
Proof.
  unfold Player.updateCollider, fresh.
  destruct (Player.mesh p) as [m|] eqn:E; simpl; [|discriminate].
  intros [= <-]. simpl. now rewrite E.
Qed.

Lemma fresh_updateCollider (p : Player.t) (m : Player.Mesh) :
  Player.mesh p = Some m -> fresh setFromObject p ->
  Player.updateCollider setFromObject p = Some p.
Proof.
  intros Hm Hf. rewrite (updateCollider_mesh _ _ Hm).
  unfold fresh in Hf. rewrite Hm in Hf. simpl in Hf.
  destruct p; simpl in *. unfold Player.with_collider; simpl. now subst.
Qed.

Lemma createPlayer_blank :
  Player.createPlayer setFromObject Player.blank = Some (Player.new setFromObject).
Proof. reflexivity. Qed.

(** Every method that moves the mesh ends by recomputing the collider,
    and [jump] leaves both alone: the collider of a player that was
    built by [new] and driven through its methods is always fresh. *)
Lemma new_fresh : fresh setFromObject (Player.new setFromObject).
Proof. reflexivity. Qed.

Lemma jump_fresh (p : Player.t) :
  fresh setFromObject p -> fresh setFromObject (Player.jump p).
Proof.
  unfold fresh, Player.jump.
  destruct (negb (Player.isJumping p) && negb (Player.isFalling p)); auto.
Qed.

Lemma update_fresh (p q : Player.t) :
  Player.update setFromObject p = Some q -> fresh setFromObject q.
Proof.
  unfold Player.update. intros H.
  destruct (if Player.isJumping p || Player.isFalling p
            then Player.airborne p else Player.animateRunning p) as [p1|];
    simpl in H; [|discriminate].
  destruct (Player.returnToCenter p1) as [p2|]; simpl in H; [|discriminate].
  eapply updateCollider_fresh; eauto.
Qed.

Lemma moveLeft_fresh (p q : Player.t) :
  fresh setFromObject p -> Player.moveLeft setFromObject p = Some q ->
  fresh setFromObject q.
Proof.
  unfold Player.moveLeft. intros Hf H.
  destruct (Player.mesh p) as [m|]; simpl in H; [|discriminate].
  destruct (gtb _ _).
  - eapply updateCollider_fresh; eauto.
  - now injection H as <-.
Qed.

Lemma moveRight_fresh (p q : Player.t) :
  fresh setFromObject p -> Player.moveRight setFromObject p = Some q ->
  fresh setFromObject q.
Proof.
  unfold Player.moveRight. intros Hf H.
  destruct (Player.mesh p) as [m|]; simpl in H; [|discriminate].
  destruct (PrimFloat.ltb _ _).
  - eapply updateCollider_fresh; eauto.
  - now injection H as <-.
Qed.

Lemma reset_fresh (p q : Player.t) :
  Player.reset setFromObject p = Some q -> fresh setFromObject q.
Proof.
  unfold Player.reset. intros H.
  destruct (Player.mesh (Player.with_flags p false false)); simpl in H; [|discriminate].
  eapply updateCollider_fresh; eauto.
Qed.

(** *** The scan over the active obstacles *)

Lemma scan_total (d : CollisionDetector.t) (c : THREE.Box3)
    (l : list ObstacleManager.Obstacle) :
  Player.collider (CollisionDetector.player d) = Some c ->
  exists b, CollisionDetector.scan d l = Some b.
Proof.
  intros Hc. induction l as [|o l [b IH]]; simpl; [eauto|].
  unfold CollisionDetector.checkObstacleCollision. rewrite Hc.
  destruct (ObstacleManager.collider o) as [ob|]; simpl.
  - destruct (THREE.intersectsBox c ob); eauto.
  - eauto.
Qed.

Lemma intersectsBox_overlap (a b : THREE.Box3) :
  THREE.intersectsBox a b = true <-> boxes_overlap a b.
Proof.
  unfold THREE.intersectsBox, boxes_overlap, axis_overlap.
  destruct (PrimFloat.ltb (THREE.x (THREE.max b)) (THREE.x (THREE.min a)));
  destruct (gtb (THREE.x (THREE.min b)) (THREE.x (THREE.max a)));
  destruct (PrimFloat.ltb (THREE.y (THREE.max b)) (THREE.y (THREE.min a)));
  destruct (gtb (THREE.y (THREE.min b)) (THREE.y (THREE.max a)));
  destruct (PrimFloat.ltb (THREE.z (THREE.max b)) (THREE.z (THREE.min a)));
  destruct (gtb (THREE.z (THREE.min b)) (THREE.z (THREE.max a)));
  simpl; intuition congruence.
Qed.

Lemma scan_true_iff (d : CollisionDetector.t) (c : THREE.Box3)
    (l : list ObstacleManager.Obstacle) :
  Player.collider (CollisionDetector.player d) = Some c ->
  CollisionDetector.scan d l = Some true <->
  exists o box, o ∈ l /\ ObstacleManager.collider o = Some box
                /\ boxes_overlap c box.
Proof.
  intros Hc. induction l as [|o l IH]; simpl.
  - split; [discriminate|]. intros (o & box & Hin & _).
    now apply elem_of_nil in Hin.
  - unfold CollisionDetector.checkObstacleCollision. rewrite Hc.
    destruct (ObstacleManager.collider o) as [ob|] eqn:Eo; simpl.
    + destruct (THREE.intersectsBox c ob) eqn:Ei.
      * split; [|reflexivity]. intros _. exists o, ob.
        split; [apply list_elem_of_here|]. split; [assumption|].
        now apply intersectsBox_overlap.
      * rewrite IH. split.
        -- intros (o' & box & Hin & H1 & H2). exists o', box.
           split; [now apply list_elem_of_further|]. auto.
        -- intros (o' & box & Hin & H1 & H2).
           apply elem_of_cons in Hin as [->|Hin].
           ++ rewrite Eo in H1. injection H1 as <-.
              apply intersectsBox_overlap in H2. congruence.
           ++ eauto.
    + rewrite IH. split.
      * intros (o' & box & Hin & H1 & H2). exists o', box.
        split; [now apply list_elem_of_further|]. auto.
      * intros (o' & box & Hin & H1 & H2).
        apply elem_of_cons in Hin as [->|Hin]; [congruence|eauto].
Qed.

Lemma scan_skips_missing_collider (d : CollisionDetector.t)
    (o : ObstacleManager.Obstacle) (pre post : list ObstacleManager.Obstacle) :
  ObstacleManager.collider o = None ->
  CollisionDetector.scan d (pre ++ o :: post) = CollisionDetector.scan d (pre ++ post).
Proof.
  intros Ho. induction pre as [|a pre IH]; simpl.
  - unfold CollisionDetector.checkObstacleCollision. now rewrite Ho.
  - destruct (CollisionDetector.checkObstacleCollision d a) as [[|]|]; simpl; auto.
Qed.

Lemma scan_player_only (p : Player.t) (om1 om2 : ObstacleManager.t)
    (l : list ObstacleManager.Obstacle) :
  CollisionDetector.scan (CollisionDetector.mk p om1) l
  = CollisionDetector.scan (CollisionDetector.mk p om2) l.
Proof.
  induction l as [|x l IH]; simpl; [reflexivity|].
  unfold CollisionDetector.checkObstacleCollision. simpl.
  destruct (ObstacleManager.collider x); simpl; [|assumption].
  destruct (Player.collider p); simpl; [|reflexivity].
  destruct (THREE.intersectsBox _ _); auto.
Qed.

End PlayerFacts.


(** ** Jumping *)

(** C6: [jump()] on a grounded player sets the phase to Ascending and
    the vertical velocity to [jumpForce], changing nothing else; in any
    other phase it changes no field of the player. *)
Theorem jump_from_ground_only (p : Player.t) :
  match phase p with
  | Grounded =>
      Player.jump p
      = Player.mk (Player.mesh p) (Player.collider p) true false
          (Some Player.jumpForce)
          (Player.legRotationDirection p) (Player.currentLegRotation p)
      /\ phase (Player.jump p) = Ascending
      /\ Player.jumpVelocity (Player.jump p) = Some 0.15%float
  | Ascending | Descending => Player.jump p = p
  end.
Proof.
  unfold phase, Player.jump.
  destruct p as [m c j f v ld cl]; simpl.
  destruct j, f; simpl; auto.
Qed.

(** ** Collision queries *)

Section CollisionFacts.

Variable setFromObject : Player.Mesh -> THREE.Box3.

(** With a mesh and a collider, the check stores the collider of the
    pose and answers from the scan. *)
Lemma checkCollisions_refreshes (d : CollisionDetector.t) (m : Player.Mesh)
    (c : THREE.Box3) :
  Player.mesh (CollisionDetector.player d) = Some m ->
  Player.collider (CollisionDetector.player d) = Some c ->
  exists hit,
    CollisionDetector.checkCollisions setFromObject d
    = Some (hit,
            CollisionDetector.mk
              (Player.with_collider (CollisionDetector.player d)
                 (Player.colliderOf setFromObject m))
              (CollisionDetector.obstacles d)).
Proof.
  intros Em Ec. destruct d as [p om]. unfold CollisionDetector.checkCollisions.
  simpl in *. rewrite Em, Ec.
  rewrite (updateCollider_mesh setFromObject p m Em). simpl.
  set (p' := Player.with_collider p (Player.colliderOf setFromObject m)).
  destruct (scan_total (CollisionDetector.mk p' om)
              (Player.colliderOf setFromObject m)
              (ObstacleManager.activeObstacles om) eq_refl) as [b Hb].
  rewrite Hb. simpl. eauto.
Qed.

(** C1, as the code has it: [checkCollisions()] always returns, leaves
    the obstacle manager (every record, the pool and the active list)
    and every player field other than the collider as they were, and
    stores the collider recomputed from the mesh pose; when the stored
    collider was already the one of the pose, the whole state is
    unchanged. *)
Theorem checkCollisions_only_refreshes_collider (d : CollisionDetector.t) :
  exists hit d',
    CollisionDetector.checkCollisions setFromObject d = Some (hit, d')
    /\ CollisionDetector.obstacles d' = CollisionDetector.obstacles d
    /\ Player.mesh (CollisionDetector.player d')
       = Player.mesh (CollisionDetector.player d)
    /\ Player.isJumping (CollisionDetector.player d')
       = Player.isJumping (CollisionDetector.player d)
    /\ Player.isFalling (CollisionDetector.player d')
       = Player.isFalling (CollisionDetector.player d)
    /\ Player.jumpVelocity (CollisionDetector.player d')
       = Player.jumpVelocity (CollisionDetector.player d)
    /\ Player.legRotationDirection (CollisionDetector.player d')
       = Player.legRotationDirection (CollisionDetector.player d)
    /\ Player.currentLegRotation (CollisionDetector.player d')
       = Player.currentLegRotation (CollisionDetector.player d)
    /\ match Player.mesh (CollisionDetector.player d),
             Player.collider (CollisionDetector.player d) with
       | Some m, Some _ =>
           Player.collider (CollisionDetector.player d')
           = Some (Player.colliderOf setFromObject m)
       | _, _ => d' = d
       end
    /\ (fresh setFromObject (CollisionDetector.player d) -> d' = d).
Proof.
  destruct (Player.mesh (CollisionDetector.player d)) as [m|] eqn:Em.
  2:{ exists false, d. unfold CollisionDetector.checkCollisions. rewrite Em.
      unfold fresh. tauto. }
  destruct (Player.collider (CollisionDetector.player d)) as [c|] eqn:Ec.
  2:{ exists false, d. unfold CollisionDetector.checkCollisions. rewrite Em, Ec.
      unfold fresh. tauto. }
  destruct (checkCollisions_refreshes d m c Em Ec) as [hit H].
  eexists hit, _. split; [exact H|]. cbn.
  repeat (split; [first [reflexivity | assumption]|]).
  intros Hf. destruct d as [p om]. cbn in *. f_equal.
  pose proof (fresh_updateCollider setFromObject p m Em Hf) as Hu.
  rewrite (updateCollider_mesh setFromObject p m Em) in Hu. now injection Hu.
Qed.

(** C5: without a mesh or without a collider the answer is [false];
    otherwise the answer is [true] exactly when some active obstacle has
    a collider that overlaps the player's (recomputed) collider on all
    three axes. *)
Theorem checkCollisions_iff_overlap (d : CollisionDetector.t) :
  match Player.mesh (CollisionDetector.player d),
        Player.collider (CollisionDetector.player d) with
  | Some m, Some _ =>
      exists hit d',
        CollisionDetector.checkCollisions setFromObject d = Some (hit, d')
        /\ (hit = true <->
            exists o box,
              o ∈ ObstacleManager.activeObstacles (CollisionDetector.obstacles d)
              /\ ObstacleManager.collider o = Some box
              /\ boxes_overlap (Player.colliderOf setFromObject m) box)
  | _, _ => CollisionDetector.checkCollisions setFromObject d = Some (false, d)
  end.
Proof.
  destruct d as [p om]. unfold CollisionDetector.checkCollisions. simpl.
  destruct (Player.mesh p) as [m|] eqn:Em; [|reflexivity].
  destruct (Player.collider p) as [c|] eqn:Ec; [|reflexivity].
  rewrite (updateCollider_mesh setFromObject p m Em). simpl.
  set (p' := Player.with_collider p (Player.colliderOf setFromObject m)).
  destruct (scan_total (CollisionDetector.mk p' om)
              (Player.colliderOf setFromObject m)
              (ObstacleManager.activeObstacles om) eq_refl) as [b Hb].
  rewrite Hb. simpl. exists b, (CollisionDetector.mk p' om).
  split; [reflexivity|].
  rewrite <- (scan_true_iff (CollisionDetector.mk p' om)
                (Player.colliderOf setFromObject m)
                (ObstacleManager.activeObstacles om) eq_refl).
  rewrite Hb. split; congruence.
Qed.

(** C10: an obstacle without a collider does not collide, and the scan
    goes on past it: wherever it stands in the active list, the result
    of the whole check is the one obtained without it. *)
Theorem missing_obstacle_collider_is_skipped
    (d : CollisionDetector.t) (i : nat) (ty : option ObstacleManager.ObstacleType)
    (m : ObstacleManager.Mesh) (a : bool) (scale : THREE.Vector3)
    (pre post : list ObstacleManager.Obstacle) :
  let o := ObstacleManager.mkObstacle i ty m None a scale in
  let om := CollisionDetector.obstacles d in
  let among l :=
    CollisionDetector.mk (CollisionDetector.player d)
      (ObstacleManager.with_lists om l (ObstacleManager.obstaclePool om)) in
  CollisionDetector.checkObstacleCollision d o = Some false
  /\ CollisionDetector.scan d (pre ++ o :: post)
     = CollisionDetector.scan d (pre ++ post)
  /\ fst <$> CollisionDetector.checkCollisions setFromObject (among (pre ++ o :: post))
     = fst <$> CollisionDetector.checkCollisions setFromObject (among (pre ++ post)).
Proof.
  intros o om among.
  split; [reflexivity|].
  split; [now apply scan_skips_missing_collider|].
  unfold CollisionDetector.checkCollisions, among. simpl.
  destruct (Player.mesh (CollisionDetector.player d)) as [pm|] eqn:Em; [|reflexivity].
  destruct (Player.collider (CollisionDetector.player d)) as [c|]; [|reflexivity].
  rewrite (updateCollider_mesh setFromObject _ pm Em). simpl.
  set (p' := Player.with_collider _ _).
  rewrite (scan_player_only p' _ om (pre ++ o :: post)).
  rewrite (scan_player_only p' _ om (pre ++ post)).
  rewrite (scan_skips_missing_collider _ o pre post eq_refl).
  now destruct (CollisionDetector.scan _ _).
Qed.

End CollisionFacts.

(** C1 without the exception for the collider fails: on a player whose
    stored collider is not the one of its pose, the call replaces the
    collider. *)
Lemma checkCollisions_replaces_collider :
  exists hit d',
    CollisionDetector.checkCollisions upright_bounds stale_detector = Some (hit, d')
    /\ Player.collider (CollisionDetector.player d')
       <> Player.collider (CollisionDetector.player stale_detector).
Proof.
  destruct (checkCollisions_refreshes upright_bounds stale_detector
              (Player.mkMesh Player.home 0 0 0 0 0)
              (THREE.B3 (THREE.V3 0 0 0) (THREE.V3 1 1 1)) eq_refl eq_refl)
    as [hit H].
  eexists hit, _. split; [exact H|]. cbn.
  intros E.
  apply (f_equal (fun c => match c with
                           | Some b => THREE.x (THREE.min b)
                           | None => 0%float
                           end)) in E.
  revert E. apply float_neq. vm_compute. discriminate.
Qed.


(** ** The obstacle pool *)

Section ManagerFacts.

Variable random : nat -> number.
Variable setFromObject : ObstacleManager.Mesh -> THREE.Box3.

Lemma pop_snoc {A} (l rest : list A) (o : A) :
  ObstacleManager.pop l = Some (o, rest) -> l = rest ++ [o].
Proof.
  unfold ObstacleManager.pop. destruct (last l) as [x|] eqn:E; simpl; [|discriminate].
  intros [= <- <-]. apply last_Some in E as [l' ->].
  now rewrite removelast_last.
Qed.

Lemma pop_None {A} (l : list A) : ObstacleManager.pop l = None -> l = [].
Proof.
  unfold ObstacleManager.pop. destruct (last l) as [x|] eqn:E; simpl; [discriminate|].
  intros _. now apply last_None in E.
Qed.

Lemma ids_app (l k : list ObstacleManager.Obstacle) : ids (l ++ k) = ids l ++ ids k.
Proof. apply fmap_app. Qed.

Lemma ids_fresh_pool (pool act : list ObstacleManager.Obstacle)
    (o : ObstacleManager.Obstacle) (c : nat) :
  ObstacleManager.id o = c ->
  ids (pool ++ act) ≡ₚ seq 0 c ->
  ids ((pool ++ [o]) ++ act) ≡ₚ seq 0 (S c).
Proof.
  intros Ho H. rewrite seq_S. cbn [Nat.add]. rewrite <- H, <- Ho.
  rewrite !ids_app. cbn. rewrite <- !app_assoc.
  apply Permutation_app_head. apply Permutation_app_comm.
Qed.

Lemma ids_fresh_active (pool act : list ObstacleManager.Obstacle)
    (o : ObstacleManager.Obstacle) (c : nat) :
  ObstacleManager.id o = c ->
  ids (pool ++ act) ≡ₚ seq 0 c ->
  ids (pool ++ act ++ [o]) ≡ₚ seq 0 (S c).
Proof.
  intros Ho H. rewrite seq_S. cbn [Nat.add]. rewrite <- H, <- Ho.
  rewrite !ids_app. cbn. now rewrite app_assoc.
Qed.

Lemma ids_pool_to_active (rest act : list ObstacleManager.Obstacle)
    (o o' : ObstacleManager.Obstacle) :
  ObstacleManager.id o' = ObstacleManager.id o ->
  ids (rest ++ act ++ [o']) ≡ₚ ids ((rest ++ [o]) ++ act).
Proof.
  intros Ho. rewrite !ids_app. cbn. rewrite Ho. rewrite <- !app_assoc.
  apply Permutation_app_head. apply Permutation_app_comm.
Qed.

Lemma ids_retire_at (pool act : list ObstacleManager.Obstacle) (i : nat)
    (o o' : ObstacleManager.Obstacle) :
  act !! i = Some o ->
  ObstacleManager.id o' = ObstacleManager.id o ->
  ids ((pool ++ [o']) ++ delete i act) ≡ₚ ids (pool ++ act).
Proof.
  intros Hi Ho. rewrite !ids_app. cbn. rewrite <- app_assoc.
  apply Permutation_app_head. cbn [app]. rewrite Ho.
  unfold ids. rewrite list_fmap_delete. symmetry.
  apply delete_Permutation. now rewrite list_lookup_fmap, Hi.
Qed.

Lemma ids_replace_at (pool act : list ObstacleManager.Obstacle) (i : nat)
    (o o' : ObstacleManager.Obstacle) :
  act !! i = Some o ->
  ObstacleManager.id o' = ObstacleManager.id o ->
  ids (pool ++ <[i := o']> act) = ids (pool ++ act).
Proof.
  intros Hi Ho. rewrite !ids_app. f_equal.
  unfold ids. rewrite list_fmap_insert, Ho.
  apply list_insert_id. now rewrite list_lookup_fmap, Hi.
Qed.

Lemma preloadObstacles_conserved (n : nat) (om : ObstacleManager.t) :
  conserved om -> conserved (ObstacleManager.preloadObstacles random n om).
Proof.
  revert om. induction n as [|n IH]; intros om H; [assumption|].
  cbn -[seq]. apply IH. unfold conserved in *. cbn -[seq].
  now apply ids_fresh_pool.
Qed.

Lemma new_conserved : conserved (ObstacleManager.new random).
Proof.
  unfold ObstacleManager.new. cbn -[ObstacleManager.preloadObstacles].
  apply preloadObstacles_conserved. unfold conserved. cbn. reflexivity.
Qed.

Lemma spawnObstacle_conserved (om : ObstacleManager.t) :
  conserved om -> conserved (ObstacleManager.spawnObstacle random setFromObject om).
Proof.
  unfold conserved, ObstacleManager.spawnObstacle. intros H.
  destruct (ObstacleManager.pop (ObstacleManager.obstaclePool om))
    as [[o rest]|] eqn:E; cbn -[seq].
  - apply pop_snoc in E. rewrite E in H. rewrite <- H.
    now apply ids_pool_to_active.
  - apply pop_None in E. rewrite E in *.
    now apply ids_fresh_active.
Qed.

(** The loop of [update] never reads past the end of the active list;
    it moves records between the two lists and touches nothing else. *)
Lemma update_loop_spec (k : nat) (om : ObstacleManager.t) :
  k <= length (ObstacleManager.activeObstacles om) ->
  exists om',
    ObstacleManager.update_loop setFromObject k om = Some om'
    /\ ids (ObstacleManager.obstaclePool om' ++ ObstacleManager.activeObstacles om')
       ≡ₚ ids (ObstacleManager.obstaclePool om ++ ObstacleManager.activeObstacles om)
    /\ ObstacleManager.created om' = ObstacleManager.created om
    /\ ObstacleManager.speed om' = ObstacleManager.speed om
    /\ ObstacleManager.nextSpawnTime om' = ObstacleManager.nextSpawnTime om
    /\ ObstacleManager.timeSinceLastSpawn om' = ObstacleManager.timeSinceLastSpawn om
    /\ ObstacleManager.draws om' = ObstacleManager.draws om.
Proof.
  revert om. induction k as [|i IH]; intros om Hk; simpl.
  - exists om. repeat split; reflexivity.
  - destruct (ObstacleManager.activeObstacles om !! i) as [o|] eqn:Eo.
    2:{ apply lookup_ge_None in Eo. lia. }
    simpl.
    match goal with
    | |- context [ObstacleManager.update_loop _ i ?s] => set (om1 := s)
    end.
    assert (i <= length (ObstacleManager.activeObstacles om1)
            /\ ids (ObstacleManager.obstaclePool om1 ++ ObstacleManager.activeObstacles om1)
               ≡ₚ ids (ObstacleManager.obstaclePool om ++ ObstacleManager.activeObstacles om)
            /\ ObstacleManager.created om1 = ObstacleManager.created om
            /\ ObstacleManager.speed om1 = ObstacleManager.speed om
            /\ ObstacleManager.nextSpawnTime om1 = ObstacleManager.nextSpawnTime om
            /\ ObstacleManager.timeSinceLastSpawn om1 = ObstacleManager.timeSinceLastSpawn om
            /\ ObstacleManager.draws om1 = ObstacleManager.draws om)
      as (Hlen & Hperm & Hc & Hs & Hn & Ht & Hd).
    { subst om1. destruct (gtb _ _); simpl.
      - split; [rewrite length_delete by eauto; lia|].
        split; [|repeat split; reflexivity].
        now apply (ids_retire_at _ _ i o).
      - split; [rewrite length_insert; lia|].
        split; [|repeat split; reflexivity].
        now rewrite (ids_replace_at _ _ i o). }
    destruct (IH om1 Hlen) as (om' & Hrun & Hperm' & Hc' & Hs' & Hn' & Ht' & Hd').
    exists om'. split; [assumption|].
    split; [now rewrite Hperm'|].
    repeat split; congruence.
Qed.

Lemma conserved_ext (om om' : ObstacleManager.t) :
  ObstacleManager.obstaclePool om' = ObstacleManager.obstaclePool om ->
  ObstacleManager.activeObstacles om' = ObstacleManager.activeObstacles om ->
  ObstacleManager.created om' = ObstacleManager.created om ->
  conserved om -> conserved om'.
Proof. unfold conserved. now intros -> -> ->. Qed.

Lemma spawnObstacle_speed (om : ObstacleManager.t) :
  ObstacleManager.speed (ObstacleManager.spawnObstacle random setFromObject om)
  = ObstacleManager.speed om.
Proof.
  unfold ObstacleManager.spawnObstacle.
  now destruct (ObstacleManager.pop (ObstacleManager.obstaclePool om)) as [[o rest]|].
Qed.

(** [update] always returns; the speed it leaves is the one of the
    score, and it keeps the pool conserved. *)
Lemma update_spec (deltaTime score : number) (om : ObstacleManager.t) :
  exists om',
    ObstacleManager.update random setFromObject deltaTime score om = Some om'
    /\ ObstacleManager.speed om' = speedAt score
    /\ (conserved om -> conserved om').
Proof.
  unfold ObstacleManager.update.
  match goal with
  | |- context [ObstacleManager.update_loop _ _ ?s] => set (om3 := s)
  end.
  assert (ObstacleManager.speed om3 = speedAt score
          /\ (conserved om -> conserved om3)) as [Hs3 Hc3].
  { subst om3. cbv zeta. destruct (geb _ _).
    - cbn -[ObstacleManager.spawnObstacle].
      split; [now rewrite spawnObstacle_speed|].
      intros H. eapply conserved_ext; [reflexivity..|].
      apply spawnObstacle_conserved.
      eapply conserved_ext; [reflexivity..|exact H].
    - split; [reflexivity|]. intros H.
      eapply conserved_ext; [reflexivity..|exact H]. }
  destruct (update_loop_spec (length (ObstacleManager.activeObstacles om3)) om3
              (le_n _)) as (om' & Hrun & Hperm & Hc & Hs & _).
  exists om'. split; [assumption|].
  split; [congruence|].
  intros H. unfold conserved in *. rewrite Hperm, Hc. auto.
Qed.

Lemma reset_conserved (om : ObstacleManager.t) :
  conserved om -> conserved (ObstacleManager.reset random om).
Proof.
  unfold conserved, ObstacleManager.reset. simpl. intros H.
  rewrite app_nil_r. rewrite <- H. rewrite !ids_app.
  apply Permutation_app_head. unfold ids.
  rewrite <- list_fmap_compose. reflexivity.
Qed.

Lemma run_calls_conserved (cs : list ManagerCall) (om : ObstacleManager.t) :
  conserved om ->
  exists om', run_calls random setFromObject cs om = Some om' /\ conserved om'.
Proof.
  revert om. induction cs as [|c cs IH]; intros om H; simpl; [eauto|].
  destruct c as [dt score|]; simpl.
  - destruct (update_spec dt score om) as (om1 & -> & _ & Hc). simpl. auto.
  - apply IH. now apply reset_conserved.
Qed.

(** C2: after any sequence of [update] and [reset] calls on a freshly
    built manager, the pool and the active list together hold as many
    records as were ever created, no record occurs twice or in both
    lists, and every record created is in one of them. *)
Theorem pool_conservation (cs : list ManagerCall) :
  exists om,
    run_calls random setFromObject cs (ObstacleManager.new random) = Some om
    /\ length (ObstacleManager.obstaclePool om)
       + length (ObstacleManager.activeObstacles om)
       = ObstacleManager.created om
    /\ NoDup (ids (ObstacleManager.obstaclePool om)
              ++ ids (ObstacleManager.activeObstacles om))
    /\ (forall i, i < ObstacleManager.created om <->
                  i ∈ ids (ObstacleManager.obstaclePool om)
                  \/ i ∈ ids (ObstacleManager.activeObstacles om))
    /\ (forall o, o ∈ ObstacleManager.obstaclePool om ->
                  ObstacleManager.id o ∉ ids (ObstacleManager.activeObstacles om)).
Proof.
  destruct (run_calls_conserved cs _ new_conserved) as (om & Hrun & H).
  exists om. split; [assumption|].
  unfold conserved in H. rewrite ids_app in H.
  assert (NoDup (ids (ObstacleManager.obstaclePool om)
                 ++ ids (ObstacleManager.activeObstacles om))) as Hnd.
  { rewrite H. apply NoDup_seq. }
  split.
  { apply Permutation_length in H. rewrite length_app, length_seq in H.
    unfold ids in H. now rewrite !length_fmap in H. }
  split; [assumption|].
  split.
  { intros i. rewrite <- elem_of_app. rewrite H. rewrite elem_of_seq. lia. }
  intros o Ho. apply NoDup_app in Hnd as (_ & Hd & _). apply Hd.
  unfold ids. apply list_elem_of_fmap. eauto.
Qed.

End ManagerFacts.


(** ** Resetting *)

Section ResetFacts.

Variable setFromObject : Player.Mesh -> THREE.Box3.
Variable random : nat -> number.

Lemma player_reset_twice (p : Player.t) :
  Player.reset setFromObject p ≫= Player.reset setFromObject
  = Player.reset setFromObject p.
Proof.
  destruct p as [[m|] c j f v ld cl]; [|reflexivity].
  destruct m as [pos rz ll rl la ra]. reflexivity.
Qed.

(** C8, as the code has it: a second [reset()] of the player changes
    nothing (and a reset of a player that has a mesh succeeds); a second
    [reset()] of the obstacle manager leaves the active list, the pool,
    every record, the speed, the spawn timer and the creation count as
    the first left them, but draws a new random [nextSpawnTime]. *)
Theorem reset_twice (p : Player.t) (om : ObstacleManager.t) :
  let once := ObstacleManager.reset random om in
  let twice := ObstacleManager.reset random once in
  Player.reset setFromObject p ≫= Player.reset setFromObject
  = Player.reset setFromObject p
  /\ match Player.mesh p with
     | Some _ => is_Some (Player.reset setFromObject p)
     | None => Player.reset setFromObject p = None
     end
  /\ ObstacleManager.activeObstacles twice = ObstacleManager.activeObstacles once
  /\ ObstacleManager.activeObstacles once = []
  /\ ObstacleManager.obstaclePool twice = ObstacleManager.obstaclePool once
  /\ ObstacleManager.speed twice = ObstacleManager.speed once
  /\ ObstacleManager.speed once = ObstacleManager.initialSpeed
  /\ ObstacleManager.timeSinceLastSpawn twice = ObstacleManager.timeSinceLastSpawn once
  /\ ObstacleManager.created twice = ObstacleManager.created once
  /\ ObstacleManager.nextSpawnTime once = spawnInterval (random (ObstacleManager.draws om))
  /\ ObstacleManager.nextSpawnTime twice
     = spawnInterval (random (S (ObstacleManager.draws om))).
Proof.
  intros once twice.
  split; [apply player_reset_twice|].
  split.
  { destruct p as [[m|] c j f v ld cl]; [|reflexivity]. cbn. eauto. }
  subst once twice. unfold ObstacleManager.reset. cbn.
  rewrite app_nil_r. repeat split; reflexivity.
Qed.

End ResetFacts.

(** C8 with [nextSpawnTime] counted fails for the obstacle manager:
    with random values 0.75 and then 0.25, one reset leaves
    [nextSpawnTime = 2.625] and a second one leaves 1.875. *)
Lemma manager_reset_twice_differs :
  let once := ObstacleManager.reset sample_random (ObstacleManager.new sample_random) in
  let twice := ObstacleManager.reset sample_random once in
  ObstacleManager.nextSpawnTime once = 2.625%float
  /\ ObstacleManager.nextSpawnTime twice = 1.875%float
  /\ ObstacleManager.nextSpawnTime twice <> ObstacleManager.nextSpawnTime once.
Proof.
  cbv zeta.
  assert (ObstacleManager.nextSpawnTime
            (ObstacleManager.reset sample_random (ObstacleManager.new sample_random))
          = 2.625%float) as H1 by (vm_compute; reflexivity).
  assert (ObstacleManager.nextSpawnTime
            (ObstacleManager.reset sample_random
               (ObstacleManager.reset sample_random (ObstacleManager.new sample_random)))
          = 1.875%float) as H2 by (vm_compute; reflexivity).
  rewrite H1, H2. repeat split.
  apply float_neq. vm_compute. discriminate.
Qed.


(** ** The jump arc *)

Section ArcFacts.

Variable setFromObject : Player.Mesh -> THREE.Box3.

Lemma update_vertical (p : Player.t) (m : Player.Mesh) :
  Player.mesh p = Some m ->
  exists q mq,
    Player.update setFromObject p = Some q
    /\ Player.mesh q = Some mq
    /\ vertical q mq = vertical_step (vertical p m).
Proof.
  intros Hm. destruct p as [pm c j f v ld cl]. simpl in Hm. subst pm.
  destruct m as [[px py pz] rz ll rl la ra].
  unfold Player.update, vertical, vertical_step. cbn.
  destruct j, f; cbn.
  all: unfold Player.airborne, Player.animateRunning, Player.returnToCenter; cbn.
  all: unfold gtb, geb.
  all: repeat match goal with
       | |- context [PrimFloat.leb ?a ?b] => destruct (PrimFloat.leb a b); cbn
       | |- context [PrimFloat.ltb ?a ?b] => destruct (PrimFloat.ltb a b); cbn
       end.
  all: eexists _, _; split; [reflexivity|split; reflexivity].
Qed.

Lemma repeat_update_vertical (n : nat) (p : Player.t) (m : Player.Mesh) :
  Player.mesh p = Some m ->
  exists q mq,
    repeat_call (Player.update setFromObject) n p = Some q
    /\ Player.mesh q = Some mq
    /\ vertical q mq = Nat.iter n vertical_step (vertical p m).
Proof.
  revert p m. induction n as [|n IH]; intros p m Hm.
  - exists p, m. auto.
  - destruct (update_vertical p m Hm) as (q & mq & Hq & Hmq & Hv).
    destruct (IH q mq Hmq) as (r & mr & Hr & Hmr & Hvr).
    exists r, mr. split.
    { cbn [repeat_call]. rewrite Hq. exact Hr. }
    split; [assumption|]. rewrite Hvr, Hv.
    symmetry. apply Nat.iter_succ_r.
Qed.

End ArcFacts.

Lemma Phase_eqb_eq (a b : Phase) : Phase_eqb a b = true -> a = b.
Proof. destruct a, b; (reflexivity || discriminate). Qed.

Lemma arc_check_all (n : nat) : n < 60 -> arc_check n = true.
Proof.
  intros Hn.
  assert (forallb arc_check (seq 0 60) = true) as H by (vm_compute; reflexivity).
  rewrite forallb_forall in H. apply H. apply in_seq. lia.
Qed.

Lemma landed_stays (n : nat) :
  59 <= n ->
  exists v, Nat.iter n vertical_step lift_off = mkVertical false false (Some v) 0.
Proof.
  induction 1 as [|n Hn [v IH]].
  - eexists. vm_compute. reflexivity.
  - exists v. rewrite Nat.iter_succ, IH. reflexivity.
Qed.

Section ArcTheorem.

Variable setFromObject : Player.Mesh -> THREE.Box3.

(** C3: from rest on the ground, [jump()] followed by [n] updates
    always succeeds; the player is Ascending until the 30th update
    (30 being [ceil(jumpForce / gravity)]), Descending from the 30th
    update until the 59th, and Grounded with vertical offset 0 from the
    59th update on; the vertical offset after every update is at least
    0. *)
Theorem jump_arc (p : Player.t) (m : Player.Mesh) :
  Player.mesh p = Some m ->
  phase p = Grounded ->
  THREE.y (Player.position m) = 0%float ->
  Math_ceil (Player.jumpForce / Player.gravity) = 30%float
  /\ forall n,
       exists q mq,
         repeat_call (Player.update setFromObject) n (Player.jump p) = Some q
         /\ Player.mesh q = Some mq
         /\ phase q = arc_phase n
         /\ PrimFloat.leb 0 (verticalOffset mq) = true
         /\ (59 <= n -> THREE.y (Player.position mq) = 0%float
                        /\ verticalOffset mq = 0%float).
Proof.
  intros Hm Hg Hy. split; [vm_compute; reflexivity|]. intros n.
  assert (Player.mesh (Player.jump p) = Some m
          /\ vertical (Player.jump p) m = lift_off) as [Hmj Hvj].
  { unfold phase in Hg. unfold Player.jump, vertical, lift_off.
    destruct p as [pm c j f v ld cl]. cbn in *.
    destruct j; [discriminate|]. destruct f; [discriminate|]. cbn.
    split; [assumption|]. now rewrite Hy. }
  destruct (repeat_update_vertical setFromObject n _ m Hmj)
    as (q & mq & Hq & Hmq & Hv).
  rewrite Hvj in Hv.
  exists q, mq. split; [assumption|]. split; [assumption|].
  assert (phase q = vertical_phase (vertical q mq)) as Hph by reflexivity.
  assert (verticalOffset mq
          = (v_y (vertical q mq) - THREE.y Player.home)%float) as Hoff by reflexivity.
  rewrite Hph, Hoff, Hv.
  destruct (Nat.lt_ge_cases n 60) as [Hlt|Hge].
  - pose proof (arc_check_all n Hlt) as Hc. unfold arc_check in Hc. cbv zeta in Hc.
    apply andb_prop in Hc as [Hc1 Hc2].
    split.
    { now apply Phase_eqb_eq. }
    split; [assumption|].
    intros H59. assert (n = 59) as -> by lia.
    rewrite <- Hv. change (THREE.y (Player.position mq)) with (v_y (vertical q mq)).
    rewrite Hv. split; vm_compute; reflexivity.
  - destruct (landed_stays n ltac:(lia)) as [v Hl]. rewrite Hl.
    split.
    { unfold arc_phase. destruct (Nat.ltb_spec n 30); [lia|].
      destruct (Nat.ltb_spec n 59); [lia|]. reflexivity. }
    split; [vm_compute; reflexivity|].
    intros _. change (THREE.y (Player.position mq)) with (v_y (vertical q mq)).
    rewrite Hv, Hl. split; reflexivity.
Qed.

(** A refused move leaves the player as it is, however often it is
    repeated. *)
Lemma repeat_call_fixed (f : Player.t -> option Player.t) (p : Player.t) (n : nat) :
  f p = Some p -> repeat_call f n p = Some p.
Proof.
  intros H. induction n as [|n IH]; [reflexivity|].
  cbn [repeat_call]. rewrite H. exact IH.
Qed.

Lemma repeat_call_add (f : Player.t -> option Player.t) (p q : Player.t) (a b : nat) :
  repeat_call f a p = Some q -> repeat_call f (a + b) p = repeat_call f b q.
Proof.
  revert p. induction a as [|a IH]; intros p H; cbn [repeat_call Nat.add] in *.
  - now injection H as ->.
  - destruct (f p) as [r|]; [|discriminate]. cbn in *. now apply IH.
Qed.

(** C4 at the failing input: eleven [moveLeft()] calls on a new player
    bring it to x = -3.2999999999999994, beyond [-maxLateralPosition];
    ten calls leave it at -2.9999999999999996, which still passes the
    guard [x > -3].  Every further call is refused, so the player stays
    there.  The same happens on the right. *)
Theorem moveLeft_overshoots :
  exists p10 m10 p11 m11 q11 n11,
    repeat_call (Player.moveLeft setFromObject) 10 (Player.new setFromObject) = Some p10
    /\ Player.mesh p10 = Some m10
    /\ lateralOffset m10 = (-2.9999999999999996)%float
    /\ gtb (lateralOffset m10) (- Player.maxLateralPosition) = true
    /\ Player.moveLeft setFromObject p10 = Some p11
    /\ Player.mesh p11 = Some m11
    /\ lateralOffset m11 = (-3.2999999999999994)%float
    /\ PrimFloat.ltb (lateralOffset m11) (- Player.maxLateralPosition) = true
    /\ (forall n, 11 <= n ->
         repeat_call (Player.moveLeft setFromObject) n (Player.new setFromObject)
         = Some p11)
    /\ repeat_call (Player.moveRight setFromObject) 11 (Player.new setFromObject) = Some q11
    /\ Player.mesh q11 = Some n11
    /\ lateralOffset n11 = 3.2999999999999994%float
    /\ PrimFloat.ltb Player.maxLateralPosition (lateralOffset n11) = true.
Proof.
  eexists _, _, _, _, _, _.
  split; [vm_compute; reflexivity|].
  split; [reflexivity|].
  split; [vm_compute; reflexivity|].
  split; [vm_compute; reflexivity|].
  split; [vm_compute; reflexivity|].
  split; [reflexivity|].
  split; [vm_compute; reflexivity|].
  split; [vm_compute; reflexivity|].
  split.
  { intros n Hn. replace n with (11 + (n - 11)) by lia.
    erewrite repeat_call_add; [|vm_compute; reflexivity].
    apply repeat_call_fixed. vm_compute. reflexivity. }
  split; [vm_compute; reflexivity|].
  split; [reflexivity|].
  split; vm_compute; reflexivity.
Qed.

End ArcTheorem.

(** The jump arc of a new player under the upright bounds. *)
Lemma jump_arc_witness :
  Math_ceil (Player.jumpForce / Player.gravity) = 30%float
  /\ forall n,
       exists q mq,
         repeat_call (Player.update upright_bounds) n
           (Player.jump (Player.new upright_bounds)) = Some q
         /\ Player.mesh q = Some mq
         /\ phase q = arc_phase n
         /\ PrimFloat.leb 0 (verticalOffset mq) = true
         /\ (59 <= n -> THREE.y (Player.position mq) = 0%float
                        /\ verticalOffset mq = 0%float).
Proof.
  exact (jump_arc upright_bounds (Player.new upright_bounds)
           (Player.mkMesh Player.home 0 0 0 0 0) eq_refl eq_refl eq_refl).
Defined.


(** ** The speed ramp *)

Lemma speedAt_mono (s1 s2 : number) :
  PrimFloat.leb 0 s1 = true -> PrimFloat.leb s1 s2 = true ->
  PrimFloat.leb (speedAt s1) (speedAt s2) = true.
Proof.
  intros H0 H12. unfold speedAt.
  destruct (mul_le_mono_pos s1 s2 ObstacleManager.speedIncreaseRate
              ltac:(vm_compute; reflexivity) H0 H12) as [_ Hm].
  apply (add_le_mono ObstacleManager.initialSpeed ObstacleManager.initialSpeed);
    [vm_compute; reflexivity..|exact Hm].
Qed.

(** C7: every [update(dt, score)] returns and leaves
    [speed = initialSpeed + score * speedIncreaseRate], with
    [initialSpeed = 0.2] and [speedIncreaseRate = 0.00001]; that speed
    does not decrease when a score of at least 0 grows, and it is
    [initialSpeed] at score 0. *)
Theorem speed_follows_score (random : nat -> number)
    (setFromObject : ObstacleManager.Mesh -> THREE.Box3) :
  (forall (om : ObstacleManager.t) (deltaTime score : number),
     exists om',
       ObstacleManager.update random setFromObject deltaTime score om = Some om'
       /\ ObstacleManager.speed om'
          = (ObstacleManager.initialSpeed
             + score * ObstacleManager.speedIncreaseRate)%float)
  /\ ObstacleManager.initialSpeed = 0.2%float
  /\ ObstacleManager.speedIncreaseRate = 0.00001%float
  /\ (forall s1 s2 : number,
        PrimFloat.leb 0 s1 = true -> PrimFloat.leb s1 s2 = true ->
        PrimFloat.leb (speedAt s1) (speedAt s2) = true)
  /\ speedAt 0 = ObstacleManager.initialSpeed
  /\ speedAt (-0) = ObstacleManager.initialSpeed.
Proof.
  split.
  { intros om dt score.
    destruct (update_spec random setFromObject dt score om) as (om' & H & Hs & _).
    exists om'. split; [assumption|]. exact Hs. }
  split; [reflexivity|]. split; [reflexivity|].
  split; [exact speedAt_mono|].
  split; vm_compute; reflexivity.
Qed.

(** ** The tilt angle *)

Lemma tilt_ok_fin (r : number) : tilt_ok r -> fin r = true.
Proof.
  intros [H1 H2]. apply (fin_between (-0.2) 0.2); auto; vm_compute; reflexivity.
Qed.

Lemma tilt_left (r : number) : tilt_ok r -> tilt_ok (Math_min (r + 0.05) 0.2).
Proof.
  intros Hr. pose proof (tilt_ok_fin r Hr) as Fr. destruct Hr as [Hlo Hhi].
  assert (PrimFloat.leb (-0.2) (r + 0.05) = true) as Hs.
  { apply leb_trans with (-0.2 + 0.05)%float; [vm_compute; reflexivity|].
    apply (add_le_mono (-0.2) r 0.05 0.05); auto; vm_compute; reflexivity. }
  destruct (leb_pos _ _ Hs) as (_ & Ns & _).
  destruct (Math_min_cases (r + 0.05) 0.2 Ns ltac:(vm_compute; reflexivity))
    as [[-> H]|[-> H]].
  - split; assumption.
  - split; vm_compute; reflexivity.
Qed.

Lemma tilt_right (r : number) : tilt_ok r -> tilt_ok (Math_max (r - 0.05) (-0.2)).
Proof.
  intros Hr. pose proof (tilt_ok_fin r Hr) as Fr. destruct Hr as [Hlo Hhi].
  assert (PrimFloat.leb (r - 0.05) 0.2 = true) as Hs.
  { apply leb_trans with (0.2 - 0.05)%float; [|vm_compute; reflexivity].
    apply (sub_le_mono r 0.2 0.05 0.05); auto; vm_compute; reflexivity. }
  destruct (leb_pos _ _ Hs) as (Ns & _ & _).
  destruct (Math_max_cases (r - 0.05) (-0.2) Ns ltac:(vm_compute; reflexivity))
    as [[-> H]|[-> H]].
  - split; assumption.
  - split; vm_compute; reflexivity.
Qed.

(** The decay step gives a value between 0 and the old angle. *)
Lemma decay_towards_zero (r : number) : tilt_ok r -> towards_zero r (decay r).
Proof.
  intros Hr. pose proof (tilt_ok_fin r Hr) as Fr. destruct Hr as [Hlo Hhi].
  pose proof (fin_not_nan r Fr) as Nr.
  unfold decay, gtb.
  destruct (PrimFloat.ltb 0.01 r) eqn:E1.
  { apply ltb_pos in E1 as (_ & _ & E1).
    assert (PrimFloat.leb 0.01 r = true) as H1
      by (apply pos_leb; [vm_compute; reflexivity|assumption|lia]).
    assert (PrimFloat.leb 0 (r - 0.01) = true) as Hz.
    { apply leb_trans with (0.01 - 0.01)%float; [vm_compute; reflexivity|].
      apply (sub_le_mono 0.01 r 0.01 0.01); auto; vm_compute; reflexivity. }
    assert (PrimFloat.leb (r - 0.01) r = true) as Hd
      by (apply sub_le_self; [assumption|vm_compute; reflexivity]).
    split; intros H; [split; assumption|].
    apply leb_pos in H as (_ & _ & H). change (pos 0) with 0%Z in H.
    assert (0 < pos 0.01)%Z by (vm_compute; reflexivity). lia. }
  destruct (PrimFloat.ltb r (-0.01)) eqn:E2.
  { apply ltb_pos in E2 as (_ & _ & E2).
    assert (PrimFloat.leb r (-0.01) = true) as H1
      by (apply pos_leb; [assumption|vm_compute; reflexivity|lia]).
    assert (PrimFloat.leb (r + 0.01) 0 = true) as Hz.
    { apply leb_trans with (-0.01 + 0.01)%float; [|vm_compute; reflexivity].
      apply (add_le_mono r (-0.01) 0.01 0.01); auto; vm_compute; reflexivity. }
    assert (PrimFloat.leb r (r + 0.01) = true) as Hd
      by (apply add_ge_self; [assumption|vm_compute; reflexivity]).
    split; intros H; [|split; assumption].
    apply leb_pos in H as (_ & _ & H). change (pos 0) with 0%Z in H.
    assert (pos (-0.01) < 0)%Z by (vm_compute; reflexivity). lia. }
  split; intros H; (split; [assumption || (vm_compute; reflexivity)|]);
    assumption || (vm_compute; reflexivity).
Qed.

Lemma tilt_decay (r : number) : tilt_ok r -> tilt_ok (decay r).
Proof.
  intros Hr. pose proof (decay_towards_zero r Hr) as [Hp Hn].
  pose proof (tilt_ok_fin r Hr) as Fr. pose proof (fin_not_nan r Fr) as Nr.
  destruct Hr as [Hlo Hhi].
  destruct (PrimFloat.leb 0 r) eqn:E.
  - destruct (Hp eq_refl) as [H1 H2]. split.
    + apply leb_trans with 0%float; [vm_compute; reflexivity|assumption].
    + now apply leb_trans with r.
  - assert (PrimFloat.leb r 0 = true) as E'.
    { apply pos_leb; [assumption|reflexivity|].
      rewrite leb_spec, SFleb_ord in E
        by (auto using Prim2SF_valid; reflexivity).
      apply Z.leb_gt in E. change (ord (Prim2SF 0)) with 0%Z in E.
      unfold pos. change (ord (Prim2SF 0)) with 0%Z. lia. }
    destruct (Hn E') as [H1 H2]. split.
    + now apply leb_trans with r.
    + apply leb_trans with 0%float; [assumption|vm_compute; reflexivity].
Qed.

Section TiltFacts.

Variable setFromObject : Player.Mesh -> THREE.Box3.

Lemma update_tilt (p : Player.t) (m : Player.Mesh) :
  Player.mesh p = Some m ->
  exists q mq,
    Player.update setFromObject p = Some q
    /\ Player.mesh q = Some mq
    /\ Player.rotation_z mq = decay (Player.rotation_z m).
Proof.
  intros Hm. destruct p as [pm c j f v ld cl]. simpl in Hm. subst pm.
  destruct m as [[px py pz] rz ll rl la ra].
  unfold Player.update, decay. cbn.
  destruct j, f; cbn.
  all: unfold Player.airborne, Player.animateRunning, Player.returnToCenter; cbn.
  all: unfold gtb, geb.
  all: repeat match goal with
       | |- context [PrimFloat.leb ?a ?b] => destruct (PrimFloat.leb a b); cbn
       | |- context [PrimFloat.ltb ?a ?b] => destruct (PrimFloat.ltb a b); cbn
       end.
  all: eexists _, _; split; [reflexivity|split; reflexivity].
Qed.

Lemma call_keeps_tilt (c : PlayerCall) (p : Player.t) (m : Player.Mesh) :
  Player.mesh p = Some m -> tilt_ok (Player.rotation_z m) ->
  exists q mq,
    run_player_call setFromObject c p = Some q
    /\ Player.mesh q = Some mq
    /\ tilt_ok (Player.rotation_z mq).
Proof.
  intros Hm Hr. destruct c; cbn [run_player_call].
  - exists (Player.jump p), m. split; [reflexivity|]. split; [|assumption].
    unfold Player.jump. now destruct (negb _ && negb _).
  - destruct (update_tilt p m Hm) as (q & mq & H & Hq & Hz).
    exists q, mq. split; [assumption|]. split; [assumption|].
    rewrite Hz. now apply tilt_decay.
  - unfold Player.moveLeft. rewrite Hm. cbn.
    match goal with |- context [if ?b then _ else _] => destruct b end.
    + eexists _, _. split; [reflexivity|]. split; [reflexivity|].
      cbn. now apply tilt_left.
    + eauto.
  - unfold Player.moveRight. rewrite Hm. cbn.
    match goal with |- context [if ?b then _ else _] => destruct b end.
    + eexists _, _. split; [reflexivity|]. split; [reflexivity|].
      cbn. now apply tilt_right.
    + eauto.
  - unfold Player.reset. cbn. rewrite Hm. cbn.
    eexists _, _. split; [reflexivity|]. split; [reflexivity|].
    cbn. split; vm_compute; reflexivity.
  - unfold Player.updateCollider. rewrite Hm. cbn.
    eexists _, m. split; [reflexivity|]. split; [exact Hm|assumption].
Qed.

Lemma calls_keep_tilt (cs : list PlayerCall) (p : Player.t) (m : Player.Mesh) :
  Player.mesh p = Some m -> tilt_ok (Player.rotation_z m) ->
  exists q mq,
    run_player_calls setFromObject cs p = Some q
    /\ Player.mesh q = Some mq
    /\ tilt_ok (Player.rotation_z mq).
Proof.
  revert p m. induction cs as [|c cs IH]; intros p m Hm Hr; cbn [run_player_calls].
  - eauto.
  - destruct (call_keeps_tilt c p m Hm Hr) as (q & mq & -> & Hq & Hz). cbn.
    eauto.
Qed.

(** C9: whatever sequence of [jump], [update], [moveLeft], [moveRight],
    [reset] and [updateCollider] calls a new player receives, every
    call returns and the tilt angle [mesh.rotation.z] stays within
    [-0.2, 0.2].  On an angle in that interval, the step of [moveLeft]
    stays at or below 0.2, the step of [moveRight] at or above -0.2,
    and the decay of [update] gives an angle between 0 and the old one
    (the old one less 0.01, or plus 0.01, or 0); [reset] sets the
    angle to 0. *)
Theorem tilt_stays_bounded (cs : list PlayerCall) :
  (exists q mq,
     run_player_calls setFromObject cs (Player.new setFromObject) = Some q
     /\ Player.mesh q = Some mq
     /\ PrimFloat.leb (-0.2) (Player.rotation_z mq) = true
     /\ PrimFloat.leb (Player.rotation_z mq) 0.2 = true)
  /\ (forall r : number,
        tilt_ok r ->
        tilt_ok (Math_min (r + 0.05) 0.2)
        /\ tilt_ok (Math_max (r - 0.05) (-0.2))
        /\ tilt_ok (decay r)
        /\ towards_zero r (decay r)
        /\ (decay r = (r - 0.01)%float \/ decay r = (r + 0.01)%float
            \/ decay r = 0%float))
  /\ (forall (p : Player.t) (m : Player.Mesh),
        Player.mesh p = Some m ->
        exists q mq,
          Player.reset setFromObject p = Some q
          /\ Player.mesh q = Some mq
          /\ Player.rotation_z mq = 0%float).
Proof.
  split.
  - destruct (calls_keep_tilt cs (Player.new setFromObject)
                (Player.mkMesh Player.home 0 0 0 0 0) eq_refl)
      as (q & mq & H & Hq & Hlo & Hhi); [split; vm_compute; reflexivity|].
    eauto 6.
  - split.
    + intros r Hr.
      split; [now apply tilt_left|]. split; [now apply tilt_right|].
      split; [now apply tilt_decay|]. split; [now apply decay_towards_zero|].
      unfold decay. destruct (gtb r 0.01); [auto|].
      destruct (PrimFloat.ltb r (-0.01)); auto.
    + intros p m Hm. unfold Player.reset. cbn. rewrite Hm. cbn.
      eexists _, _. split; [reflexivity|]. split; reflexivity.
Qed.

End TiltFacts.

(** ** The poses a player can reach *)

Lemma mem_In (x : number) (l : list number) : mem x l = true -> In x l.
Proof.
  unfold mem. rewrite existsb_exists. intros (y & Hy & Heq).
  apply FloatAxioms.Leibniz.eqb_spec in Heq. now subst y.
Qed.

Lemma lateral_values_closed (x : number) :
  In x lateral_values ->
  In (step_left x) lateral_values /\ In (step_right x) lateral_values.
Proof.
  intros Hx.
  assert (lateral_closed = true) as H by (vm_compute; reflexivity).
  unfold lateral_closed in H. rewrite forallb_forall in H.
  apply H, andb_prop in Hx. destruct Hx. split; now apply mem_In.
Qed.

Lemma lateral_values_bounded (x : number) :
  In x lateral_values ->
  PrimFloat.leb (- lateral_reach) x = true /\ PrimFloat.leb x lateral_reach = true.
Proof.
  intros Hx.
  assert (lateral_bounded = true) as H by (vm_compute; reflexivity).
  unfold lateral_bounded in H. rewrite forallb_forall in H.
  apply H, andb_prop in Hx. exact Hx.
Qed.

(** A sequence of iterates that returns to an earlier one only ever
    visits the iterates before the return. *)
Lemma iter_cycle {A} (f : A -> A) (s : A) (a b : nat) :
  0 < b -> Nat.iter (a + b) f s = Nat.iter a f s ->
  forall n, exists k, k < a + b /\ Nat.iter n f s = Nat.iter k f s.
Proof.
  intros Hb Hc n. induction n as [n IH] using lt_wf_ind.
  destruct (Nat.lt_ge_cases n (a + b)) as [Hn|Hn].
  - exists n. auto.
  - destruct (IH (n - b)) as (k & Hk & E); [lia|].
    exists k. split; [assumption|]. rewrite <- E.
    assert (forall j, Nat.iter (j + (a + b)) f s = Nat.iter (j + a) f s) as Hj.
    { induction j as [|j IHj]; [exact Hc|].
      rewrite !Nat.add_succ_l, !Nat.iter_succ. now rewrite IHj. }
    transitivity (Nat.iter ((n - (a + b)) + (a + b)) f s); [f_equal; lia|].
    rewrite Hj. f_equal. lia.
Qed.

Lemma Gait_eqb_eq (a b : Gait) : Gait_eqb a b = true -> a = b.
Proof.
  destruct a, b. unfold Gait_eqb. cbn.
  rewrite !andb_true_iff, !FloatAxioms.Leibniz.eqb_spec.
  intros [[[[[-> ->] ->] ->] ->] ->]. reflexivity.
Qed.

Lemma gait_orbit (n : nat) : gait_check (Nat.iter n gait_step gait_start) = true.
Proof.
  assert (Nat.iter (4 + 32) gait_step gait_start = Nat.iter 4 gait_step gait_start) as Hc.
  { apply Gait_eqb_eq. vm_compute. reflexivity. }
  destruct (iter_cycle gait_step gait_start 4 32 ltac:(lia) Hc n) as (k & Hk & ->).
  assert (forallb (fun k => gait_check (Nat.iter k gait_step gait_start)) (seq 0 36) = true)
    as H by (vm_compute; reflexivity).
  rewrite forallb_forall in H. apply H, in_seq. lia.
Qed.

Lemma arc_airborne (n : nat) :
  n < 59 -> airborne_check (Nat.iter n vertical_step lift_off) = true.
Proof.
  intros Hn.
  assert (forallb (fun k => airborne_check (Nat.iter k vertical_step lift_off)) (seq 0 59) = true)
    as H by (vm_compute; reflexivity).
  rewrite forallb_forall in H. apply H, in_seq. lia.
Qed.

Lemma vertical_step_ok (s : Vertical) : vertical_ok s -> vertical_ok (vertical_step s).
Proof.
  intros [(Hj & Hf & Hy)|(n & Hn & ->)].
  - left. unfold vertical_step. rewrite Hj, Hf. cbn. auto.
  - rewrite <- Nat.iter_succ.
    destruct (Nat.eq_dec n 58) as [->|Hne].
    + left. vm_compute. auto.
    + right. exists (S n). split; [lia|reflexivity].
Qed.

Section ReachFacts.

Variable setFromObject : Player.Mesh -> THREE.Box3.

(** Everything one [update] does to a player that has a mesh. *)
Lemma update_effect (p : Player.t) (m : Player.Mesh) :
  Player.mesh p = Some m ->
  exists q mq,
    Player.update setFromObject p = Some q
    /\ Player.mesh q = Some mq
    /\ Player.collider q = Some (Player.colliderOf setFromObject mq)
    /\ lateralOffset mq = lateralOffset m
    /\ THREE.z (Player.position mq) = THREE.z (Player.position m)
    /\ vertical q mq = vertical_step (vertical p m)
    /\ gait q mq = (if Player.isJumping p || Player.isFalling p
                    then gait p m else gait_step (gait p m))
    /\ Player.rotation_z mq = decay (Player.rotation_z m).
Proof.
  intros Hm. destruct p as [pm c j f v ld cl]. simpl in Hm. subst pm.
  destruct m as [[px py pz] rz ll rl la ra].
  unfold Player.update, vertical, vertical_step, gait, gait_step, decay. cbn.
  destruct j, f; cbn.
  all: unfold Player.airborne, Player.animateRunning, Player.returnToCenter; cbn.
  all: unfold gtb, geb.
  all: repeat match goal with
       | |- context [PrimFloat.leb ?a ?b] => destruct (PrimFloat.leb a b); cbn
       | |- context [PrimFloat.ltb ?a ?b] => destruct (PrimFloat.ltb a b); cbn
       end.
  all: eexists _, _; split; [reflexivity|]; repeat (split; [reflexivity|]); reflexivity.
Qed.

Lemma jump_vertical_ok (p : Player.t) (m : Player.Mesh) :
  vertical_ok (vertical p m) -> vertical_ok (vertical (Player.jump p) m).
Proof.
  intros H. unfold Player.jump.
  destruct (negb (Player.isJumping p) && negb (Player.isFalling p)) eqn:E;
    [|assumption].
  apply andb_prop in E. destruct E as [Ej Ef].
  apply negb_true_iff in Ej, Ef.
  destruct H as [(Hj & Hf & Hy)|(n & Hn & Hs)].
  - right. exists 0. split; [lia|].
    unfold vertical in *. cbn in *. rewrite Hy, Ef. reflexivity.
  - right. exists 0. split; [lia|].
    pose proof (arc_airborne n Hn) as Hc. rewrite <- Hs in Hc.
    unfold airborne_check, vertical in Hc. cbn in Hc.
    rewrite Ej, Ef in Hc. discriminate.
Qed.

Lemma call_keeps_pose (c : PlayerCall) (p : Player.t) (m : Player.Mesh) :
  reachable_pose setFromObject p m ->
  exists q mq,
    run_player_call setFromObject c p = Some q
    /\ reachable_pose setFromObject q mq.
Proof.
  intros (Hm & Hc & Hx & Hz & Hv & Hg). destruct c; cbn [run_player_call].
  - exists (Player.jump p), m. split; [reflexivity|].
    assert (Player.mesh (Player.jump p) = Some m) as Hm'.
    { unfold Player.jump. now destruct (negb _ && negb _). }
    split; [assumption|]. split; [now apply jump_fresh|].
    split; [assumption|]. split; [assumption|].
    split; [now apply jump_vertical_ok|].
    destruct Hg as [n Hn]. exists n. rewrite <- Hn.
    unfold Player.jump. now destruct (negb _ && negb _).
  - destruct (update_effect p m Hm) as (q & mq & H & Hq & Hcq & Hxq & Hzq & Hvq & Hgq & _).
    exists q, mq. split; [assumption|]. split; [assumption|].
    split; [unfold fresh; now rewrite Hq, Hcq|].
    split; [now rewrite Hxq|]. split; [now rewrite Hzq|].
    split; [rewrite Hvq; now apply vertical_step_ok|].
    destruct Hg as [n Hn]. rewrite Hgq.
    destruct (Player.isJumping p || Player.isFalling p).
    + now exists n.
    + exists (S n). now rewrite Hn.
  - destruct (lateral_values_closed _ Hx) as [Hl _].
    unfold step_left, lateralOffset in Hl.
    unfold Player.moveLeft. rewrite Hm. cbn -[gtb PrimFloat.opp PrimFloat.ltb].
    destruct (gtb (THREE.x (Player.position m)) (- Player.maxLateralPosition)).
    + eexists _, _. split; [reflexivity|].
      split; [reflexivity|]. split; [reflexivity|]. split; [exact Hl|].
      split; [exact Hz|]. split; [exact Hv|exact Hg].
    + exists p, m. split; [reflexivity|]. repeat (split; [assumption|]). assumption.
  - destruct (lateral_values_closed _ Hx) as [_ Hr].
    unfold step_right, lateralOffset in Hr.
    unfold Player.moveRight. rewrite Hm. cbn -[gtb PrimFloat.opp PrimFloat.ltb].
    destruct (PrimFloat.ltb (THREE.x (Player.position m)) Player.maxLateralPosition).
    + eexists _, _. split; [reflexivity|].
      split; [reflexivity|]. split; [reflexivity|]. split; [exact Hr|].
      split; [exact Hz|]. split; [exact Hv|exact Hg].
    + exists p, m. split; [reflexivity|]. repeat (split; [assumption|]). assumption.
  - unfold Player.reset. cbn. rewrite Hm. cbn.
    eexists _, _. split; [reflexivity|].
    split; [reflexivity|]. split; [reflexivity|].
    split; [apply mem_In; vm_compute; reflexivity|]. split; [reflexivity|].
    split; [left; cbn; auto|exact Hg].
  - unfold Player.updateCollider. rewrite Hm. cbn.
    eexists _, m. split; [reflexivity|].
    split; [exact Hm|]. split; [unfold fresh; cbn; now rewrite Hm|].
    split; [exact Hx|]. split; [exact Hz|]. split; [exact Hv|exact Hg].
Qed.

Lemma new_pose :
  reachable_pose setFromObject (Player.new setFromObject)
                 (Player.mkMesh Player.home 0 0 0 0 0).
Proof.
  split; [reflexivity|]. split; [apply new_fresh|].
  split; [apply mem_In; vm_compute; reflexivity|]. split; [reflexivity|].
  split; [left; cbn; auto|]. now exists 0.
Qed.

Lemma calls_keep_pose (cs : list PlayerCall) (p : Player.t) (m : Player.Mesh) :
  reachable_pose setFromObject p m ->
  exists q mq,
    run_player_calls setFromObject cs p = Some q
    /\ reachable_pose setFromObject q mq.
Proof.
  revert p m. induction cs as [|c cs IH]; intros p m Hp; cbn [run_player_calls].
  - eauto.
  - destruct (call_keeps_pose c p m Hp) as (q & mq & -> & Hq). cbn. eauto.
Qed.

End ReachFacts.

(** ** What holds of a player after any sequence of calls *)

Section ReachTheorems.

Variable setFromObject : Player.Mesh -> THREE.Box3.

(** X1: whatever sequence of [jump], [update], [moveLeft],
    [moveRight], [reset] and [updateCollider] calls a new player
    receives, every call returns, the lateral position [mesh.position.x]
    stays within 3.2999999999999994 of the centre (one step of
    [lateralSpeed] beyond [maxLateralPosition], less the rounding), and
    the forward position [mesh.position.z] stays 5. *)
Theorem lateral_position_bounded (cs : list PlayerCall) :
  exists q mq,
    run_player_calls setFromObject cs (Player.new setFromObject) = Some q
    /\ Player.mesh q = Some mq
    /\ PrimFloat.leb (-3.2999999999999994) (lateralOffset mq) = true
    /\ PrimFloat.leb (lateralOffset mq) 3.2999999999999994 = true
    /\ THREE.z (Player.position mq) = 5%float.
Proof.
  destruct (calls_keep_pose setFromObject cs _ _ (new_pose setFromObject))
    as (q & mq & H & Hm & _ & Hx & Hz & _).
  exists q, mq. split; [assumption|]. split; [assumption|].
  destruct (lateral_values_bounded _ Hx) as [Hlo Hhi].
  split; [exact Hlo|]. split; [exact Hhi|exact Hz].
Qed.

(** X2: after any sequence of calls on a new player, the flags
    [isJumping] and [isFalling] are never both set, the height above
    the ground lies between 0 and 2.174999999999998, a grounded player
    stands exactly at the ground height, and a player in the air has a
    numeric [jumpVelocity] between -0.15 and 0.15. *)
Theorem vertical_state_consistent (cs : list PlayerCall) :
  exists q mq,
    run_player_calls setFromObject cs (Player.new setFromObject) = Some q
    /\ Player.mesh q = Some mq
    /\ Player.isJumping q && Player.isFalling q = false
    /\ PrimFloat.leb 0 (verticalOffset mq) = true
    /\ PrimFloat.leb (verticalOffset mq) 2.174999999999998 = true
    /\ (phase q = Grounded ->
        THREE.y (Player.position mq) = THREE.y Player.home)
    /\ (phase q <> Grounded ->
        exists v, Player.jumpVelocity q = Some v
                  /\ PrimFloat.leb (-0.15) v = true
                  /\ PrimFloat.leb v 0.15 = true).
Proof.
  destruct (calls_keep_pose setFromObject cs _ _ (new_pose setFromObject))
    as (q & mq & H & Hm & _ & _ & _ & Hv & _).
  exists q, mq. split; [assumption|]. split; [assumption|].
  destruct Hv as [(Hj & Hf & Hy)|(n & Hn & Hs)].
  - unfold vertical in *. cbn in *. unfold phase, verticalOffset.
    rewrite Hj, Hf, Hy. cbn.
    split; [reflexivity|]. split; [reflexivity|]. split; [reflexivity|].
    split; [reflexivity|]. intros C. now contradiction C.
  - pose proof (arc_airborne n Hn) as Hc. rewrite <- Hs in Hc.
    unfold airborne_check, vertical in Hc. cbn in Hc.
    unfold phase, verticalOffset.
    destruct (Player.jumpVelocity q) as [v|]; [|now rewrite andb_false_r in Hc].
    apply andb_prop in Hc as [Hc Hhi]. apply andb_prop in Hc as [Hc Hlo].
    apply andb_prop in Hc as [Hx Hvv]. apply andb_prop in Hvv as [Hv1 Hv2].
    split; [now destruct (Player.isJumping q), (Player.isFalling q)|].
    split; [exact Hlo|]. split; [exact Hhi|].
    split.
    + destruct (Player.isJumping q), (Player.isFalling q);
        (discriminate || reflexivity).
    + intros _. exists v. split; [reflexivity|]. split; [exact Hv1|exact Hv2].
Qed.

(** X3: after any sequence of calls on a new player, the stored
    collider is the one computed from the current pose of the mesh;
    hence a collision check on such a player, against any obstacle
    manager, returns and leaves player and obstacles exactly as they
    were. *)
Theorem collider_follows_pose (cs : list PlayerCall) (om : ObstacleManager.t) :
  exists q mq,
    run_player_calls setFromObject cs (Player.new setFromObject) = Some q
    /\ Player.mesh q = Some mq
    /\ Player.collider q = Some (Player.colliderOf setFromObject mq)
    /\ exists hit,
         CollisionDetector.checkCollisions setFromObject (CollisionDetector.mk q om)
         = Some (hit, CollisionDetector.mk q om).
Proof.
  destruct (calls_keep_pose setFromObject cs _ _ (new_pose setFromObject))
    as (q & mq & H & Hm & Hc & _).
  exists q, mq. split; [assumption|]. split; [assumption|].
  unfold fresh in Hc. rewrite Hm in Hc. cbn in Hc.
  split; [exact Hc|].
  destruct (checkCollisions_refreshes setFromObject (CollisionDetector.mk q om)
              mq _ Hm Hc) as [hit Hhit].
  exists hit. rewrite Hhit. cbn. do 3 f_equal.
  destruct q; cbn in *. now rewrite Hc.
Qed.

(** X4: after any sequence of calls on a new player, the swing angle
    [currentLegRotation] is within 0.7999999999999999 of zero (so it
    passes [maxLegRotation], which is about 0.785), the swing direction
    is 1 or -1, the left leg carries the swing angle, the right leg
    the opposite angle, and the arms swing against the legs with half
    the angle. *)
Theorem running_animation_bounded (cs : list PlayerCall) :
  exists q mq,
    run_player_calls setFromObject cs (Player.new setFromObject) = Some q
    /\ Player.mesh q = Some mq
    /\ PrimFloat.leb (Math_abs (Player.currentLegRotation q)) 0.7999999999999999 = true
    /\ (Player.legRotationDirection q = 1%float
        \/ Player.legRotationDirection q = (-1)%float)
    /\ Player.leftLeg_rotation_x mq = Player.currentLegRotation q
    /\ PrimFloat.eqb (Player.rightLeg_rotation_x mq)
                     (- Player.leftLeg_rotation_x mq) = true
    /\ PrimFloat.eqb (Player.leftArm_rotation_x mq)
                     (Player.rightLeg_rotation_x mq * 0.5) = true
    /\ PrimFloat.eqb (Player.rightArm_rotation_x mq)
                     (Player.leftLeg_rotation_x mq * 0.5) = true.
Proof.
  destruct (calls_keep_pose setFromObject cs _ _ (new_pose setFromObject))
    as (q & mq & H & Hm & _ & _ & _ & _ & n & Hg).
  exists q, mq. split; [assumption|]. split; [assumption|].
  pose proof (gait_orbit n) as Hc. rewrite <- Hg in Hc.
  unfold gait_check, gait in Hc. cbn in Hc.
  repeat (apply andb_prop in Hc as [Hc ?]).
  split; [assumption|]. split.
  - match goal with
    | Hd : _ || _ = true |- _ => apply orb_prop in Hd as [Hd|Hd];
        apply FloatAxioms.Leibniz.eqb_spec in Hd; auto
    end.
  - split; [now apply FloatAxioms.Leibniz.eqb_spec|].
    split; [assumption|]. split; assumption.
Qed.

(** What a call other than [reset] does to the vertical state of a
    player in the air. *)
Lemma call_vertical (c : PlayerCall) (p : Player.t) (m : Player.Mesh) :
  Player.mesh p = Some m ->
  is_reset c = false ->
  Player.isJumping p || Player.isFalling p = true ->
  exists q mq,
    run_player_call setFromObject c p = Some q
    /\ Player.mesh q = Some mq
    /\ vertical q mq = (if is_update c then vertical_step (vertical p m)
                        else vertical p m).
Proof.
  intros Hm Hr Ha. destruct c; cbn [run_player_call is_update]; try discriminate.
  - exists p, m. unfold Player.jump.
    destruct (Player.isJumping p), (Player.isFalling p); try discriminate; cbn; auto.
  - destruct (update_effect setFromObject p m Hm) as (q & mq & H & Hq & _ & _ & _ & Hv & _ & _).
    eauto.
  - unfold Player.moveLeft. rewrite Hm. cbn -[gtb PrimFloat.opp PrimFloat.ltb].
    destruct (gtb _ _); eexists _, _; (split; [reflexivity|]); eauto.
  - unfold Player.moveRight. rewrite Hm. cbn -[gtb PrimFloat.opp PrimFloat.ltb].
    destruct (PrimFloat.ltb _ _); eexists _, _; (split; [reflexivity|]); eauto.
  - unfold Player.updateCollider. rewrite Hm. cbn. eexists _, m. eauto.
Qed.

Lemma calls_vertical (cs : list PlayerCall) (k : nat) (p : Player.t) (m : Player.Mesh) :
  Player.mesh p = Some m ->
  existsb is_reset cs = false ->
  k + updates cs < 59 ->
  vertical p m = Nat.iter k vertical_step lift_off ->
  exists q mq,
    run_player_calls setFromObject cs p = Some q
    /\ Player.mesh q = Some mq
    /\ vertical q mq = Nat.iter (k + updates cs) vertical_step lift_off.
Proof.
  revert k p m. induction cs as [|c cs IH]; intros k p m Hm Hr Hk Hv.
  - exists p, m. cbn. rewrite Nat.add_0_r. auto.
  - cbn [existsb] in Hr. apply orb_false_elim in Hr as [Hc Hr].
    assert (Player.isJumping p || Player.isFalling p = true) as Ha.
    { pose proof (arc_airborne k ltac:(lia)) as Hchk. rewrite <- Hv in Hchk.
      unfold airborne_check, vertical in Hchk. cbn in Hchk.
      destruct (Player.isJumping p), (Player.isFalling p);
        (reflexivity || discriminate). }
    destruct (call_vertical c p m Hm Hc Ha) as (q & mq & Hq & Hmq & Hvq).
    cbn [run_player_calls]. rewrite Hq. cbn.
    unfold updates in *. cbn [List.filter] in *.
    destruct (is_update c); cbn [length] in *.
    + destruct (IH (S k) q mq Hmq Hr ltac:(lia)) as (r & mr & Hrr & Hmr & Hvr).
      { rewrite Hvq, Hv. symmetry. apply Nat.iter_succ. }
      exists r, mr. split; [assumption|]. split; [assumption|].
      rewrite Hvr. f_equal. lia.
    + destruct (IH k q mq Hmq Hr ltac:(lia)) as (r & mr & Hrr & Hmr & Hvr).
      { now rewrite Hvq. }
      eauto.
Qed.

(** X5: [update()] on a player that has a mesh returns; it never
    moves the mesh sideways or forward; on the ground it leaves the
    whole position and the flags as they are, and in the air it leaves
    the running animation (swing direction, swing angle and the four
    limb rotations) as it is. *)
Theorem update_moves_only_vertically (p : Player.t) (m : Player.Mesh) :
  Player.mesh p = Some m ->
  exists q mq,
    Player.update setFromObject p = Some q
    /\ Player.mesh q = Some mq
    /\ lateralOffset mq = lateralOffset m
    /\ THREE.z (Player.position mq) = THREE.z (Player.position m)
    /\ (phase p = Grounded ->
        Player.position mq = Player.position m /\ phase q = Grounded
        /\ Player.jumpVelocity q = Player.jumpVelocity p)
    /\ (phase p <> Grounded -> gait q mq = gait p m).
Proof.
  intros Hm.
  destruct (update_effect setFromObject p m Hm)
    as (q & mq & H & Hq & _ & Hx & Hz & Hv & Hg & _).
  exists q, mq. split; [assumption|]. split; [assumption|].
  split; [assumption|]. split; [assumption|].
  unfold phase. unfold vertical, vertical_step in Hv. cbn in Hv.
  destruct (Player.isJumping p), (Player.isFalling p); cbn in *.
  1-3: split; [discriminate|]; intros _; exact Hg.
  split; [|intros C; now contradiction C]. intros _.
  injection Hv as Hj Hf Hvel Hy. rewrite Hj, Hf.
  split; [|split; [reflexivity|assumption]].
  unfold lateralOffset in Hx.
  destruct (Player.position mq), (Player.position m). cbn in *. congruence.
Qed.

(** X6: after [jump()] from rest on the ground, a sequence of calls
    without [reset] that contains fewer than 59 updates leaves the
    player in the vertical state that the same number of updates alone
    gives: moves to the left or right, collider refreshes and further
    [jump()] calls in the air do not change the height, the velocity
    or the phase of the jump arc. *)
Theorem jump_arc_ignores_other_calls (p : Player.t) (m : Player.Mesh)
    (cs : list PlayerCall) :
  Player.mesh p = Some m ->
  phase p = Grounded ->
  THREE.y (Player.position m) = 0%float ->
  existsb is_reset cs = false ->
  updates cs < 59 ->
  exists q mq r mr,
    run_player_calls setFromObject cs (Player.jump p) = Some q
    /\ Player.mesh q = Some mq
    /\ repeat_call (Player.update setFromObject) (updates cs) (Player.jump p) = Some r
    /\ Player.mesh r = Some mr
    /\ vertical q mq = vertical r mr
    /\ phase q = arc_phase (updates cs).
Proof.
  intros Hm Hg Hy Hr Hn.
  assert (Player.mesh (Player.jump p) = Some m
          /\ vertical (Player.jump p) m = lift_off) as [Hmj Hvj].
  { unfold phase in Hg. unfold Player.jump, vertical, lift_off.
    destruct p as [pm c j f v ld cl]. cbn in *.
    destruct j; [discriminate|]. destruct f; [discriminate|]. cbn.
    split; [assumption|]. now rewrite Hy. }
  destruct (calls_vertical cs 0 _ m Hmj Hr Hn Hvj) as (q & mq & Hq & Hmq & Hvq).
  destruct (repeat_update_vertical setFromObject (updates cs) _ m Hmj)
    as (r & mr & Hrr & Hmr & Hvr).
  rewrite Hvj in Hvr. cbn [Nat.add] in Hvq.
  exists q, mq, r, mr. split; [assumption|]. split; [assumption|].
  split; [assumption|]. split; [assumption|].
  split; [now rewrite Hvq, Hvr|].
  change (phase q) with (vertical_phase (vertical q mq)). rewrite Hvq.
  pose proof (arc_check_all (updates cs) ltac:(lia)) as Hc.
  unfold arc_check in Hc. cbv zeta in Hc. apply andb_prop in Hc as [Hc _].
  now apply Phase_eqb_eq.
Qed.

End ReachTheorems.

(** A new player under the upright bounds, updated once. *)
Lemma update_moves_only_vertically_witness :
  exists q mq,
    Player.update upright_bounds (Player.new upright_bounds) = Some q
    /\ Player.mesh q = Some mq
    /\ lateralOffset mq = lateralOffset (Player.mkMesh Player.home 0 0 0 0 0)
    /\ THREE.z (Player.position mq)
       = THREE.z (Player.position (Player.mkMesh Player.home 0 0 0 0 0))
    /\ (phase (Player.new upright_bounds) = Grounded ->
        Player.position mq = Player.position (Player.mkMesh Player.home 0 0 0 0 0)
        /\ phase q = Grounded
        /\ Player.jumpVelocity q = Player.jumpVelocity (Player.new upright_bounds))
    /\ (phase (Player.new upright_bounds) <> Grounded ->
        gait q mq = gait (Player.new upright_bounds)
                         (Player.mkMesh Player.home 0 0 0 0 0)).
Proof.
  exact (update_moves_only_vertically upright_bounds (Player.new upright_bounds)
           (Player.mkMesh Player.home 0 0 0 0 0) eq_refl).
Defined.

(** A jump of a new player with a move to the left, a second press of
    jump, two updates and a move to the right in between. *)
Lemma jump_arc_ignores_other_calls_witness :
  exists q mq r mr,
    run_player_calls upright_bounds
      [call_moveLeft; call_player_update; call_jump; call_player_update; call_moveRight]
      (Player.jump (Player.new upright_bounds)) = Some q
    /\ Player.mesh q = Some mq
    /\ repeat_call (Player.update upright_bounds) 2
         (Player.jump (Player.new upright_bounds)) = Some r
    /\ Player.mesh r = Some mr
    /\ vertical q mq = vertical r mr
    /\ phase q = arc_phase 2.
Proof.
  exact (jump_arc_ignores_other_calls upright_bounds (Player.new upright_bounds)
           (Player.mkMesh Player.home 0 0 0 0 0)
           [call_moveLeft; call_player_update; call_jump; call_player_update; call_moveRight]
           eq_refl eq_refl eq_refl eq_refl ltac:(vm_compute; lia)).
Defined.

(** ** The loop of [update] as a filter *)

Section LoopFacts.

Variable setFromObject : ObstacleManager.Mesh -> THREE.Box3.

Lemma update_loop_prefix (k : nat) (om : ObstacleManager.t) :
  k <= length (ObstacleManager.activeObstacles om) ->
  let moved := advance setFromObject (ObstacleManager.speed om)
               <$> take k (ObstacleManager.activeObstacles om) in
  ObstacleManager.update_loop setFromObject k om
  = Some (ObstacleManager.with_lists om
            (List.filter kept moved ++ drop k (ObstacleManager.activeObstacles om))
            (ObstacleManager.obstaclePool om
             ++ (ObstacleManager.retire <$> rev (List.filter passed moved)))).
Proof.
  revert om. induction k as [|i IH]; intros om Hk; cbv zeta.
  - cbn. rewrite drop_0, app_nil_r. now destruct om.
  - cbn [ObstacleManager.update_loop].
    destruct (ObstacleManager.activeObstacles om !! i) as [o|] eqn:Eo.
    2:{ apply lookup_ge_None in Eo. lia. }
    cbn [mbind option_bind].
    fold (advance setFromObject (ObstacleManager.speed om) o).
    set (o2 := advance setFromObject (ObstacleManager.speed om) o).
    fold (passed o2).
    rewrite (take_S_r _ _ _ Eo), fmap_app, !List.filter_app.
    cbn [fmap list_fmap List.filter]. fold o2. unfold kept at 2.
    assert (length (take i (ObstacleManager.activeObstacles om)) = i) as Hlen
      by (apply length_take_le; lia).
    destruct (passed o2) eqn:Ep; cbn [negb].
    + rewrite IH by (cbn; rewrite length_delete by eauto; lia).
      cbn. rewrite delete_take_drop.
      rewrite (take_app_length' _ _ i) by (symmetry; exact Hlen).
      rewrite (drop_app_length' _ _ i) by (symmetry; exact Hlen).
      rewrite rev_app_distr, !app_nil_r. cbn. rewrite <- app_assoc. reflexivity.
    + rewrite IH by (cbn; rewrite length_insert; lia).
      cbn. rewrite insert_take_drop by lia.
      rewrite (take_app_length' _ _ i) by (symmetry; exact Hlen).
      rewrite (drop_app_length' _ _ i) by (symmetry; exact Hlen).
      rewrite !app_nil_r, <- app_assoc. reflexivity.
Qed.

End LoopFacts.

Section ManagerSteps.

Variable random : nat -> number.
Variable setFromObject : ObstacleManager.Mesh -> THREE.Box3.

(** [spawnObstacle] takes the last record of the pool, or builds one
    when the pool is empty, places it and appends it to the active
    list. *)
Lemma spawnObstacle_reuse (om : ObstacleManager.t)
    (rest : list ObstacleManager.Obstacle) (o : ObstacleManager.Obstacle) :
  ObstacleManager.obstaclePool om = rest ++ [o] ->
  ObstacleManager.spawnObstacle random setFromObject om
  = ObstacleManager.mk
      (ObstacleManager.activeObstacles om
       ++ [place setFromObject (random (ObstacleManager.draws om)) o])
      rest (ObstacleManager.nextSpawnTime om) (ObstacleManager.timeSinceLastSpawn om)
      (ObstacleManager.speed om) (ObstacleManager.created om)
      (S (ObstacleManager.draws om)).
Proof.
  intros Hp. unfold ObstacleManager.spawnObstacle, ObstacleManager.pop.
  rewrite Hp, last_snoc, removelast_last. reflexivity.
Qed.

Lemma spawnObstacle_build (om : ObstacleManager.t) :
  ObstacleManager.obstaclePool om = [] ->
  ObstacleManager.spawnObstacle random setFromObject om
  = ObstacleManager.mk
      (ObstacleManager.activeObstacles om
       ++ [place setFromObject (random (S (ObstacleManager.draws om)))
             (fst (ObstacleManager.createObstacle
                     (fst (ObstacleManager.getRandomObstacleType random om)) om))])
      [] (ObstacleManager.nextSpawnTime om) (ObstacleManager.timeSinceLastSpawn om)
      (ObstacleManager.speed om) (S (ObstacleManager.created om))
      (S (S (ObstacleManager.draws om))).
Proof.
  intros Hp. destruct om as [act pool nst tsl sp cr dr]. cbn in Hp. subst pool.
  reflexivity.
Qed.

Lemma pool_cases {A} (l : list A) : l = [] \/ exists rest o, l = rest ++ [o].
Proof.
  destruct l as [|a l] using rev_ind; [now left|right; eauto].
Qed.

Lemma update_unfold (deltaTime score : number) (om : ObstacleManager.t) :
  let om3 := before_loop random setFromObject deltaTime score om in
  let moved := advance setFromObject (ObstacleManager.speed om3)
               <$> ObstacleManager.activeObstacles om3 in
  ObstacleManager.update random setFromObject deltaTime score om
  = Some (ObstacleManager.with_lists om3
            (List.filter kept moved)
            (ObstacleManager.obstaclePool om3
             ++ (ObstacleManager.retire <$> rev (List.filter passed moved)))).
Proof.
  cbv zeta.
  change (ObstacleManager.update random setFromObject deltaTime score om)
    with (ObstacleManager.update_loop setFromObject
            (length (ObstacleManager.activeObstacles
                       (before_loop random setFromObject deltaTime score om)))
            (before_loop random setFromObject deltaTime score om)).
  rewrite update_loop_prefix by reflexivity. cbv zeta.
  rewrite take_ge, drop_ge, app_nil_r by reflexivity. reflexivity.
Qed.

End ManagerSteps.

(** ** Properties of the records that every call maintains *)

Lemma Forall_filter_fmap {X Y} (f : X -> Y) (keep : Y -> bool)
    (A : X -> Prop) (B : Y -> Prop) (l : list X) :
  (forall o, A o -> keep (f o) = true -> B (f o)) ->
  Forall A l -> Forall B (List.filter keep (f <$> l)).
Proof.
  intros H. induction 1 as [|o l Ho Hl IH]; cbn; [constructor|].
  destruct (keep (f o)) eqn:E; [constructor; auto|assumption].
Qed.

Lemma Forall_retired {X Y} (f : X -> Y) (g : Y -> Y) (keep : Y -> bool)
    (A : X -> Prop) (B : Y -> Prop) (l : list X) :
  (forall o, A o -> B (g (f o))) ->
  Forall A l -> Forall B (g <$> rev (List.filter keep (f <$> l))).
Proof.
  intros H Hl. apply Forall_fmap, Forall_forall. intros y Hy.
  apply list_elem_of_In, in_rev, List.filter_In in Hy as [Hy _].
  apply list_elem_of_In, list_elem_of_fmap in Hy as (o & -> & Ho).
  rewrite Forall_forall in Hl. cbn. auto.
Qed.

Section ManagerInvariant.

Variable random : nat -> number.
Variable setFromObject : ObstacleManager.Mesh -> THREE.Box3.

(** [A] is to hold of the active records and [P] of the pooled ones. *)
Variables A P : ObstacleManager.Obstacle -> Prop.

Hypothesis H_create : forall om om1,
  P (fst (ObstacleManager.createObstacle
            (fst (ObstacleManager.getRandomObstacleType random om)) om1)).
Hypothesis H_place : forall n o, P o -> A (place setFromObject (random n) o).
Hypothesis H_advance : forall s o,
  A o -> passed (advance setFromObject s o) = false -> A (advance setFromObject s o).
Hypothesis H_retire_moved : forall s o,
  A o -> P (ObstacleManager.retire (advance setFromObject s o)).
Hypothesis H_retire : forall o, A o -> P (ObstacleManager.retire o).

Lemma preloadObstacles_inv (n : nat) (om : ObstacleManager.t) :
  Forall P (ObstacleManager.obstaclePool om) ->
  Forall P (ObstacleManager.obstaclePool (ObstacleManager.preloadObstacles random n om))
  /\ ObstacleManager.activeObstacles (ObstacleManager.preloadObstacles random n om)
     = ObstacleManager.activeObstacles om.
Proof.
  revert om. induction n as [|n IH]; intros om H; [auto|].
  change (ObstacleManager.preloadObstacles random (S n) om) with
    (ObstacleManager.preloadObstacles random n
       (ObstacleManager.with_lists
          (snd (ObstacleManager.createObstacle
                  (fst (ObstacleManager.getRandomObstacleType random om))
                  (snd (ObstacleManager.getRandomObstacleType random om))))
          (ObstacleManager.activeObstacles om)
          (ObstacleManager.obstaclePool om
           ++ [fst (ObstacleManager.createObstacle
                      (fst (ObstacleManager.getRandomObstacleType random om))
                      (snd (ObstacleManager.getRandomObstacleType random om)))]))).
  match goal with |- context [ObstacleManager.preloadObstacles random n ?s] =>
    destruct (IH s) as [H1 H2] end.
  { cbn [ObstacleManager.obstaclePool ObstacleManager.with_lists].
    apply Forall_app. split; [assumption|]. constructor; [apply H_create|constructor]. }
  split; [exact H1|]. rewrite H2. reflexivity.
Qed.

Lemma new_inv :
  Forall A (ObstacleManager.activeObstacles (ObstacleManager.new random))
  /\ Forall P (ObstacleManager.obstaclePool (ObstacleManager.new random)).
Proof.
  unfold ObstacleManager.new. cbn -[ObstacleManager.preloadObstacles].
  match goal with |- context [ObstacleManager.preloadObstacles random 10 ?s] =>
    destruct (preloadObstacles_inv 10 s) as [H1 H2] end.
  { constructor. }
  rewrite H2. split; [constructor|exact H1].
Qed.

Lemma spawnObstacle_inv (om : ObstacleManager.t) :
  Forall A (ObstacleManager.activeObstacles om) ->
  Forall P (ObstacleManager.obstaclePool om) ->
  Forall A (ObstacleManager.activeObstacles
              (ObstacleManager.spawnObstacle random setFromObject om))
  /\ Forall P (ObstacleManager.obstaclePool
                 (ObstacleManager.spawnObstacle random setFromObject om)).
Proof.
  intros Ha Hp.
  destruct (pool_cases (ObstacleManager.obstaclePool om)) as [E|(rest & o & E)].
  - rewrite (spawnObstacle_build random setFromObject om E). cbn.
    split; [|constructor]. apply Forall_app. split; [assumption|].
    constructor; [|constructor]. apply H_place, H_create.
  - rewrite (spawnObstacle_reuse random setFromObject om rest o E). cbn.
    rewrite E in Hp. apply Forall_app in Hp as [Hrest Ho].
    split; [|assumption]. apply Forall_app. split; [assumption|].
    constructor; [|constructor]. apply H_place. now inversion Ho.
Qed.

Lemma before_loop_inv (deltaTime score : number) (om : ObstacleManager.t) :
  Forall A (ObstacleManager.activeObstacles om) ->
  Forall P (ObstacleManager.obstaclePool om) ->
  Forall A (ObstacleManager.activeObstacles
              (before_loop random setFromObject deltaTime score om))
  /\ Forall P (ObstacleManager.obstaclePool
                 (before_loop random setFromObject deltaTime score om)).
Proof.
  intros Ha Hp. unfold before_loop. cbv zeta.
  destruct (geb _ _); [|auto].
  cbn -[ObstacleManager.spawnObstacle].
  apply spawnObstacle_inv; assumption.
Qed.

Lemma update_inv (deltaTime score : number) (om : ObstacleManager.t) :
  Forall A (ObstacleManager.activeObstacles om) ->
  Forall P (ObstacleManager.obstaclePool om) ->
  exists om',
    ObstacleManager.update random setFromObject deltaTime score om = Some om'
    /\ Forall A (ObstacleManager.activeObstacles om')
    /\ Forall P (ObstacleManager.obstaclePool om').
Proof.
  intros Ha Hp. rewrite update_unfold. cbv zeta.
  destruct (before_loop_inv deltaTime score om Ha Hp) as [Ha3 Hp3].
  eexists. split; [reflexivity|]. cbn. split.
  - eapply Forall_filter_fmap; [|exact Ha3].
    intros o Ho Hk. apply H_advance; [assumption|].
    unfold kept in Hk. now apply negb_true_iff in Hk.
  - apply Forall_app. split; [assumption|].
    eapply Forall_retired; [|exact Ha3]. intros o Ho. now apply H_retire_moved.
Qed.

Lemma reset_inv (om : ObstacleManager.t) :
  Forall A (ObstacleManager.activeObstacles om) ->
  Forall P (ObstacleManager.obstaclePool om) ->
  Forall A (ObstacleManager.activeObstacles (ObstacleManager.reset random om))
  /\ Forall P (ObstacleManager.obstaclePool (ObstacleManager.reset random om)).
Proof.
  intros Ha Hp. unfold ObstacleManager.reset. cbn. split; [constructor|].
  apply Forall_app. split; [assumption|].
  apply Forall_fmap. eapply Forall_impl; [exact Ha|]. intros o Ho. now apply H_retire.
Qed.

Lemma run_calls_inv (cs : list ManagerCall) (om : ObstacleManager.t) :
  Forall A (ObstacleManager.activeObstacles om) ->
  Forall P (ObstacleManager.obstaclePool om) ->
  exists om',
    run_calls random setFromObject cs om = Some om'
    /\ Forall A (ObstacleManager.activeObstacles om')
    /\ Forall P (ObstacleManager.obstaclePool om').
Proof.
  revert om. induction cs as [|c cs IH]; intros om Ha Hp; cbn [run_calls]; [eauto|].
  destruct c as [dt score|]; cbn [run_call].
  - destruct (update_inv dt score om Ha Hp) as (om1 & -> & Ha1 & Hp1). cbn. auto.
  - cbn. destruct (reset_inv om Ha Hp). auto.
Qed.

End ManagerInvariant.

(** ** Random values from the unit interval *)

Section RandomFacts.

Local Open Scope Z_scope.

(** A number below 1 is at most the largest number below 1. *)
Lemma lt_one_le_below_one (r : number) :
  PrimFloat.ltb r 1 = true -> PrimFloat.leb r below_one = true.
Proof.
  intros H. apply ltb_pos in H as (Nr & _ & H).
  apply pos_leb; [assumption|reflexivity|].
  assert (pos 1 = 2 ^ 1074) as E1 by (vm_compute; reflexivity).
  assert (pos below_one = (2 ^ 53 - 1) * 2 ^ 1021) as E2 by (vm_compute; reflexivity).
  rewrite E1 in H. rewrite E2. clear E1 E2.
  unfold pos in *. pose proof (Prim2SF_valid r) as Hv.
  assert (0 < 2 ^ 1021) as Hp by (apply Z.pow_pos_nonneg; lia).
  assert (2 ^ 1074 = 2 ^ 53 * 2 ^ 1021) as Hs by (rewrite <- Z.pow_add_r by lia; reflexivity).
  destruct (Prim2SF r) as [s|s| |s m e]; cbn [ord] in *.
  - nia.
  - destruct s; [unfold order_top; nia|].
    exfalso. unfold order_top in H.
    assert (2 ^ 1074 < 2 ^ 2200) by (apply Z.pow_lt_mono_r; lia). lia.
  - nia.
  - apply valid_finite in Hv as (He & Hm & Hn).
    assert (0 < 2 ^ (e + 1074)) as Hq by (apply Z.pow_pos_nonneg; lia).
    destruct s; [nia|].
    destruct (Z.le_gt_cases (e + 1074) 1021) as [Hle|Hgt].
    + assert (2 ^ (e + 1074) <= 2 ^ 1021) by (apply Z.pow_le_mono_r; lia).
      apply Z.mul_le_mono_nonneg; lia.
    + exfalso.
      assert (2 ^ 1022 <= 2 ^ (e + 1074)) by (apply Z.pow_le_mono_r; lia).
      assert (2 ^ 52 <= Z.pos m) by (apply Hn; lia).
      assert (2 ^ 1074 = 2 ^ 52 * 2 ^ 1022) as Hs' by (rewrite <- Z.pow_add_r by lia; reflexivity).
      assert (2 ^ 52 * 2 ^ 1022 <= Z.pos m * 2 ^ (e + 1074))
        by (apply Z.mul_le_mono_nonneg; lia).
      lia.
Qed.

(** The floor of a number from 0 up to, but not including, the
    integer [n] is a zero or one of the integers below [n]. *)
Lemma floor_range (v : number) (n : Z) :
  n <= 2 ^ 52 ->
  PrimFloat.leb 0 v = true -> pos v < n * 2 ^ 1074 ->
  (Math_floor v = v /\ (v = 0%float \/ v = (-0)%float))
  \/ exists k, 0 <= k < n /\ Math_floor v = Z2float k.
Proof.
  intros Hn H0 Hlt. apply leb_pos in H0 as (_ & Nv & H0).
  change (pos 0) with 0 in H0.
  unfold pos in *. pose proof (Prim2SF_valid v) as Hv.
  pose proof (SF2Prim_Prim2SF v) as Hback.
  unfold Math_floor.
  assert (0 < 2 ^ 1074) as Hp by (apply Z.pow_pos_nonneg; lia).
  destruct (Prim2SF v) as [s|s| |s m e]; cbn [ord] in *.
  - left. split; [reflexivity|]. rewrite <- Hback. destruct s; auto.
  - exfalso. destruct s; unfold order_top in *.
    + assert (0 < 2 ^ 2200) by (apply Z.pow_pos_nonneg; lia). lia.
    + assert (2 ^ 52 * 2 ^ 1074 < 2 ^ 2200)
        by (rewrite <- Z.pow_add_r by lia; apply Z.pow_lt_mono_r; lia).
      nia.
  - discriminate.
  - apply valid_finite in Hv as (He & Hm & Hnorm).
    assert (0 < 2 ^ (e + 1074)) as Hq by (apply Z.pow_pos_nonneg; lia).
    destruct s; [exfalso; nia|].
    destruct (Z.leb_spec 0 e) as [Hpos|Hneg].
    + exfalso.
      assert (2 ^ 52 <= Z.pos m) by (apply Hnorm; lia).
      assert (2 ^ 1074 <= 2 ^ (e + 1074)) by (apply Z.pow_le_mono_r; lia).
      assert (2 ^ 52 * 2 ^ 1074 <= Z.pos m * 2 ^ (e + 1074))
        by (apply Z.mul_le_mono_nonneg; lia).
      nia.
    + right. exists (Z.shiftl (Z.pos m) e). split; [|reflexivity].
      rewrite Z.shiftl_div_pow2 by lia.
      assert (0 < 2 ^ (- e)) as Hd by (apply Z.pow_pos_nonneg; lia).
      split; [apply Z.div_pos; lia|].
      apply Z.div_lt_upper_bound; [assumption|].
      assert (2 ^ 1074 = 2 ^ (e + 1074) * 2 ^ (- e)) as Hs.
      { rewrite <- Z.pow_add_r by lia. f_equal. lia. }
      rewrite Hs in Hlt.
      assert (Z.pos m < n * 2 ^ (- e)); [|lia].
      apply Z.mul_lt_mono_pos_r with (2 ^ (e + 1074)); [assumption|]. lia.
Qed.

(** The scaled random value stays below the scale. *)
Lemma scaled_random (r c top : number) (n : Z) :
  normal_positive c = true ->
  PrimFloat.leb 0 r = true -> PrimFloat.ltb r 1 = true ->
  (below_one * c)%float = top -> pos top < n * 2 ^ 1074 ->
  PrimFloat.leb 0 (r * c) = true /\ pos (r * c) < n * 2 ^ 1074.
Proof.
  intros Hc H0 H1 Htop Hn. apply lt_one_le_below_one in H1.
  destruct (mul_le_mono_pos r below_one c Hc H0 H1) as [Hlo Hhi].
  split; [assumption|]. rewrite Htop in Hhi.
  apply leb_pos in Hhi as (_ & _ & Hhi). lia.
Qed.

Lemma lane_of_random (r : number) :
  PrimFloat.leb 0 r = true -> PrimFloat.ltb r 1 = true ->
  let x := ((Math_floor (r * 3) - 1) * 2)%float in
  x = (-2)%float \/ x = 0%float \/ x = 2%float.
Proof.
  intros H0 H1.
  destruct (scaled_random r 3 2.9999999999999996 3 eq_refl H0 H1 eq_refl) as [Hlo Hhi].
  { vm_compute. reflexivity. }
  destruct (floor_range _ 3 ltac:(lia) Hlo Hhi) as [[E [Hz|Hz]]|[k [Hk E]]];
    cbv zeta; rewrite E.
  - rewrite Hz. left. reflexivity.
  - rewrite Hz. left. reflexivity.
  - assert (k = 0 \/ k = 1 \/ k = 2) as [-> | [-> | ->]] by lia.
    + left. vm_compute. reflexivity.
    + right. left. vm_compute. reflexivity.
    + right. right. vm_compute. reflexivity.
Qed.

Lemma type_of_random (r : number) :
  PrimFloat.leb 0 r = true -> PrimFloat.ltb r 1 = true ->
  exists ty,
    (i ← array_index (Math_floor (r * 5)); ObstacleManager.obstacleTypes !! i) = Some ty.
Proof.
  intros H0 H1.
  destruct (scaled_random r 5 4.999999999999999 5 eq_refl H0 H1 eq_refl) as [Hlo Hhi].
  { vm_compute. reflexivity. }
  destruct (floor_range _ 5 ltac:(lia) Hlo Hhi) as [[E [Hz|Hz]]|[k [Hk E]]];
    rewrite E.
  - rewrite Hz. eexists. vm_compute. reflexivity.
  - rewrite Hz. eexists. vm_compute. reflexivity.
  - assert (k = 0 \/ k = 1 \/ k = 2 \/ k = 3 \/ k = 4) as [-> | [-> | [-> | [-> | ->]]]] by lia;
      eexists; vm_compute; reflexivity.
Qed.

(** The spawn interval of a random value from the unit interval lies
    between [minSpawnInterval] and [maxSpawnInterval]. *)
Lemma spawnInterval_range (r : number) :
  PrimFloat.leb 0 r = true -> PrimFloat.ltb r 1 = true ->
  PrimFloat.leb 1.5 (spawnInterval r) = true
  /\ PrimFloat.leb (spawnInterval r) 3 = true.
Proof.
  intros H0 H1. apply lt_one_le_below_one in H1.
  unfold spawnInterval.
  change (ObstacleManager.maxSpawnInterval - ObstacleManager.minSpawnInterval)%float
    with 1.5%float.
  change ObstacleManager.minSpawnInterval with 1.5%float.
  destruct (mul_le_mono_pos r below_one 1.5 eq_refl H0 H1) as [Hlo Hhi].
  destruct (mul_le_mono_pos 0 r 1.5 eq_refl eq_refl H0) as [_ Hlo'].
  split.
  - destruct (add_le_mono 1.5 1.5 (0 * 1.5) (r * 1.5) eq_refl eq_refl eq_refl Hlo')
      as [_ H]. exact H.
  - destruct (add_le_mono 1.5 1.5 (r * 1.5) (below_one * 1.5) eq_refl eq_refl eq_refl Hhi)
      as [_ H].
    eapply leb_trans; [exact H|]. vm_compute. reflexivity.
Qed.

End RandomFacts.

(** ** What holds of the obstacle manager after any sequence of calls *)

Section ManagerTheorems.

Variable random : nat -> number.
Variable setFromObject : ObstacleManager.Mesh -> THREE.Box3.

(** X7: the loop of [update], which walks the active list from its
    last index down and splices out what has passed, returns (it never
    reads past the end) and amounts to a map and a filter: every
    active obstacle is advanced by the speed exactly once; those whose
    [z] does not exceed 10 stay in the active list in their order; the
    others are hidden, flagged inactive and appended to the pool, the
    last one of the list first; nothing else of the manager changes. *)
Theorem update_loop_moves_then_filters (om : ObstacleManager.t) :
  let moved := advance setFromObject (ObstacleManager.speed om)
               <$> ObstacleManager.activeObstacles om in
  ObstacleManager.update_loop setFromObject
    (length (ObstacleManager.activeObstacles om)) om
  = Some (ObstacleManager.mk
            (List.filter (fun o => negb (passed o)) moved)
            (ObstacleManager.obstaclePool om
             ++ (ObstacleManager.retire <$> rev (List.filter passed moved)))
            (ObstacleManager.nextSpawnTime om)
            (ObstacleManager.timeSinceLastSpawn om)
            (ObstacleManager.speed om)
            (ObstacleManager.created om)
            (ObstacleManager.draws om)).
Proof.
  cbv zeta. rewrite update_loop_prefix by reflexivity. cbv zeta.
  rewrite take_ge, drop_ge, app_nil_r by reflexivity. reflexivity.
Qed.

Lemma created_at_rest (om om1 : ObstacleManager.t) :
  at_rest (fst (ObstacleManager.createObstacle
                  (fst (ObstacleManager.getRandomObstacleType random om)) om1)).
Proof. split; reflexivity. Qed.

Lemma place_on_track (r : number) (o : ObstacleManager.Obstacle) :
  on_track setFromObject (place setFromObject r o).
Proof. repeat split. Qed.

Lemma advance_on_track (s : number) (o : ObstacleManager.Obstacle) :
  on_track setFromObject o ->
  passed (advance setFromObject s o) = false ->
  on_track setFromObject (advance setFromObject s o).
Proof.
  intros (Ha & Hv & _ & _) Hp. split; [exact Ha|]. split; [exact Hv|].
  split; [reflexivity|exact Hp].
Qed.

(** X8: after any sequence of [update] and [reset] calls on a freshly
    built manager, every obstacle in the active list is flagged
    active, is visible, carries the collider computed from its current
    mesh position and its collider scale, and has a [z] that does not
    exceed 10; every obstacle in the pool is flagged inactive and is
    hidden. *)
Theorem active_obstacles_on_track (cs : list ManagerCall) :
  exists om,
    run_calls random setFromObject cs (ObstacleManager.new random) = Some om
    /\ (forall o, o ∈ ObstacleManager.activeObstacles om ->
          ObstacleManager.active o = true
          /\ ObstacleManager.visible (ObstacleManager.mesh o) = true
          /\ ObstacleManager.collider o = Some (obstacleColliderOf setFromObject o)
          /\ gtb (THREE.z (ObstacleManager.position (ObstacleManager.mesh o))) 10 = false)
    /\ (forall o, o ∈ ObstacleManager.obstaclePool om ->
          ObstacleManager.active o = false
          /\ ObstacleManager.visible (ObstacleManager.mesh o) = false).
Proof.
  destruct (new_inv random (on_track setFromObject) at_rest created_at_rest) as [Ha Hp].
  destruct (run_calls_inv random setFromObject (on_track setFromObject) at_rest
              created_at_rest
              (fun n o _ => place_on_track (random n) o)
              advance_on_track
              (fun s o _ => conj eq_refl eq_refl)
              (fun o _ => conj eq_refl eq_refl)
              cs _ Ha Hp) as (om & Hrun & Ha' & Hp').
  exists om. split; [assumption|].
  rewrite Forall_forall in Ha'. rewrite Forall_forall in Hp'. split; assumption.
Qed.

Lemma update_nextSpawnTime (deltaTime score : number) (om : ObstacleManager.t) :
  exists om',
    ObstacleManager.update random setFromObject deltaTime score om = Some om'
    /\ (ObstacleManager.nextSpawnTime om' = ObstacleManager.nextSpawnTime om
        \/ exists n, ObstacleManager.nextSpawnTime om' = spawnInterval (random n)).
Proof.
  rewrite update_unfold. cbv zeta. eexists. split; [reflexivity|].
  cbn [ObstacleManager.nextSpawnTime ObstacleManager.with_lists].
  unfold before_loop. cbv zeta. destruct (geb _ _); [|now left].
  right. eexists. reflexivity.
Qed.

Lemma run_calls_nextSpawnTime (cs : list ManagerCall) (om : ObstacleManager.t) :
  (exists n, ObstacleManager.nextSpawnTime om = spawnInterval (random n)) ->
  exists om',
    run_calls random setFromObject cs om = Some om'
    /\ exists n, ObstacleManager.nextSpawnTime om' = spawnInterval (random n).
Proof.
  revert om. induction cs as [|c cs IH]; intros om H; cbn [run_calls]; [eauto|].
  destruct c as [dt score|]; cbn [run_call].
  - destruct (update_nextSpawnTime dt score om) as (om1 & -> & [E|E]); cbn.
    + apply IH. now rewrite E.
    + now apply IH.
  - cbn. apply IH. eexists. reflexivity.
Qed.

Lemma preloadObstacles_nextSpawnTime (n : nat) (om : ObstacleManager.t) :
  ObstacleManager.nextSpawnTime (ObstacleManager.preloadObstacles random n om)
  = ObstacleManager.nextSpawnTime om.
Proof.
  revert om. induction n as [|n IH]; intros om; [reflexivity|].
  cbn. now rewrite IH.
Qed.

(** X9: when [Math.random()] returns numbers from 0 up to, but not
    including, 1, then after any sequence of [update] and [reset]
    calls on a freshly built manager the time to the next spawn,
    [nextSpawnTime], lies between [minSpawnInterval] = 1.5 and
    [maxSpawnInterval] = 3. *)
Theorem spawn_interval_in_range (cs : list ManagerCall) :
  unit_interval random ->
  exists om,
    run_calls random setFromObject cs (ObstacleManager.new random) = Some om
    /\ PrimFloat.leb 1.5 (ObstacleManager.nextSpawnTime om) = true
    /\ PrimFloat.leb (ObstacleManager.nextSpawnTime om) 3 = true.
Proof.
  intros Hr.
  destruct (run_calls_nextSpawnTime cs (ObstacleManager.new random))
    as (om & Hrun & n & Hn).
  { exists 0%nat. unfold ObstacleManager.new.
    cbn -[ObstacleManager.preloadObstacles].
    now rewrite preloadObstacles_nextSpawnTime. }
  exists om. split; [assumption|]. rewrite Hn.
  destruct (Hr n) as [H0 H1]. now apply spawnInterval_range.
Qed.

Lemma created_typed (om om1 : ObstacleManager.t) :
  unit_interval random ->
  let o := fst (ObstacleManager.createObstacle
                  (fst (ObstacleManager.getRandomObstacleType random om)) om1) in
  well_typed o /\ in_lane o.
Proof.
  intros Hr. cbv zeta.
  destruct (Hr (ObstacleManager.draws om)) as [H0 H1].
  destruct (type_of_random _ H0 H1) as [ty Hty].
  change (fst (ObstacleManager.getRandomObstacleType random om))
    with (i ← array_index (Math_floor (random (ObstacleManager.draws om) * 5));
          ObstacleManager.obstacleTypes !! i).
  rewrite Hty. split.
  - exists ty. destruct ty; repeat split.
  - unfold in_lane. destruct ty; right; left; reflexivity.
Qed.

Lemma place_typed (r : number) (o : ObstacleManager.Obstacle) :
  PrimFloat.leb 0 r = true -> PrimFloat.ltb r 1 = true ->
  well_typed o /\ in_lane o ->
  well_typed (place setFromObject r o) /\ in_lane (place setFromObject r o).
Proof.
  intros H0 H1 [Ht _]. split; [exact Ht|].
  exact (lane_of_random r H0 H1).
Qed.

(** X10: when [Math.random()] returns numbers from 0 up to, but not
    including, 1, then after any sequence of [update] and [reset]
    calls on a freshly built manager every record, pooled or active,
    has one of the five obstacle types (never [undefined]) with the
    mesh and the collider scale of that type, and stands at [x] = -2,
    0 or 2. *)
Theorem obstacles_typed_in_lanes (cs : list ManagerCall) :
  unit_interval random ->
  exists om,
    run_calls random setFromObject cs (ObstacleManager.new random) = Some om
    /\ forall o,
         o ∈ ObstacleManager.obstaclePool om ++ ObstacleManager.activeObstacles om ->
         (exists ty, ObstacleManager.type o = Some ty
                     /\ ObstacleManager.shape (ObstacleManager.mesh o) = ty
                     /\ ObstacleManager.colliderScale o = scaleOf ty)
         /\ (THREE.x (ObstacleManager.position (ObstacleManager.mesh o)) = (-2)%float
             \/ THREE.x (ObstacleManager.position (ObstacleManager.mesh o)) = 0%float
             \/ THREE.x (ObstacleManager.position (ObstacleManager.mesh o)) = 2%float).
Proof.
  intros Hr.
  set (Q := fun o => well_typed o /\ in_lane o).
  assert (forall om om1,
            Q (fst (ObstacleManager.createObstacle
                      (fst (ObstacleManager.getRandomObstacleType random om)) om1)))
    as Hc by (intros om om1; now apply created_typed).
  destruct (new_inv random Q Q Hc) as [Ha Hp].
  destruct (run_calls_inv random setFromObject Q Q Hc
              (fun n o H => place_typed (random n) o (proj1 (Hr n)) (proj2 (Hr n)) H)
              (fun s o H _ => H) (fun s o H => H) (fun o H => H)
              cs _ Ha Hp) as (om & Hrun & Ha' & Hp').
  exists om. split; [assumption|]. intros o Ho.
  rewrite Forall_forall in Ha'. rewrite Forall_forall in Hp'.
  apply elem_of_app in Ho as [Ho|Ho]; [exact (Hp' o Ho)|exact (Ha' o Ho)].
Qed.

(** What one [update] does to the counters of the manager. *)
Lemma update_counts (deltaTime score : number)
    (om : ObstacleManager.t) :
  exists om',
    ObstacleManager.update random setFromObject deltaTime score om = Some om'
    /\ ObstacleManager.created om'
       = (if geb (ObstacleManager.timeSinceLastSpawn om + deltaTime)
                 (ObstacleManager.nextSpawnTime om)
          then match ObstacleManager.obstaclePool om with
               | [] => S (ObstacleManager.created om)
               | _ :: _ => ObstacleManager.created om
               end
          else ObstacleManager.created om)
    /\ ObstacleManager.timeSinceLastSpawn om'
       = (if geb (ObstacleManager.timeSinceLastSpawn om + deltaTime)
                 (ObstacleManager.nextSpawnTime om)
          then 0%float
          else (ObstacleManager.timeSinceLastSpawn om + deltaTime)%float)
    /\ length (ObstacleManager.activeObstacles om')
       <= S (length (ObstacleManager.activeObstacles om)).
Proof.
  rewrite update_unfold. cbv zeta. eexists. split; [reflexivity|].
  cbn [ObstacleManager.created ObstacleManager.activeObstacles
       ObstacleManager.timeSinceLastSpawn ObstacleManager.with_lists].
  set (om3 := before_loop random setFromObject deltaTime score om).
  assert (ObstacleManager.created om3
          = (if geb (ObstacleManager.timeSinceLastSpawn om + deltaTime)
                    (ObstacleManager.nextSpawnTime om)
             then match ObstacleManager.obstaclePool om with
                  | [] => S (ObstacleManager.created om)
                  | _ :: _ => ObstacleManager.created om
                  end
             else ObstacleManager.created om)
          /\ ObstacleManager.timeSinceLastSpawn om3
             = (if geb (ObstacleManager.timeSinceLastSpawn om + deltaTime)
                       (ObstacleManager.nextSpawnTime om)
                then 0%float
                else (ObstacleManager.timeSinceLastSpawn om + deltaTime)%float)
          /\ length (ObstacleManager.activeObstacles om3)
             <= S (length (ObstacleManager.activeObstacles om))) as (Hc & Ht & Hl).
  { subst om3. unfold before_loop. cbv zeta.
    cbn [ObstacleManager.timeSinceLastSpawn ObstacleManager.nextSpawnTime
         ObstacleManager.with_speed ObstacleManager.with_timeSinceLastSpawn].
    destruct (geb _ _); [|cbn; split; [reflexivity|split; [reflexivity|lia]]].
    match goal with |- context [ObstacleManager.spawnObstacle random setFromObject ?s] =>
      set (om2 := s) end.
    destruct (pool_cases (ObstacleManager.obstaclePool om2)) as [E|(rest & o & E)].
    - rewrite (spawnObstacle_build random setFromObject om2 E).
      cbn in E. rewrite E. cbn. rewrite length_app. cbn.
      split; [reflexivity|split; [reflexivity|lia]].
    - rewrite (spawnObstacle_reuse random setFromObject om2 rest o E).
      cbn in E. rewrite E. cbn. rewrite length_app. cbn.
      split; [now destruct rest|split; [reflexivity|lia]]. }
  split; [exact Hc|]. split; [exact Ht|].
  eapply Nat.le_trans; [apply List.filter_length_le|].
  rewrite length_fmap. exact Hl.
Qed.

(** X11: [update] always returns, and it builds a new record only
    when the spawn timer has run out while the pool is empty; with a
    record in the pool, or before the timer has run out, the number of
    records created stays as it was.  The spawn timer restarts at 0
    when it has run out and otherwise advances by [deltaTime], and the
    active list grows by at most one obstacle. *)
Theorem update_builds_only_on_empty_pool (deltaTime score : number)
    (om : ObstacleManager.t) :
  exists om',
    ObstacleManager.update random setFromObject deltaTime score om = Some om'
    /\ ObstacleManager.created om'
       = (if geb (ObstacleManager.timeSinceLastSpawn om + deltaTime)
                 (ObstacleManager.nextSpawnTime om)
          then match ObstacleManager.obstaclePool om with
               | [] => S (ObstacleManager.created om)
               | _ :: _ => ObstacleManager.created om
               end
          else ObstacleManager.created om)
    /\ ObstacleManager.timeSinceLastSpawn om'
       = (if geb (ObstacleManager.timeSinceLastSpawn om + deltaTime)
                 (ObstacleManager.nextSpawnTime om)
          then 0%float
          else (ObstacleManager.timeSinceLastSpawn om + deltaTime)%float)
    /\ length (ObstacleManager.activeObstacles om')
       <= S (length (ObstacleManager.activeObstacles om)).
Proof. exact (update_counts deltaTime score om). Qed.


(** X21: [reset()] clears the track: on a manager reached from a new
    one by any sequence of [update] and [reset] calls, it leaves no
    obstacle active, builds no record, and leaves every record ever
    created in the pool, hidden and flagged inactive, with the speed
    back at 0.2 and the spawn timer at 0. *)
Theorem reset_clears_the_track (cs : list ManagerCall) :
  exists om,
    run_calls random setFromObject cs (ObstacleManager.new random) = Some om
    /\ ObstacleManager.activeObstacles (ObstacleManager.reset random om) = []
    /\ ObstacleManager.created (ObstacleManager.reset random om)
       = ObstacleManager.created om
    /\ length (ObstacleManager.obstaclePool (ObstacleManager.reset random om))
       = ObstacleManager.created om
    /\ (forall o, o ∈ ObstacleManager.obstaclePool (ObstacleManager.reset random om) ->
          ObstacleManager.active o = false
          /\ ObstacleManager.visible (ObstacleManager.mesh o) = false)
    /\ ObstacleManager.speed (ObstacleManager.reset random om) = 0.2%float
    /\ ObstacleManager.timeSinceLastSpawn (ObstacleManager.reset random om) = 0%float.
Proof.
  destruct (new_inv random (on_track setFromObject) at_rest created_at_rest) as [Ha Hp].
  destruct (run_calls_inv random setFromObject (on_track setFromObject) at_rest
              created_at_rest
              (fun n o _ => place_on_track (random n) o)
              advance_on_track
              (fun s o _ => conj eq_refl eq_refl)
              (fun o _ => conj eq_refl eq_refl)
              cs _ Ha Hp) as (om & Hrun & Ha' & Hp').
  destruct (run_calls_conserved random setFromObject cs _ (new_conserved random))
    as (om2 & Hrun2 & Hcons).
  assert (om2 = om) as -> by congruence.
  exists om. split; [exact Hrun|].
  split; [reflexivity|]. split; [reflexivity|].
  split.
  { apply reset_conserved with (random := random) in Hcons.
    unfold conserved in Hcons. apply Permutation_length in Hcons.
    rewrite length_seq in Hcons. unfold ids in Hcons.
    rewrite length_fmap, length_app in Hcons.
    change (ObstacleManager.activeObstacles (ObstacleManager.reset random om))
      with (@nil ObstacleManager.Obstacle) in Hcons.
    change (ObstacleManager.created (ObstacleManager.reset random om))
      with (ObstacleManager.created om) in Hcons.
    cbn [length] in Hcons. lia. }
  split.
  { destruct (reset_inv random (on_track setFromObject) at_rest
                (fun o _ => conj eq_refl eq_refl) om Ha' Hp') as [_ Hp2].
    rewrite Forall_forall in Hp2. exact Hp2. }
  split; reflexivity.
Qed.

End ManagerTheorems.

(** The sample random values lie in the unit interval. *)
Lemma sample_random_unit : unit_interval sample_random.
Proof.
  intros n. unfold sample_random. destruct (Nat.even n); split; reflexivity.
Qed.

(** The spawn interval after a spawning update, a reset and a further
    update, under the sample random values. *)
Lemma spawn_interval_in_range_witness :
  exists om,
    run_calls sample_random cube_bounds
      [call_update 3 0; call_reset; call_update 0.5 100]
      (ObstacleManager.new sample_random) = Some om
    /\ PrimFloat.leb 1.5 (ObstacleManager.nextSpawnTime om) = true
    /\ PrimFloat.leb (ObstacleManager.nextSpawnTime om) 3 = true.
Proof.
  exact (spawn_interval_in_range sample_random cube_bounds
           [call_update 3 0; call_reset; call_update 0.5 100] sample_random_unit).
Defined.

(** The records after two spawning updates under the sample random
    values. *)
Lemma obstacles_typed_in_lanes_witness :
  exists om,
    run_calls sample_random cube_bounds
      [call_update 3 0; call_update 3 0]
      (ObstacleManager.new sample_random) = Some om
    /\ forall o,
         o ∈ ObstacleManager.obstaclePool om ++ ObstacleManager.activeObstacles om ->
         (exists ty, ObstacleManager.type o = Some ty
                     /\ ObstacleManager.shape (ObstacleManager.mesh o) = ty
                     /\ ObstacleManager.colliderScale o = scaleOf ty)
         /\ (THREE.x (ObstacleManager.position (ObstacleManager.mesh o)) = (-2)%float
             \/ THREE.x (ObstacleManager.position (ObstacleManager.mesh o)) = 0%float
             \/ THREE.x (ObstacleManager.position (ObstacleManager.mesh o)) = 2%float).
Proof.
  exact (obstacles_typed_in_lanes sample_random cube_bounds
           [call_update 3 0; call_update 3 0] sample_random_unit).
Defined.

(** ** Collision checks: order and repetition *)

Section CollisionOrder.

Variable setFromObject : Player.Mesh -> THREE.Box3.

Lemma checkCollisions_unfold (p : Player.t) (om : ObstacleManager.t)
    (m : Player.Mesh) (c : THREE.Box3) :
  Player.mesh p = Some m ->
  Player.collider p = Some c ->
  let d1 := CollisionDetector.mk
              (Player.with_collider p (Player.colliderOf setFromObject m)) om in
  CollisionDetector.checkCollisions setFromObject (CollisionDetector.mk p om)
  = (hit ← CollisionDetector.scan d1 (ObstacleManager.activeObstacles om);
     Some (hit, d1)).
Proof.
  intros Em Ec. unfold CollisionDetector.checkCollisions. cbn.
  rewrite Em, Ec. rewrite (updateCollider_mesh setFromObject p m Em). reflexivity.
Qed.

Lemma scan_perm (d : CollisionDetector.t) (c : THREE.Box3)
    (l l' : list ObstacleManager.Obstacle) :
  Player.collider (CollisionDetector.player d) = Some c ->
  l ≡ₚ l' ->
  CollisionDetector.scan d l = CollisionDetector.scan d l'.
Proof.
  intros Hc Hp.
  destruct (scan_total d c l Hc) as [b Hb].
  destruct (scan_total d c l' Hc) as [b' Hb'].
  rewrite Hb, Hb'. f_equal.
  assert (b = true <-> b' = true) as Hiff.
  { split; intros ->.
    - apply (scan_true_iff d c l Hc) in Hb as (o & box & Ho & Hbox & Hov).
      assert (CollisionDetector.scan d l' = Some true) as H'.
      { apply (scan_true_iff d c l' Hc). exists o, box.
        split; [now rewrite <- Hp|auto]. }
      congruence.
    - apply (scan_true_iff d c l' Hc) in Hb' as (o & box & Ho & Hbox & Hov).
      assert (CollisionDetector.scan d l = Some true) as H'.
      { apply (scan_true_iff d c l Hc). exists o, box.
        split; [now rewrite Hp|auto]. }
      congruence. }
  destruct b, b'; intuition congruence.
Qed.

(** X12: the answer of [checkCollisions()] does not depend on the
    order of the active obstacles: for two obstacle managers whose
    active lists hold the same obstacles in any order, the check
    returns the same answer and leaves the same player. *)
Theorem collision_answer_ignores_order (p : Player.t) (om om' : ObstacleManager.t) :
  ObstacleManager.activeObstacles om ≡ₚ ObstacleManager.activeObstacles om' ->
  exists hit q,
    CollisionDetector.checkCollisions setFromObject (CollisionDetector.mk p om)
    = Some (hit, CollisionDetector.mk q om)
    /\ CollisionDetector.checkCollisions setFromObject (CollisionDetector.mk p om')
       = Some (hit, CollisionDetector.mk q om').
Proof.
  intros Hp.
  destruct (Player.mesh p) as [m|] eqn:Em.
  2:{ exists false, p. unfold CollisionDetector.checkCollisions. cbn.
      rewrite Em. auto. }
  destruct (Player.collider p) as [c|] eqn:Ec.
  2:{ exists false, p. unfold CollisionDetector.checkCollisions. cbn.
      rewrite Em, Ec. auto. }
  rewrite !(checkCollisions_unfold p _ m c Em Ec). cbv zeta.
  set (q := Player.with_collider p (Player.colliderOf setFromObject m)).
  rewrite (scan_player_only q om om').
  rewrite (scan_perm (CollisionDetector.mk q om') _ _ _ eq_refl Hp).
  destruct (scan_total (CollisionDetector.mk q om') _
              (ObstacleManager.activeObstacles om') eq_refl) as [b Hb].
  rewrite Hb. cbn. eauto.
Qed.

(** X13: [checkCollisions()] always returns, and a second check right
    after the first returns the same answer and changes nothing. *)
Theorem second_check_changes_nothing (d : CollisionDetector.t) :
  exists hit d1,
    CollisionDetector.checkCollisions setFromObject d = Some (hit, d1)
    /\ CollisionDetector.checkCollisions setFromObject d1 = Some (hit, d1).
Proof.
  destruct d as [p om].
  destruct (Player.mesh p) as [m|] eqn:Em.
  2:{ exists false, (CollisionDetector.mk p om).
      unfold CollisionDetector.checkCollisions. cbn. rewrite Em. auto. }
  destruct (Player.collider p) as [c|] eqn:Ec.
  2:{ exists false, (CollisionDetector.mk p om).
      unfold CollisionDetector.checkCollisions. cbn. rewrite Em, Ec. auto. }
  rewrite (checkCollisions_unfold p om m c Em Ec). cbv zeta.
  set (q := Player.with_collider p (Player.colliderOf setFromObject m)).
  destruct (scan_total (CollisionDetector.mk q om) _
              (ObstacleManager.activeObstacles om) eq_refl) as [b Hb].
  rewrite Hb. cbn. exists b, (CollisionDetector.mk q om). split; [reflexivity|].
  rewrite (checkCollisions_unfold q om m (Player.colliderOf setFromObject m));
    [|subst q; destruct p; exact Em|reflexivity].
  cbv zeta.
  assert (Player.with_collider q (Player.colliderOf setFromObject m) = q) as ->
    by reflexivity.
  rewrite Hb. reflexivity.
Qed.

End CollisionOrder.

(** A new player against an obstacle in its way and one far ahead,
    in both orders. *)
Lemma collision_answer_ignores_order_witness :
  exists hit q,
    CollisionDetector.checkCollisions upright_bounds
      (CollisionDetector.mk (Player.new upright_bounds)
         (sample_manager [sample_obstacle 0 0 5; sample_obstacle 1 2 (-40)]))
    = Some (hit, CollisionDetector.mk q
                   (sample_manager [sample_obstacle 0 0 5; sample_obstacle 1 2 (-40)]))
    /\ CollisionDetector.checkCollisions upright_bounds
         (CollisionDetector.mk (Player.new upright_bounds)
            (sample_manager [sample_obstacle 1 2 (-40); sample_obstacle 0 0 5]))
       = Some (hit, CollisionDetector.mk q
                      (sample_manager [sample_obstacle 1 2 (-40); sample_obstacle 0 0 5])).
Proof.
  apply (collision_answer_ignores_order upright_bounds (Player.new upright_bounds)
           (sample_manager [sample_obstacle 0 0 5; sample_obstacle 1 2 (-40)])
           (sample_manager [sample_obstacle 1 2 (-40); sample_obstacle 0 0 5])).
  apply perm_swap.
Defined.

(** ** Score and high score *)

Lemma ltb_nan_l (a b : number) : is_nan a = true -> PrimFloat.ltb a b = false.
Proof.
  intros H. rewrite ltb_spec. rewrite <- is_nan_Prim2SF in H.
  destruct (Prim2SF a); try discriminate. reflexivity.
Qed.

Lemma ltb_irrefl (a : number) : PrimFloat.ltb a a = false.
Proof.
  destruct (PrimFloat.ltb a a) eqn:E; [|reflexivity].
  apply ltb_pos in E as (_ & _ & H). lia.
Qed.

Lemma ltb_trans (a b c : number) :
  PrimFloat.ltb a b = true -> PrimFloat.ltb b c = true -> PrimFloat.ltb a c = true.
Proof.
  intros H1 H2. apply ltb_pos in H1 as (Na & _ & H1). apply ltb_pos in H2 as (_ & Nc & H2).
  rewrite ltb_spec, SFltb_ord by (auto using Prim2SF_valid).
  apply Z.ltb_lt. unfold pos in *. lia.
Qed.

Section ScoreFacts.

Variable parseInt : String.string -> number.
Variable toString : number -> String.string.

(** What the calls maintain, [storage0] being the storage entry and
    [hs0] the high score at construction. *)
Lemma score_call_keeps (storage0 : option String.string) (hs0 : number)
    (c : ScoreCall) (s : ScoreManager.t * option String.string) :
  let inv := fun s : ScoreManager.t * option String.string =>
    ScoreManager.scoreElement (fst s) = score_text toString (ScoreManager.score (fst s))
    /\ ScoreManager.highScoreElement (fst s)
       = high_score_text toString (ScoreManager.highScore (fst s))
    /\ ((snd s = storage0 /\ ScoreManager.highScore (fst s) = hs0)
        \/ snd s = Some (toString (ScoreManager.highScore (fst s))))
    /\ (ScoreManager.highScore (fst s) = hs0
        \/ PrimFloat.ltb hs0 (ScoreManager.highScore (fst s)) = true)
    /\ (is_nan hs0 = true -> snd s = storage0 /\ ScoreManager.highScore (fst s) = hs0) in
  inv s -> inv (run_score_call toString c s).
Proof.
  cbv zeta. destruct s as [sm st]. cbn [fst snd].
  intros (H1 & H2 & H3 & H4 & H5).
  destruct c as [amount| |]; cbn [run_score_call fst snd].
  - unfold ScoreManager.addScore. cbn [ScoreManager.score ScoreManager.highScore
      ScoreManager.with_score].
    destruct (gtb (ScoreManager.score sm + amount) (ScoreManager.highScore sm)) eqn:E;
      cbn [fst snd ScoreManager.updateUI ScoreManager.with_score
           ScoreManager.with_highScore ScoreManager.saveHighScore
           ScoreManager.score ScoreManager.highScore
           ScoreManager.scoreElement ScoreManager.highScoreElement].
    + split; [reflexivity|]. split; [reflexivity|]. split; [now right|].
      unfold gtb in E. split.
      * right. destruct H4 as [H4|H4]; [rewrite <- H4; assumption|].
        eapply ltb_trans; eassumption.
      * intros Hn. exfalso. destruct (H5 Hn) as [_ Hh]. rewrite Hh in E.
        rewrite (ltb_nan_l _ _ Hn) in E. discriminate.
    + split; [reflexivity|]. split; [reflexivity|]. auto.
  - cbn. split; [reflexivity|]. split; [reflexivity|]. auto.
  - cbn. auto.
Qed.

Lemma score_calls_keep (storage0 : option String.string) (hs0 : number)
    (cs : list ScoreCall) (s : ScoreManager.t * option String.string) :
  let inv := fun s : ScoreManager.t * option String.string =>
    ScoreManager.scoreElement (fst s) = score_text toString (ScoreManager.score (fst s))
    /\ ScoreManager.highScoreElement (fst s)
       = high_score_text toString (ScoreManager.highScore (fst s))
    /\ ((snd s = storage0 /\ ScoreManager.highScore (fst s) = hs0)
        \/ snd s = Some (toString (ScoreManager.highScore (fst s))))
    /\ (ScoreManager.highScore (fst s) = hs0
        \/ PrimFloat.ltb hs0 (ScoreManager.highScore (fst s)) = true)
    /\ (is_nan hs0 = true -> snd s = storage0 /\ ScoreManager.highScore (fst s) = hs0) in
  inv s -> inv (run_score_calls toString cs s).
Proof.
  cbv zeta. revert s. induction cs as [|c cs IH]; intros s H; [exact H|].
  cbn [run_score_calls fold_left]. apply IH.
  exact (score_call_keeps storage0 hs0 c s H).
Qed.

(** X14: after any sequence of [addScore], [reset] and
    [updateFinalScore] calls on a new score manager, the page shows
    the floor of the current score and of the current high score; the
    storage entry is either still the one found at construction, with
    the high score still the loaded one, or it is the text of the
    current high score; and the high score is the loaded one or a
    greater one.  Right after an [addScore] the score does not exceed
    the high score. *)
Theorem score_display_and_storage_in_step (storage0 : option String.string)
    (final : String.string) (cs : list ScoreCall) :
  let hs0 := ScoreManager.loadHighScore parseInt storage0 in
  let s := run_score_calls toString cs
             (ScoreManager.new parseInt toString storage0 final, storage0) in
  ScoreManager.scoreElement (fst s) = score_text toString (ScoreManager.score (fst s))
  /\ ScoreManager.highScoreElement (fst s)
     = high_score_text toString (ScoreManager.highScore (fst s))
  /\ ((snd s = storage0 /\ ScoreManager.highScore (fst s) = hs0)
      \/ snd s = Some (toString (ScoreManager.highScore (fst s))))
  /\ (ScoreManager.highScore (fst s) = hs0
      \/ PrimFloat.ltb hs0 (ScoreManager.highScore (fst s)) = true)
  /\ forall amount,
       let s' := run_score_call toString (score_add amount) s in
       gtb (ScoreManager.score (fst s')) (ScoreManager.highScore (fst s')) = false.
Proof.
  cbv zeta.
  pose proof (score_calls_keep storage0 (ScoreManager.loadHighScore parseInt storage0) cs
                (ScoreManager.new parseInt toString storage0 final, storage0)) as H.
  cbv zeta in H. destruct H as (H1 & H2 & H3 & H4 & _).
  { cbn. split; [reflexivity|]. split; [reflexivity|]. auto. }
  split; [exact H1|]. split; [exact H2|]. split; [exact H3|]. split; [exact H4|].
  intros amount. cbn [run_score_call]. unfold ScoreManager.addScore.
  cbn [ScoreManager.score ScoreManager.highScore ScoreManager.with_score].
  match goal with |- context [if gtb ?a ?b then _ else _] =>
    destruct (gtb a b) eqn:E end; cbn; [apply ltb_irrefl|exact E].
Qed.

(** X15: when the stored high score parses to NaN, no sequence of
    calls ever replaces it: the high score stays NaN and the storage
    entry is never written. *)
Theorem unreadable_high_score_is_never_replaced (storage0 : option String.string)
    (final : String.string) (cs : list ScoreCall) :
  is_nan (ScoreManager.loadHighScore parseInt storage0) = true ->
  let s := run_score_calls toString cs
             (ScoreManager.new parseInt toString storage0 final, storage0) in
  is_nan (ScoreManager.highScore (fst s)) = true /\ snd s = storage0.
Proof.
  intros Hn. cbv zeta.
  pose proof (score_calls_keep storage0 (ScoreManager.loadHighScore parseInt storage0) cs
                (ScoreManager.new parseInt toString storage0 final, storage0)) as H.
  cbv zeta in H. destruct H as (_ & _ & _ & _ & H5).
  { cbn. split; [reflexivity|]. split; [reflexivity|]. auto. }
  destruct (H5 Hn) as [Hs Hh]. rewrite Hh. auto.
Qed.

End ScoreFacts.

(** A game's worth of scoring on top of a stored value that is not a
    number. *)
Lemma unreadable_high_score_is_never_replaced_witness :
  let s := run_score_calls SampleBrowser.toString
             [score_add 0.5; score_add 100; score_reset; score_add 3]
             (ScoreManager.new SampleBrowser.parseInt SampleBrowser.toString
                (Some SampleBrowser.corrupted) String.EmptyString,
              Some SampleBrowser.corrupted) in
  is_nan (ScoreManager.highScore (fst s)) = true
  /\ snd s = Some SampleBrowser.corrupted.
Proof.
  exact (unreadable_high_score_is_never_replaced SampleBrowser.parseInt
           SampleBrowser.toString (Some SampleBrowser.corrupted) String.EmptyString
           [score_add 0.5; score_add 100; score_reset; score_add 3] eq_refl).
Defined.

(** ** The game *)

Section GameFacts.

Variable Environment : Type.
Variable environment_update : number -> Environment -> Environment.
Variable parseInt : String.string -> number.
Variable toString : number -> String.string.
Variable random : nat -> number.
Variable playerBounds : Player.Mesh -> THREE.Box3.
Variable obstacleBounds : ObstacleManager.Mesh -> THREE.Box3.
Variable now : nat -> number.
Variable requestId : nat -> nat.

Local Abbreviation gameLoop :=
  (Game.gameLoop environment_update toString random playerBounds obstacleBounds
     now requestId).
Local Abbreviation startGame :=
  (Game.startGame environment_update toString random playerBounds obstacleBounds
     now requestId).
Local Abbreviation handleKeyDown :=
  (Game.handleKeyDown environment_update toString random playerBounds obstacleBounds
     now requestId).
Local Abbreviation run :=
  (run_events Environment environment_update toString random playerBounds
     obstacleBounds now requestId).
Local Abbreviation run1 :=
  (run_event Environment environment_update toString random playerBounds
     obstacleBounds now requestId).

Lemma with_collider_same (q : Player.t) (c : THREE.Box3) :
  Player.collider q = Some c -> Player.with_collider q c = q.
Proof. destruct q. cbn. now intros ->. Qed.

(** A frame while playing: all four updates and the collision check
    return, and the game goes on or ends with the answer of the check. *)
Lemma gameLoop_playing (g : Game.t Environment) (m : Player.Mesh) :
  Game.state g = Game.playing ->
  Player.mesh (Game.player g) = Some m ->
  let deltaTime := ((now (Game.readings g) - Game.lastTime g) / 1000)%float in
  let scored := ScoreManager.addScore toString deltaTime (Game.scoreManager g)
                  (Game.localStorage g) in
  exists q mq om hit,
    Player.update playerBounds (Game.player g) = Some q
    /\ Player.mesh q = Some mq
    /\ Player.collider q = Some (Player.colliderOf playerBounds mq)
    /\ lateralOffset mq = lateralOffset m
    /\ THREE.z (Player.position mq) = THREE.z (Player.position m)
    /\ Player.rotation_z mq = decay (Player.rotation_z m)
    /\ ObstacleManager.update random obstacleBounds deltaTime
         (ScoreManager.score (fst scored)) (Game.obstacles g) = Some om
    /\ CollisionDetector.scan (CollisionDetector.mk q om)
         (ObstacleManager.activeObstacles om) = Some hit
    /\ gameLoop g
       = Some (Game.mk (if hit then Game.gameOver else Game.playing)
                 (Some (requestId (Game.requested g)))
                 (now (Game.readings g))
                 (Game.startScreen_hidden g)
                 (if hit then false else Game.gameOverScreen_hidden g)
                 (if hit then ScoreManager.updateFinalScore toString (fst scored)
                  else fst scored)
                 q om
                 (environment_update (ObstacleManager.speed om) (Game.environment g))
                 (Game.aspect g) (Game.rendererSize g) (snd scored)
                 (if hit then match Game.animationFrameId g with
                              | Some id => Game.cancelled g ++ [id]
                              | None => Game.cancelled g
                              end
                  else Game.cancelled g)
                 (S (Game.requested g)) (S (Game.readings g)) (S (Game.rendered g))).
Proof.
  intros Hs Hm. cbv zeta.
  destruct (update_effect playerBounds (Game.player g) m Hm)
    as (q & mq & Hq & Hmq & Hcq & Hx & Hz & _ & _ & Hr).
  set (deltaTime := ((now (Game.readings g) - Game.lastTime g) / 1000)%float).
  destruct (ScoreManager.addScore toString deltaTime (Game.scoreManager g)
              (Game.localStorage g)) as [sm st] eqn:Esm.
  destruct (update_spec random obstacleBounds deltaTime (ScoreManager.score sm)
              (Game.obstacles g)) as (om & Hom & _).
  destruct (scan_total (CollisionDetector.mk q om) _
              (ObstacleManager.activeObstacles om) Hcq) as [hit Hhit].
  exists q, mq, om, hit.
  split; [assumption|]. split; [assumption|]. split; [assumption|].
  split; [assumption|]. split; [assumption|]. split; [assumption|].
  split; [assumption|]. split; [assumption|].
  unfold Game.gameLoop. rewrite Hs. fold deltaTime. rewrite Esm.
  rewrite Hq. cbn [mbind option_bind]. rewrite Hom. cbn [mbind option_bind].
  rewrite (checkCollisions_unfold playerBounds q om mq _ Hmq Hcq). cbv zeta.
  rewrite (with_collider_same q _ Hcq), Hhit. cbn [mbind option_bind].
  destruct hit; reflexivity.
Qed.

Lemma decay_zero : decay 0 = 0%float.
Proof. reflexivity. Qed.

(** What every handler maintains. *)
Lemma event_keeps (startHidden gameOverHidden : bool) (e : GameEvent)
    (g : Game.t Environment) (m : Player.Mesh) :
  Player.mesh (Game.player g) = Some m -> centred m ->
  screens_fit toString requestId startHidden gameOverHidden g ->
  exists g' m',
    run1 e g = Some g'
    /\ Player.mesh (Game.player g') = Some m' /\ centred m'
    /\ screens_fit toString requestId startHidden gameOverHidden g'.
Proof.
  intros Hm Hc Hf.
  assert (forall g0 m0,
            Game.state g0 = Game.playing ->
            Player.mesh (Game.player g0) = Some m0 -> centred m0 ->
            Game.startScreen_hidden g0 = true ->
            Game.gameOverScreen_hidden g0 = true ->
            exists g' m',
              gameLoop g0 = Some g'
              /\ Player.mesh (Game.player g') = Some m' /\ centred m'
              /\ screens_fit toString requestId startHidden gameOverHidden g')
    as Hloop.
  { intros g0 m0 Hs0 Hm0 (Hx0 & Hr0 & Hz0) Hss Hgs.
    destruct (gameLoop_playing g0 m0 Hs0 Hm0)
      as (q & mq & om & hit & _ & Hmq & _ & Hx & Hz & Hr & _ & _ & Hrun).
    eexists _, mq. split; [exact Hrun|]. cbn [Game.player]. split; [exact Hmq|].
    split.
    { split; [now rewrite Hx|]. split; [now rewrite Hr, Hr0|now rewrite Hz]. }
    unfold screens_fit. destruct hit; cbn.
    - split; [assumption|]. split; reflexivity.
    - split; [assumption|]. split; [assumption|]. split; [lia|reflexivity]. }
  assert (Game.state g <> Game.playing ->
          exists g' m',
            startGame g = Some g'
            /\ Player.mesh (Game.player g') = Some m' /\ centred m'
            /\ screens_fit toString requestId startHidden gameOverHidden g')
    as Hstart.
  { intros Hs. unfold Game.startGame.
    assert (Player.reset playerBounds (Game.player g)
            = Some (Player.with_collider
                      (Player.with_mesh (Player.with_flags (Game.player g) false false)
                         (Player.set_rotation_z (Player.set_position m Player.home) 0))
                      (Player.colliderOf playerBounds
                         (Player.set_rotation_z (Player.set_position m Player.home) 0))))
      as Hreset.
    { unfold Player.reset. cbn. rewrite Hm. reflexivity. }
    rewrite Hreset. cbn [mbind option_bind].
    destruct (Game.state g) eqn:Es; [|congruence|].
    all: eapply Hloop; [reflexivity|reflexivity| |reflexivity|reflexivity].
    all: repeat split. }
  destruct e as [| |code| |w h]; cbn [run_event].
  - destruct (Game.state g) eqn:Es.
    + apply Hstart. congruence.
    + unfold Game.startGame. rewrite Es. exists g, m. auto.
    + apply Hstart. congruence.
  - unfold Game.restartGame. destruct (Game.state g) eqn:Es.
    + apply Hstart. congruence.
    + unfold Game.startGame. rewrite Es. exists g, m. auto.
    + apply Hstart. congruence.
  - unfold Game.handleKeyDown. destruct (String.eqb code KeyCode.Space).
    2:{ cbn. exists g, m. auto. }
    destruct (Game.state g) eqn:Es.
    + destruct Hstart as (g' & m' & -> & H1 & H2 & H3); [congruence|].
      cbn. exists g', m'. auto.
    + cbn. eexists _, m. split; [reflexivity|]. cbn [Game.player].
      split; [unfold Player.jump; now destruct (negb _ && negb _)|].
      split; [assumption|].
      unfold screens_fit in *. cbn. rewrite Es in Hf. exact Hf.
    + unfold Game.restartGame.
      destruct Hstart as (g' & m' & -> & H1 & H2 & H3); [congruence|].
      cbn. exists g', m'. auto.
  - destruct (Game.state g) eqn:Es.
    + unfold Game.gameLoop. rewrite Es. eexists _, m. split; [reflexivity|].
      split; [exact Hm|]. split; [assumption|].
      unfold screens_fit in *. cbn. rewrite Es in Hf. exact Hf.
    + unfold screens_fit in Hf. rewrite Es in Hf. destruct Hf as (Hss & Hgs & _).
      exact (Hloop g m Es Hm Hc Hss Hgs).
    + unfold Game.gameLoop. rewrite Es. eexists _, m. split; [reflexivity|].
      split; [exact Hm|]. split; [assumption|].
      unfold screens_fit in *. cbn. rewrite Es in Hf. exact Hf.
  - eexists _, m. split; [reflexivity|]. split; [exact Hm|]. split; [assumption|].
    unfold screens_fit in *. cbn. exact Hf.
Qed.

Lemma events_keep (startHidden gameOverHidden : bool) (es : list GameEvent)
    (g : Game.t Environment) (m : Player.Mesh) :
  Player.mesh (Game.player g) = Some m -> centred m ->
  screens_fit toString requestId startHidden gameOverHidden g ->
  exists g' m',
    run es g = Some g'
    /\ Player.mesh (Game.player g') = Some m' /\ centred m'
    /\ screens_fit toString requestId startHidden gameOverHidden g'.
Proof.
  revert g m. induction es as [|e es IH]; intros g m Hm Hc Hf; cbn [run_events].
  - exists g, m. auto.
  - destruct (event_keeps startHidden gameOverHidden e g m Hm Hc Hf)
      as (g1 & m1 & -> & Hm1 & Hc1 & Hf1).
    cbn. now apply (IH g1 m1).
Qed.

(** X16: whatever clicks, key presses, animation frames and window
    resizes a new game receives, no handler throws, and the overlays
    fit the state: before the first start they are as the page had
    them, no frame has been requested and the score is 0; while
    playing both overlays are hidden and [animationFrameId] is the id
    of the frame requested last; after the end the start overlay is
    hidden, the game-over overlay is shown, and the final score text
    is the floor of the score the game ended with. *)
Theorem game_screens_follow_state (startHidden gameOverHidden : bool)
    (final : String.string) (storage : option String.string)
    (innerWidth innerHeight : number) (scenery : Environment)
    (es : list GameEvent) :
  exists g,
    run es (Game.new parseInt toString random playerBounds startHidden gameOverHidden
              final storage innerWidth innerHeight scenery) = Some g
    /\ (Game.state g = Game.start ->
        Game.startScreen_hidden g = startHidden
        /\ Game.gameOverScreen_hidden g = gameOverHidden
        /\ Game.requested g = 0
        /\ ScoreManager.score (Game.scoreManager g) = 0%float)
    /\ (Game.state g = Game.playing ->
        Game.startScreen_hidden g = true
        /\ Game.gameOverScreen_hidden g = true
        /\ 0 < Game.requested g
        /\ Game.animationFrameId g = Some (requestId (Nat.pred (Game.requested g))))
    /\ (Game.state g = Game.gameOver ->
        Game.startScreen_hidden g = true
        /\ Game.gameOverScreen_hidden g = false
        /\ ScoreManager.finalScoreElement (Game.scoreManager g)
           = score_text toString (ScoreManager.score (Game.scoreManager g))).
Proof.
  destruct (events_keep startHidden gameOverHidden es
              (Game.new parseInt toString random playerBounds startHidden gameOverHidden
                 final storage innerWidth innerHeight scenery)
              (Player.mkMesh Player.home 0 0 0 0 0) eq_refl)
    as (g & m & Hrun & _ & _ & Hf).
  { repeat split. }
  { repeat split. }
  exists g. split; [exact Hrun|].
  unfold screens_fit in Hf. destruct (Game.state g).
  - destruct Hf as (H1 & H2 & _ & H3 & H4).
    split; [auto|]. split; discriminate.
  - split; [discriminate|]. split; [auto|discriminate].
  - split; [discriminate|]. split; [discriminate|auto].
Qed.

(** X17: no event moves the player sideways: whatever clicks, key
    presses, animation frames and window resizes a new game receives,
    the player's mesh stays at [x] = 0 and [z] = 5 with tilt 0 (the
    game binds no key to [moveLeft] or [moveRight]). *)
Theorem game_keeps_player_centred (startHidden gameOverHidden : bool)
    (final : String.string) (storage : option String.string)
    (innerWidth innerHeight : number) (scenery : Environment)
    (es : list GameEvent) :
  exists g m,
    run es (Game.new parseInt toString random playerBounds startHidden gameOverHidden
              final storage innerWidth innerHeight scenery) = Some g
    /\ Player.mesh (Game.player g) = Some m
    /\ THREE.x (Player.position m) = 0%float
    /\ THREE.z (Player.position m) = 5%float
    /\ Player.rotation_z m = 0%float.
Proof.
  destruct (events_keep startHidden gameOverHidden es
              (Game.new parseInt toString random playerBounds startHidden gameOverHidden
                 final storage innerWidth innerHeight scenery)
              (Player.mkMesh Player.home 0 0 0 0 0) eq_refl)
    as (g & m & Hrun & Hm & (Hx & Hr & Hz) & _).
  { repeat split. }
  { repeat split. }
  exists g, m. auto.
Qed.

(** X18: an animation frame of a game in play returns; it updates
    the player, renders the scene once and requests one more frame,
    whether or not the game ends in it; and the game ends in it
    exactly when, after the player and the obstacles have moved, the
    player's collider overlaps the collider of an active obstacle. *)
Theorem frame_ends_game_on_overlap (g : Game.t Environment) (m : Player.Mesh) :
  Game.state g = Game.playing ->
  Player.mesh (Game.player g) = Some m ->
  exists g',
    gameLoop g = Some g'
    /\ Player.update playerBounds (Game.player g) = Some (Game.player g')
    /\ Game.rendered g' = S (Game.rendered g)
    /\ Game.requested g' = S (Game.requested g)
    /\ Game.animationFrameId g' = Some (requestId (Game.requested g))
    /\ (Game.state g' = Game.playing \/ Game.state g' = Game.gameOver)
    /\ (Game.state g' = Game.gameOver <->
        exists c o box,
          Player.collider (Game.player g') = Some c
          /\ o ∈ ObstacleManager.activeObstacles (Game.obstacles g')
          /\ ObstacleManager.collider o = Some box
          /\ boxes_overlap c box).
Proof.
  intros Hs Hm.
  destruct (gameLoop_playing g m Hs Hm)
    as (q & mq & om & hit & Hq & Hmq & Hcq & _ & _ & _ & _ & Hscan & Hrun).
  eexists. split; [exact Hrun|]. cbn.
  split; [exact Hq|]. split; [reflexivity|]. split; [reflexivity|].
  split; [reflexivity|].
  split; [destruct hit; auto|].
  pose proof (scan_true_iff (CollisionDetector.mk q om) _
                (ObstacleManager.activeObstacles om) Hcq) as Hiff.
  split.
  - intros Hover. destruct hit; [|discriminate].
    apply Hiff in Hscan as (o & box & Ho & Hbox & Hov). eauto 8.
  - intros (c & o & box & Hc & Ho & Hbox & Hov).
    rewrite Hcq in Hc. injection Hc as <-.
    assert (CollisionDetector.scan (CollisionDetector.mk q om)
              (ObstacleManager.activeObstacles om) = Some true) as Ht
      by (apply Hiff; eauto).
    rewrite Ht in Hscan. injection Hscan as <-. reflexivity.
Qed.

Lemma passive_event_keeps_world (e : GameEvent) (g : Game.t Environment) :
  Game.state g <> Game.playing -> is_passive e = true ->
  exists g', run1 e g = Some g' /\ same_world g g'.
Proof.
  intros Hs He. destruct e as [| |code| |w h]; cbn in He; try discriminate;
    cbn [run_event].
  - unfold Game.handleKeyDown. apply negb_true_iff in He. rewrite He. cbn.
    exists g. split; [reflexivity|]. repeat split.
  - unfold Game.gameLoop. destruct (Game.state g) eqn:Es; [|congruence|].
    all: eexists; split; [reflexivity|]; repeat split; cbn; congruence.
  - eexists. split; [reflexivity|]. repeat split.
Qed.

(** X19: once the game is over (or before it has started) the world
    stands still: animation frames, window resizes and keys other
    than Space return and change nothing but the clock and the window
    size; the state, the player, the obstacles, the score, the
    scenery and the storage stay as they are, nothing is rendered and
    no further frame is requested, so the frame requested in the
    ending tick is the last one. *)
Theorem stopped_game_stands_still (es : list GameEvent) (g : Game.t Environment) :
  Game.state g <> Game.playing ->
  forallb is_passive es = true ->
  exists g',
    run es g = Some g'
    /\ Game.state g' = Game.state g
    /\ Game.player g' = Game.player g
    /\ Game.obstacles g' = Game.obstacles g
    /\ Game.scoreManager g' = Game.scoreManager g
    /\ Game.environment g' = Game.environment g
    /\ Game.localStorage g' = Game.localStorage g
    /\ Game.requested g' = Game.requested g
    /\ Game.rendered g' = Game.rendered g.
Proof.
  intros Hs Hes.
  assert (exists g', run es g = Some g' /\ same_world g g') as (g' & Hrun & Hw).
  { revert g Hs. induction es as [|e es IH]; intros g Hs; cbn [run_events].
    - exists g. split; [reflexivity|]. repeat split.
    - cbn [forallb] in Hes. apply andb_prop in Hes as [He Hes].
      destruct (passive_event_keeps_world e g Hs He) as (g1 & -> & Hw1).
      cbn [mbind option_bind].
      destruct (IH Hes g1) as (g' & Hrun & Hw').
      { destruct Hw1 as (E & _). now rewrite E. }
      exists g'. split; [exact Hrun|].
      unfold same_world in *.
      destruct Hw1 as (A1 & A2 & A3 & A4 & A5 & A6 & A7 & A8 & A9 & A10 & A11 & A12).
      destruct Hw' as (B1 & B2 & B3 & B4 & B5 & B6 & B7 & B8 & B9 & B10 & B11 & B12).
      repeat split; congruence. }
  exists g'. split; [exact Hrun|].
  destruct Hw as (A1 & A2 & A3 & A4 & A5 & A6 & A7 & A8 & A9 & A10 & A11 & A12).
  auto 10.
Qed.

(** X20: starting the game from the start screen or after game over
    returns and restarts the round: the player stands grounded at its
    resting position, the score is the first time step alone, and at
    most one obstacle is on the track; the first frame has run, so the
    game is in play or already over again. *)
Theorem start_begins_a_fresh_round (g : Game.t Environment) (m : Player.Mesh) :
  Game.state g <> Game.playing ->
  Player.mesh (Game.player g) = Some m ->
  exists g' m',
    startGame g = Some g'
    /\ (Game.state g' = Game.playing \/ Game.state g' = Game.gameOver)
    /\ Player.mesh (Game.player g') = Some m'
    /\ Player.position m' = Player.home
    /\ phase (Game.player g') = Grounded
    /\ ScoreManager.score (Game.scoreManager g')
       = (0 + (now (S (Game.readings g)) - now (Game.readings g)) / 1000)%float
    /\ length (ObstacleManager.activeObstacles (Game.obstacles g')) <= 1
    /\ Game.startScreen_hidden g' = true.
Proof.
  intros Hs Hm. unfold Game.startGame.
  set (m0 := Player.set_rotation_z (Player.set_position m Player.home) 0).
  set (p0 := Player.with_collider
               (Player.with_mesh (Player.with_flags (Game.player g) false false) m0)
               (Player.colliderOf playerBounds m0)).
  assert (Player.reset playerBounds (Game.player g) = Some p0) as Hreset.
  { unfold Player.reset. cbn. rewrite Hm. reflexivity. }
  rewrite Hreset. cbn [mbind option_bind].
  match goal with
  | |- context [Game.gameLoop _ _ _ _ _ _ _ ?s] => set (g0 := s)
  end.
  assert (exists g' m',
            gameLoop g0 = Some g'
            /\ (Game.state g' = Game.playing \/ Game.state g' = Game.gameOver)
            /\ Player.mesh (Game.player g') = Some m'
            /\ Player.position m' = Player.home
            /\ phase (Game.player g') = Grounded
            /\ ScoreManager.score (Game.scoreManager g')
               = (0 + (now (S (Game.readings g)) - now (Game.readings g)) / 1000)%float
            /\ length (ObstacleManager.activeObstacles (Game.obstacles g')) <= 1
            /\ Game.startScreen_hidden g' = true) as Hgoal.
  { destruct (gameLoop_playing g0 m0 eq_refl eq_refl)
      as (q & mq & om & hit & Hq & Hmq & _ & Hx & Hz & _ & Hom & _ & Hrun).
    destruct (update_effect playerBounds p0 m0 eq_refl)
      as (q' & mq' & Hq' & Hmq' & _ & _ & _ & Hv & _ & _).
    change (Game.player g0) with p0 in Hq.
    assert (q' = q) as -> by congruence.
    assert (mq' = mq) as -> by congruence.
    destruct (update_counts random obstacleBounds
                ((now (Game.readings g0) - Game.lastTime g0) / 1000)%float
                (ScoreManager.score
                   (fst (ScoreManager.addScore toString
                           ((now (Game.readings g0) - Game.lastTime g0) / 1000)%float
                           (Game.scoreManager g0) (Game.localStorage g0))))
                (Game.obstacles g0)) as (om' & Hom' & _ & _ & Hlen).
    assert (om' = om) as -> by (cbv zeta in Hom; congruence).
    exists (Game.mk (if hit then Game.gameOver else Game.playing)
              (Some (requestId (Game.requested g0))) (now (Game.readings g0))
              (Game.startScreen_hidden g0)
              (if hit then false else Game.gameOverScreen_hidden g0)
              (if hit
               then ScoreManager.updateFinalScore toString
                      (fst (ScoreManager.addScore toString
                              ((now (Game.readings g0) - Game.lastTime g0) / 1000)%float
                              (Game.scoreManager g0) (Game.localStorage g0)))
               else fst (ScoreManager.addScore toString
                           ((now (Game.readings g0) - Game.lastTime g0) / 1000)%float
                           (Game.scoreManager g0) (Game.localStorage g0)))
              q om
              (environment_update (ObstacleManager.speed om) (Game.environment g0))
              (Game.aspect g0) (Game.rendererSize g0)
              (snd (ScoreManager.addScore toString
                      ((now (Game.readings g0) - Game.lastTime g0) / 1000)%float
                      (Game.scoreManager g0) (Game.localStorage g0)))
              (if hit then match Game.animationFrameId g0 with
                           | Some id => Game.cancelled g0 ++ [id]
                           | None => Game.cancelled g0
                           end
               else Game.cancelled g0)
              (S (Game.requested g0)) (S (Game.readings g0)) (S (Game.rendered g0))), mq.
    split; [exact Hrun|]. cbn [Game.state Game.player Game.scoreManager Game.obstacles
                               Game.startScreen_hidden].
    split; [destruct hit; auto|]. split; [exact Hmq|].
    unfold vertical, vertical_step in Hv. cbn in Hv.
    split.
    { unfold lateralOffset in Hx. cbn in Hx, Hz.
      assert (THREE.y (Player.position mq) = 0%float) as Hy by congruence.
      destruct (Player.position mq) as [x y z]. cbn in *. subst. reflexivity. }
    split.
    { unfold phase.
      assert (Player.isJumping q = false) as -> by congruence.
      assert (Player.isFalling q = false) as -> by congruence.
      reflexivity. }
    split.
    { unfold ScoreManager.addScore. destruct hit; cbn.
      all: match goal with |- context [if ?b then _ else _] => destruct b end;
        reflexivity. }
    split; [|reflexivity].
    cbn in Hlen. exact Hlen. }
  destruct (Game.state g) eqn:Es; [exact Hgoal|congruence|exact Hgoal].
Qed.

End GameFacts.

(** A frame of the sample game. *)
Lemma frame_ends_game_on_overlap_witness :
  exists g',
    Game.gameLoop (fun _ e => e) SampleBrowser.toString sample_random upright_bounds
      cube_bounds sample_clock S sample_game = Some g'
    /\ Player.update upright_bounds (Game.player sample_game) = Some (Game.player g')
    /\ Game.rendered g' = S (Game.rendered sample_game)
    /\ Game.requested g' = S (Game.requested sample_game)
    /\ Game.animationFrameId g' = Some (S (Game.requested sample_game))
    /\ (Game.state g' = Game.playing \/ Game.state g' = Game.gameOver)
    /\ (Game.state g' = Game.gameOver <->
        exists c o box,
          Player.collider (Game.player g') = Some c
          /\ o ∈ ObstacleManager.activeObstacles (Game.obstacles g')
          /\ ObstacleManager.collider o = Some box
          /\ boxes_overlap c box).
Proof.
  exact (frame_ends_game_on_overlap unit (fun _ e => e) SampleBrowser.toString
           sample_random upright_bounds cube_bounds sample_clock S sample_game
           (Player.mkMesh Player.home 0 0 0 0 0) eq_refl eq_refl).
Defined.

(** An ended game receiving two frames, a resize and the Enter key. *)
Lemma stopped_game_stands_still_witness :
  exists g',
    run_events unit (fun _ e => e) SampleBrowser.toString sample_random upright_bounds
      cube_bounds sample_clock S
      [animation_frame; window_resize 800 600; keydown KeyCode.Enter; animation_frame]
      sample_game_over = Some g'
    /\ Game.state g' = Game.state sample_game_over
    /\ Game.player g' = Game.player sample_game_over
    /\ Game.obstacles g' = Game.obstacles sample_game_over
    /\ Game.scoreManager g' = Game.scoreManager sample_game_over
    /\ Game.environment g' = Game.environment sample_game_over
    /\ Game.localStorage g' = Game.localStorage sample_game_over
    /\ Game.requested g' = Game.requested sample_game_over
    /\ Game.rendered g' = Game.rendered sample_game_over.
Proof.
  exact (stopped_game_stands_still unit (fun _ e => e) SampleBrowser.toString
           sample_random upright_bounds cube_bounds sample_clock S
           [animation_frame; window_resize 800 600; keydown KeyCode.Enter; animation_frame]
           sample_game_over ltac:(discriminate) eq_refl).
Defined.

(** The ended sample game, started again. *)
Lemma start_begins_a_fresh_round_witness :
  exists g' m',
    Game.startGame (fun _ e => e) SampleBrowser.toString sample_random upright_bounds
      cube_bounds sample_clock S sample_game_over = Some g'
    /\ (Game.state g' = Game.playing \/ Game.state g' = Game.gameOver)
    /\ Player.mesh (Game.player g') = Some m'
    /\ Player.position m' = Player.home
    /\ phase (Game.player g') = Grounded
    /\ ScoreManager.score (Game.scoreManager g')
       = (0 + (sample_clock (S (Game.readings sample_game_over))
               - sample_clock (Game.readings sample_game_over)) / 1000)%float
    /\ length (ObstacleManager.activeObstacles (Game.obstacles g')) <= 1
    /\ Game.startScreen_hidden g' = true.
Proof.
  exact (start_begins_a_fresh_round unit (fun _ e => e) SampleBrowser.toString
           sample_random upright_bounds cube_bounds sample_clock S sample_game_over
           (Player.mkMesh Player.home 0 0 0 0 0) ltac:(discriminate) eq_refl).
Defined.
